(** * Font-override engine of the country-flag fixer content script

    A shallow embedding of [src/content.js] and the properties of its
    override stylesheet, scan pass, mutation gate and inline-style
    preserver.

    The browser is an external collaborator.  What the script reads from
    it is data of this model: a style sheet's owner node, media list, href
    and rule list (a read may raise), the answer of [querySelector], the
    answer of the network.  What the browser computes from text the script
    wrote (the [cssText] of a rule parsed from the override element, the
    [style] attribute after [setProperty]) is a method of the class
    [HostEngine]; theorems hold for every instance unless they say
    otherwise.

    Conventions of the model:
    - a string is a sequence of code units below 256;
    - [document.styleSheets] is the list of the page's sheets in document
      order; the sheet of the override element is a sheet like the others,
      recognised by the id of its owner node.  [updateFontFamilyRules] is
      the pass over the list as a pass finds it; [updateFontFamilyRules_live]
      is the pass over the list itself, which the builder changes while the
      loop runs;
    - the rules of the element the builder wrote are read back line by
      line: an old rule, written from its [cssText], is read back as it
      was; a new line is read back as one rule with the selector it was
      written for and the font family the engine reads from the declared
      value ([readFontFamily]);
    - an asynchronous function is cut at its [await]: the part that runs
      at once, and the part that runs when the awaited value is there;
    - an exception is a result of its own ([Throw], [StepAbort],
      [Aborted]), never a stuck state. *)

From stdpp Require Import base option list gmap strings.
From Stdlib Require Import Ascii String Lia.

Local Open Scope string_scope.
Local Open Scope list_scope.

(** ** Constants of the script (lines 1-13) *)

Definition replacementFontName : string := "Twemoji Country Flags".
Definition extentionStyleTagId : string := "country-flag-fixer-ext".
Definition logsEnabled : bool := true.

(** The line feed the script appends to every rule it writes. *)
Definition LF : string := String (ascii_of_nat 10) EmptyString.

(** ** Strings as JavaScript uses them *)

(** [s.startsWith(p)]. *)
Fixpoint startsWith (p s : string) : bool :=
  match p, s with
  | EmptyString, _ => true
  | String a p', String b s' => if Ascii.eqb a b then startsWith p' s' else false
  | String _ _, EmptyString => false
  end.

(** [s.includes(p)]. *)
Fixpoint includes (s p : string) : bool :=
  if startsWith p s then true
  else match s with
       | EmptyString => false
       | String _ s' => includes s' p
       end.

(** [toLowerCase] on the ASCII letters; other characters are kept. *)
Definition lowerAscii (c : ascii) : ascii :=
  let n := nat_of_ascii c in
  if (65 <=? n)%nat && (n <=? 90)%nat then ascii_of_nat (n + 32) else c.

Fixpoint toLowerCase (s : string) : string :=
  match s with
  | EmptyString => EmptyString
  | String c s' => String (lowerAscii c) (toLowerCase s')
  end.

(** JavaScript truthiness of a string that may be [undefined] or [null]. *)
Definition truthy (o : option string) : bool :=
  match o with
  | Some s => negb (String.eqb s "")
  | None => false
  end.

(** ** Data model *)

(** A property read that may raise. *)
Inductive Res (A : Type) : Type :=
| Ok (a : A)
| Throw.
Arguments Ok {A} a.
Arguments Throw {A}.

(** One rule of a CSSOM rule list.  [style_fontFamily] is [None] for a rule
    without a [style] block (a media or import rule) and [Some ""] when the
    block sets no font family; [css_selectorText] is [None] for a rule
    without selector (a font-face rule). *)
Record CSSRule : Type := mkRule {
  style_fontFamily : option string;
  css_selectorText : option string;
  cssText : string
}.

(** The object pushed at line 130. *)
Record FontFamilyRule : Type := mkFFR {
  selectorText : string;
  fontFamily : string
}.

(** A DOM node: the owner of a style sheet, or a node added by a mutation. *)
Record Node : Type := mkNode {
  nodeName : string;
  node_id : string;
  rel : string;
  as_ : string;
  node_href : string;
  node_textContent : string
}.

Record MediaList : Type := mkMedia { mediaText : string }.

(** A style sheet handle.  [ownerNode] and [media] are [None] when the
    property is [null], so that reading a property of it raises a
    TypeError; [cssRules] is [Throw] when the rule list is not readable
    (a cross-origin sheet). *)
Record StyleSheet : Type := mkSheet {
  ownerNode : option Node;
  media : option MediaList;
  href : option string;
  cssRules : Res (list CSSRule)
}.

(** The element found under [extentionStyleTagId]: the text written to it
    and the rules the browser exposes for it ([sheet.cssRules]). *)
Record StyleElement : Type := mkStyle {
  textContent : string;
  sheet_cssRules : list CSSRule
}.

(** An element as the preserver sees it: its [style] attribute. *)
Record Element : Type := mkElement { style_attr : option string }.

(** What the script can observe of the document during one pass. *)
Record Document : Type := mkDoc {
  styleSheets : list StyleSheet;
  head_present : bool;
  (** [document.querySelector('link[href=...]')]: is there such a link;
      [Throw] when the selector text is not valid. *)
  querySelectorLink : string -> Res bool;
  (** The rules of the fetched text once parsed; [Throw] when the fetch,
      the body or the parse fails. *)
  fetch : string -> Res (list CSSRule)
}.

(** What the script does that can be observed from outside, in order. *)
Inductive Event : Type :=
| LogProcessingSheet (sheetCount total : nat)
| LogFetching (styleHref : string)
| LogErrPreloadLink (styleHref : string)
| LogErrFetching
| LogFetched (rules sheetCount total : nat)
| LogAddedRule (selector : string) (position : nat)
| LogUpdating (characters : nat)
| LogErrRetrieving (sheetCount total : nat)
| LogFinished (total : nat)
| LogRunning
| NetworkFetch (url : string)
| BuilderCall (batch : list FontFamilyRule).

(** The mutable state: the element carrying [extentionStyleTagId] (if
    attached), the module-level variables, the elements of the document
    and the trace of events. *)
Record State : Type := mkState {
  overrideTag : option StyleElement;
  requestedCssFiles : gset string;
  lastStyleSheets : gset string;
  runCount : nat;
  elements : list Element;
  trace : list Event
}.

Definition set_overrideTag (o : option StyleElement) (st : State) : State :=
  mkState o (requestedCssFiles st) (lastStyleSheets st) (runCount st)
          (elements st) (trace st).

Definition add_requested (h : string) (st : State) : State :=
  mkState (overrideTag st) ({[h]} ∪ requestedCssFiles st) (lastStyleSheets st)
          (runCount st) (elements st) (trace st).

Definition set_lastStyleSheets (k : gset string) (st : State) : State :=
  mkState (overrideTag st) (requestedCssFiles st) k (runCount st)
          (elements st) (trace st).

Definition incr_runCount (st : State) : State :=
  mkState (overrideTag st) (requestedCssFiles st) (lastStyleSheets st)
          (S (runCount st)) (elements st) (trace st).

Definition set_elements (es : list Element) (st : State) : State :=
  mkState (overrideTag st) (requestedCssFiles st) (lastStyleSheets st)
          (runCount st) es (trace st).

(** [log] and [logError] (lines 17-43): with [logsEnabled] the event is
    appended to the trace. *)
Definition log (e : Event) (st : State) : State :=
  if logsEnabled
  then mkState (overrideTag st) (requestedCssFiles st) (lastStyleSheets st)
               (runCount st) (elements st) (trace st ++ [e])
  else st.

(** Instrumentation: an action that is not a console line. *)
Definition emit (e : Event) (st : State) : State :=
  mkState (overrideTag st) (requestedCssFiles st) (lastStyleSheets st)
          (runCount st) (elements st) (trace st ++ [e]).

(** ** The host engine *)

Class HostEngine : Type := {
  (** [cssText] of the rule the browser parsed from a line the builder
      wrote for this selector and this declared font-family value. *)
  serializeRule : string -> string -> string;
  (** The [style] attribute after
      [element.style.setProperty('font-family', value, 'important')]. *)
  setFontFamilyImportant : string -> string -> string;
  (** [style.fontFamily] of the rule the browser parsed from a line the
      builder wrote with this declared value: the value as the browser
      serialises it, or the empty string when the browser dropped the
      declaration as invalid. *)
  readFontFamily : string -> string
}.

Section Engine.
Context `{HostEngine}.

(** ** Override stylesheet builder (lines 145-185) *)

(** The value the builder declares (line 162). *)
Definition declaredValue (rule : FontFamilyRule) : string :=
  "'" +:+ replacementFontName +:+ "', " +:+ fontFamily rule.

(** The line written for a new rule (line 162). *)
Definition ruleLine (rule : FontFamilyRule) : string :=
  selectorText rule +:+ " { font-family: " +:+ declaredValue rule
    +:+ " !important; }" +:+ LF.

(** The rule the browser exposes for such a line. *)
Definition parsedRule (rule : FontFamilyRule) : CSSRule :=
  mkRule (Some (readFontFamily (declaredValue rule))) (Some (selectorText rule))
         (serializeRule (selectorText rule) (declaredValue rule)).

(** [old.selectorText === rule.selectorText] *)
Definition sameSelector (old : CSSRule) (rule : FontFamilyRule) : bool :=
  match css_selectorText old with
  | Some s => String.eqb s (selectorText rule)
  | None => false
  end.

(** [oldRules.some(old => old.selectorText === rule.selectorText)] *)
Definition hasOld (oldRules : list CSSRule) (rule : FontFamilyRule) : bool :=
  existsb (fun old => sameSelector old rule) oldRules.

Definition concatLines (ls : list string) : string :=
  fold_right String.append "" ls.

Definition createNewStyleTag (fontFamilyRules : list FontFamilyRule)
    (existingSheet : option StyleElement) : StyleElement :=
  let oldRules :=
    match existingSheet with
    | Some e => sheet_cssRules e
    | None => []
    end in
  let kept := List.filter (fun rule => negb (hasOld oldRules rule)) fontFamilyRules in
  mkStyle
    (concatLines (List.map (fun rule => cssText rule +:+ LF) oldRules)
       +:+ concatLines (List.map ruleLine kept))
    (oldRules ++ List.map parsedRule kept).

Definition updateStyleTag (doc : Document) (fontFamilyRules : list FontFamilyRule)
    (st : State) : State :=
  let st := emit (BuilderCall fontFamilyRules) st in
  let existingSheet := overrideTag st in
  let newStyleTag := createNewStyleTag fontFamilyRules existingSheet in
  let st := log (LogUpdating (String.length (textContent newStyleTag))) st in
  (* lines 177-179: the attached element is removed *)
  let st := set_overrideTag None st in
  if head_present doc
  then set_overrideTag (Some newStyleTag) st
  else st.

(** ** Rule extractor: [fetchCSSRulesFromUrl] (lines 47-78)

    The function is asynchronous.  Its synchronous prefix runs up to the
    call of [fetch]; the rest runs when the response has arrived. *)

Inductive Pending : Type :=
| PendingRejected               (* [querySelector] raised: the promise is rejected *)
| PendingEmpty                  (* no link element: resolved with the empty array *)
| PendingResponse (url : string). (* a request is on the network *)

Definition fetchCSSRulesFromUrl_begin (doc : Document) (styleHref : string)
    (st : State) : Pending * State :=
  let st := log (LogFetching styleHref) st in
  match querySelectorLink doc styleHref with
  | Throw => (PendingRejected, st)
  | Ok false => (PendingEmpty, log (LogErrPreloadLink styleHref) st)
  | Ok true => (PendingResponse styleHref, emit (NetworkFetch styleHref) st)
  end.

(** The temporary style element needs [document.head]; without it line 65
    raises inside the [try] and the [catch] returns the empty array. *)
Definition fetchCSSRulesFromUrl_end (doc : Document) (p : Pending)
    (st : State) : Res (list CSSRule) * State :=
  match p with
  | PendingRejected => (Throw, st)
  | PendingEmpty => (Ok [], st)
  | PendingResponse url =>
      match fetch doc url with
      | Ok rules =>
          if head_present doc then (Ok rules, st)
          else (Ok [], log LogErrFetching st)
      | Throw => (Ok [], log LogErrFetching st)
      end
  end.

(** The whole call, when nothing else runs while it is suspended. *)
Definition fetchCSSRulesFromUrl (doc : Document) (styleHref : string)
    (st : State) : Res (list CSSRule) * State :=
  let '(p, st) := fetchCSSRulesFromUrl_begin doc styleHref st in
  fetchCSSRulesFromUrl_end doc p st.

(** ** Font rule collector: [updateFontFamilyRules] (lines 80-143) *)

Definition sheetMediaBlacklist : list string :=
  ["print"; "speech"; "aural"; "braille"; "handheld"; "projection"; "tty"].

(** [list.includes(s)] *)
Definition includesString (l : list string) (s : string) : bool :=
  existsb (String.eqb s) l.
Arguments includesString : simpl never.

(** Lines 115-127: the rule pushed for [rule], if any. *)
Definition candidate (rule : CSSRule) : option FontFamilyRule :=
  match style_fontFamily rule with
  | None => None
  | Some ff =>
      if negb (truthy (Some ff)) || negb (truthy (css_selectorText rule)) then None
      else if String.eqb ff "inherit" then None
      else if includes (toLowerCase ff) (toLowerCase replacementFontName) then None
      else match css_selectorText rule with
           | Some sel => Some (mkFFR sel ff)
           | None => None
           end
  end.

(** Lines 113-131. *)
Fixpoint collect (rules : list CSSRule) (fontFamilyRules : list FontFamilyRule)
    (st : State) : list FontFamilyRule * State :=
  match rules with
  | [] => (fontFamilyRules, st)
  | rule :: rest =>
      match candidate rule with
      | None => collect rest fontFamilyRules st
      | Some r =>
          collect rest (fontFamilyRules ++ [r])
                  (log (LogAddedRule (selectorText r) (List.length fontFamilyRules)) st)
      end
  end.

(** Steps 2 and 3 of the loop body (lines 112-134). *)
Definition scanAndUpdate (doc : Document) (rules : list CSSRule)
    (st : State) : State :=
  let '(fontFamilyRules, st) := collect rules [] st in
  updateStyleTag doc fontFamilyRules st.

(** How one iteration of the loop at line 84 leaves its synchronous part. *)
Inductive SheetStep : Type :=
| StepNext (st : State)          (* on to the next sheet *)
| StepAbort (st : State)         (* an exception left the loop *)
| StepAwait (sheetHref : string) (p : Pending) (st : State). (* line 107 *)

(** Lines 85-107, up to the [await]. *)
Definition beginSheet (doc : Document) (sheetCount total : nat)
    (sheet : StyleSheet) (st : State) : SheetStep :=
  let st := log (LogProcessingSheet sheetCount total) st in
  match ownerNode sheet with
  | None => StepAbort st
  | Some owner =>
      if String.eqb (node_id owner) extentionStyleTagId then StepNext st
      else
        match media sheet with
        | None => StepAbort st
        | Some m =>
            if includesString sheetMediaBlacklist (mediaText m)
            then StepNext st
            else
              match cssRules sheet with
              | Ok rules => StepNext (scanAndUpdate doc rules st)
              | Throw =>
                  match href sheet with
                  | None => StepNext st
                  | Some h =>
                      if negb (truthy (Some h))
                         || negb (String.eqb (rel owner) "stylesheet")
                         || bool_decide (h ∈ requestedCssFiles st)
                      then StepNext st
                      else
                        let '(p, st) := fetchCSSRulesFromUrl_begin doc h st in
                        StepAwait h p st
                  end
              end
        end
  end.

(** Lines 107-139, from the [await] on.  All of it is inside the [try] of
    line 97. *)
Definition resumeSheet (doc : Document) (sheetCount total : nat)
    (sheetHref : string) (p : Pending) (st : State) : State :=
  match fetchCSSRulesFromUrl_end doc p st with
  | (Throw, st) => log (LogErrRetrieving sheetCount total) st
  | (Ok rules, st) =>
      let st := add_requested sheetHref st in
      let st := log (LogFetched (List.length rules) sheetCount total) st in
      scanAndUpdate doc rules st
  end.

Inductive PassResult : Type :=
| Completed (st : State)
| Aborted (st : State).

Definition finalState (r : PassResult) : State :=
  match r with
  | Completed st => st
  | Aborted st => st
  end.

(** One iteration with nothing else running during the [await]. *)
Definition processSheet (doc : Document) (sheetCount total : nat)
    (sheet : StyleSheet) (st : State) : PassResult :=
  match beginSheet doc sheetCount total sheet st with
  | StepNext st => Completed st
  | StepAbort st => Aborted st
  | StepAwait h p st => Completed (resumeSheet doc sheetCount total h p st)
  end.

(** The loop of line 84 over the sheets the pass found, in the order it
    found them; [sheetCount] sheets have been counted so far.  The loop over
    the list as the builder changes it is [sheetsLoop_live] below. *)
Fixpoint sheetsLoop (doc : Document) (total sheetCount : nat)
    (sheets : list StyleSheet) (st : State) : PassResult :=
  match sheets with
  | [] => Completed (log (LogFinished total) st)
  | sheet :: rest =>
      match processSheet doc (S sheetCount) total sheet st with
      | Completed st => sheetsLoop doc total (S sheetCount) rest st
      | Aborted st => Aborted st
      end
  end.

Definition updateFontFamilyRules (doc : Document) (st : State) : PassResult :=
  sheetsLoop doc (List.length (styleSheets doc)) 0 (styleSheets doc) st.

(** ** Passes that overlap

    A pass is suspended at line 107 while its request is on the network.
    Another mutation batch can start a pass in the meantime; the passes
    share the module-level variables and the document. *)

Inductive Task : Type :=
| TaskAwait (doc : Document) (sheetCount : nat) (sheetHref : string)
            (p : Pending) (rest : list StyleSheet)
| TaskDone
| TaskFailed.

(** Run the loop until the pass suspends, ends or fails. *)
Fixpoint runLoop (doc : Document) (total sheetCount : nat)
    (sheets : list StyleSheet) (st : State) : Task * State :=
  match sheets with
  | [] => (TaskDone, log (LogFinished total) st)
  | sheet :: rest =>
      match beginSheet doc (S sheetCount) total sheet st with
      | StepNext st => runLoop doc total (S sheetCount) rest st
      | StepAbort st => (TaskFailed, st)
      | StepAwait h p st => (TaskAwait doc (S sheetCount) h p rest, st)
      end
  end.

Definition startPass (doc : Document) (st : State) : Task * State :=
  runLoop doc (List.length (styleSheets doc)) 0 (styleSheets doc) st.

(** The response arrives: the pass goes on until it suspends again. *)
Definition resumePass (t : Task) (st : State) : Task * State :=
  match t with
  | TaskAwait doc sheetCount h p rest =>
      let total := List.length (styleSheets doc) in
      runLoop doc total sheetCount rest (resumeSheet doc sheetCount total h p st)
  | other => (other, st)
  end.

(** What the event loop does next: a mutation batch starts a pass on the
    document as it is then, or the response of pass number [i] arrives. *)
Inductive Turn : Type :=
| MutationBatch (doc : Document)
| Response (i : nat).

Definition turn (a : Turn) (sys : list Task * State) : list Task * State :=
  let '(tasks, st) := sys in
  match a with
  | MutationBatch doc =>
      let '(t, st) := startPass doc st in (tasks ++ [t], st)
  | Response i =>
      match tasks !! i with
      | Some t => let '(t, st) := resumePass t st in (<[i := t]> tasks, st)
      | None => sys
      end
  end.

Definition runTurns (turns : list Turn) (sys : list Task * State)
    : list Task * State :=
  fold_left (fun sys a => turn a sys) turns sys.

(** The responses of one pass arrive until it has ended; [fuel] bounds
    their number. *)
Fixpoint drain (fuel : nat) (t : Task) (st : State) : Task * State :=
  match fuel with
  | O => (t, st)
  | S fuel' =>
      match t with
      | TaskAwait _ _ _ _ _ =>
          let '(t', st') := resumePass t st in drain fuel' t' st'
      | _ => (t, st)
      end
  end.

(** Passes one after the other: each runs to its end before the next
    starts. *)
Fixpoint runPasses (docs : list Document) (st : State) : State :=
  match docs with
  | [] => st
  | doc :: rest => runPasses rest (finalState (updateFontFamilyRules doc st))
  end.

(** ** The pass over the live list (lines 80-143 with 168-185)

    [document.styleSheets] is a live list, in tree order, and the loop of
    line 84 walks it by index: at each step it reads the length of the list
    as it is then and takes the sheet at the next index.  [updateStyleTag]
    changes the list while the loop runs: line 178 takes the override
    element, and with it its sheet, out of the document, and line 184
    appends the new element to the head, so that its sheet stands after the
    sheets of the head and before the sheets of the body.  A sheet behind
    the place the old element left moves one index down; a sheet behind the
    place the new element takes moves one index up.

    The temporary style element of lines 61-71 is appended to the head and
    taken out again before [fetchCSSRulesFromUrl] returns: it leaves the
    list as it was.

    [updateFontFamilyRules] above is the pass over a list that stays as the
    pass found it, which is what the loop sees when the override element is
    the last element of the head; the definitions below follow the list as
    it changes. *)

(** The style sheets of the document in tree order.  The first
    [dom_head] of them belong to elements of the head.  [dom_unstyled]
    says that the element [getElementById] finds under
    [extentionStyleTagId] has no sheet (an element of the page that took
    the id, or a style element the browser gave no sheet): line 152 then
    raises a TypeError on [existingSheet.sheet.cssRules]. *)
Record Dom : Type := mkDom {
  dom_sheets : list StyleSheet;
  dom_head : nat;
  dom_unstyled : bool
}.

(** The sheet of an element the builder appended. *)
Definition sheetOf (e : StyleElement) : StyleSheet :=
  mkSheet (Some (mkNode "STYLE" extentionStyleTagId "" "" "" (textContent e)))
          (Some (mkMedia "")) None (Ok (sheet_cssRules e)).

(** The owner of the sheet carries [extentionStyleTagId]. *)
Definition isOwn (sheet : StyleSheet) : bool :=
  match ownerNode sheet with
  | Some owner => String.eqb (node_id owner) extentionStyleTagId
  | None => false
  end.

(** The index of the sheet of the first element that carries the id. *)
Fixpoint firstOwn (sheets : list StyleSheet) : option nat :=
  match sheets with
  | [] => None
  | sheet :: rest => if isOwn sheet then Some 0 else S <$> firstOwn rest
  end.

(** Line 178: the element leaves the document, and its sheet the list. *)
Definition removeOwn (d : Dom) : Dom :=
  match firstOwn (dom_sheets d) with
  | None => d
  | Some i =>
      mkDom (delete i (dom_sheets d))
            (if bool_decide (i < dom_head d) then pred (dom_head d) else dom_head d)
            (dom_unstyled d)
  end.

(** Line 184: the element becomes the last child of the head. *)
Definition appendToHead (sheet : StyleSheet) (d : Dom) : Dom :=
  mkDom (take (dom_head d) (dom_sheets d) ++ sheet :: drop (dom_head d) (dom_sheets d))
        (S (dom_head d)) (dom_unstyled d).

(** Lines 177-184 on the list: [existingSheet] is the element found, and
    [newStyleTag] the element built. *)
Definition relist (doc : Document) (existingSheet : option StyleElement)
    (newStyleTag : StyleElement) (d : Dom) : Dom :=
  let d := match existingSheet with
           | Some _ => removeOwn d
           | None => d
           end in
  if head_present doc then appendToHead (sheetOf newStyleTag) d else d.

(** [updateStyleTag] on the document and its list.  When the element found
    has no sheet, [createNewStyleTag] raises at line 152, before anything
    is logged or changed. *)
Definition updateStyleTag_live (doc : Document) (fontFamilyRules : list FontFamilyRule)
    (d : Dom) (st : State) : Res Dom * State :=
  if dom_unstyled d
  then (Throw, emit (BuilderCall fontFamilyRules) st)
  else (Ok (relist doc (overrideTag st)
                   (createNewStyleTag fontFamilyRules (overrideTag st)) d),
        updateStyleTag doc fontFamilyRules st).

(** How one iteration of the loop ends. *)
Inductive LiveStep : Type :=
| LiveNext (d : Dom) (st : State)   (* on to the next index *)
| LiveAbort (d : Dom) (st : State). (* an exception left the loop *)

(** Lines 112-139: the rules are filtered and handed to the builder; an
    exception of the builder is caught at line 136. *)
Definition scanAndUpdate_live (doc : Document) (rules : list CSSRule)
    (sheetCount total : nat) (d : Dom) (st : State) : LiveStep :=
  let '(fontFamilyRules, st) := collect rules [] st in
  match updateStyleTag_live doc fontFamilyRules d st with
  | (Ok d, st) => LiveNext d st
  | (Throw, st) => LiveNext d (log (LogErrRetrieving sheetCount total) st)
  end.

(** Lines 85-139 for the sheet at hand, the fallback fetch running to its
    end before anything else happens. *)
Definition processSheet_live (doc : Document) (sheetCount : nat)
    (sheet : StyleSheet) (d : Dom) (st : State) : LiveStep :=
  let total := List.length (dom_sheets d) in
  let st := log (LogProcessingSheet sheetCount total) st in
  match ownerNode sheet with
  | None => LiveAbort d st
  | Some owner =>
      if String.eqb (node_id owner) extentionStyleTagId then LiveNext d st
      else
        match media sheet with
        | None => LiveAbort d st
        | Some m =>
            if includesString sheetMediaBlacklist (mediaText m)
            then LiveNext d st
            else
              match cssRules sheet with
              | Ok rules => scanAndUpdate_live doc rules sheetCount total d st
              | Throw =>
                  match href sheet with
                  | None => LiveNext d st
                  | Some h =>
                      if negb (truthy (Some h))
                         || negb (String.eqb (rel owner) "stylesheet")
                         || bool_decide (h ∈ requestedCssFiles st)
                      then LiveNext d st
                      else
                        match fetchCSSRulesFromUrl doc h st with
                        | (Throw, st) =>
                            LiveNext d (log (LogErrRetrieving sheetCount total) st)
                        | (Ok rules, st) =>
                            let st := add_requested h st in
                            let st := log (LogFetched (List.length rules)
                                                      sheetCount total) st in
                            scanAndUpdate_live doc rules sheetCount total d st
                        end
                  end
              end
        end
  end.

(** The loop of line 84 from [index] on.  [fuel] bounds the number of
    iterations; [None] when it does not suffice. *)
Fixpoint sheetsLoop_live (doc : Document) (fuel index : nat) (d : Dom) (st : State)
    : option (PassResult * Dom) :=
  match fuel with
  | O => None
  | S fuel' =>
      match dom_sheets d !! index with
      | None => Some (Completed (log (LogFinished (List.length (dom_sheets d))) st), d)
      | Some sheet =>
          match processSheet_live doc (S index) sheet d st with
          | LiveNext d st => sheetsLoop_live doc fuel' (S index) d st
          | LiveAbort d st => Some (Aborted st, d)
          end
      end
  end.

(** A pass on the document as it is.  The list grows by at most one sheet
    during a pass, which bounds the number of iterations. *)
Definition updateFontFamilyRules_live (doc : Document) (d : Dom) (st : State)
    : option (PassResult * Dom) :=
  sheetsLoop_live doc (List.length (dom_sheets d) + 2) 0 d st.

(** ** Inline style preserver (lines 187-211) *)

(** [\s] on the code units below 256. *)
Definition isSpace (c : ascii) : bool :=
  let n := nat_of_ascii c in
  (n =? 9)%nat || (n =? 10)%nat || (n =? 11)%nat || (n =? 12)%nat
  || (n =? 13)%nat || (n =? 32)%nat || (n =? 160)%nat.

Definition notSemicolon (c : ascii) : bool := negb (Ascii.eqb c ";").

Fixpoint dropSpaces (s : string) : string :=
  match s with
  | String c s' => if isSpace c then dropSpaces s' else s
  | EmptyString => s
  end.

Fixpoint string_rev (s : string) : string :=
  match s with
  | EmptyString => EmptyString
  | String c s' => string_rev s' +:+ String c EmptyString
  end.

(** [s.trim()]. *)
Definition trim (s : string) : string :=
  string_rev (dropSpaces (string_rev (dropSpaces s))).

(** [s.substring(n)]. *)
Fixpoint dropChars (n : nat) (s : string) : string :=
  match n, s with
  | O, _ => s
  | S n', String _ s' => dropChars n' s'
  | S _, EmptyString => EmptyString
  end.

(** The regular expression of line 198, matched the way a backtracking
    engine does: each piece takes the continuation of the pattern. *)
Section Regex.
Context {R : Type}.

(** [c*], greedy: as many as possible first, then one fewer. [taken] is
    what the piece has consumed. *)
Fixpoint starGreedy (p : ascii -> bool) (k : string -> string -> option R)
    (taken s : string) : option R :=
  match s with
  | String c s' =>
      if p c
      then match starGreedy p k (taken +:+ String c EmptyString) s' with
           | Some r => Some r
           | None => k taken s
           end
      else k taken s
  | EmptyString => k taken s
  end.

(** [c+?], lazy: one character, then as few more as possible. *)
Fixpoint plusLazy (p : ascii -> bool) (k : string -> string -> option R)
    (taken s : string) : option R :=
  match s with
  | String c s' =>
      if p c
      then let taken := taken +:+ String c EmptyString in
           match k taken s' with
           | Some r => Some r
           | None => plusLazy p k taken s'
           end
      else None
  | EmptyString => None
  end.

(** A literal. *)
Definition lit (w : string) (k : string -> option R) (s : string) : option R :=
  if startsWith w s then k (dropChars (String.length w) s) else None.

End Regex.

(** The result of [exec]: groups 1 and 2. *)
Record Match : Type := mkMatch {
  group1 : string;
  group2 : option string
}.

(** [\s*(;|$)] *)
Definition reTail (g1 : string) (g2 : option string) (s : string) : option Match :=
  starGreedy isSpace
    (fun _ s => match s with
                | EmptyString => Some (mkMatch g1 g2)
                | String c _ => if Ascii.eqb c ";" then Some (mkMatch g1 g2) else None
                end) "" s.

(** [(\s*!important)?\s*(;|$)] *)
Definition reImportant (g1 : string) (s : string) : option Match :=
  match starGreedy isSpace
          (fun sp s => lit "!important"
                         (reTail g1 (Some (sp +:+ "!important"))) s) "" s with
  | Some m => Some m
  | None => reTail g1 None s
  end.

(** The pattern anchored at the start of [s]. *)
Definition matchHere (s : string) : option Match :=
  lit "font-family"
    (starGreedy isSpace
       (fun _ => lit ":"
          (starGreedy isSpace
             (fun _ => plusLazy notSemicolon reImportant "") "")) "") s.

(** [fontFamilyRegex.exec(s)]: the leftmost match. *)
Fixpoint fontFamilyRegex_exec (s : string) : option Match :=
  match matchHere s with
  | Some m => Some m
  | None =>
      match s with
      | EmptyString => None
      | String _ s' => fontFamilyRegex_exec s'
      end
  end.

Definition hasIsImportant (m : Match) : bool :=
  match group2 m with
  | Some g => includes g "!important"
  | None => false
  end.

Definition preserveCustomFonts (element : option Element) : option Element :=
  match element with
  | None => None
  | Some e =>
      match style_attr e with
      | None => Some e
      | Some inlineStyle =>
          if negb (truthy (Some inlineStyle)) || negb (includes inlineStyle "font-family")
          then Some e
          else
            match fontFamilyRegex_exec inlineStyle with
            | None => Some e
            | Some m =>
                if hasIsImportant m then Some e
                else
                  let currentFontFamily := trim (group1 m) in
                  Some (mkElement
                          (Some (setFontFamilyImportant inlineStyle currentFontFamily)))
            end
      end
  end.

(** [document.querySelectorAll('*').forEach(preserveCustomFonts)] *)
Definition preserveAll (st : State) : State :=
  set_elements
    (List.map (fun e => default e (preserveCustomFonts (Some e))) (elements st)) st.

(** ** Mutation watcher (lines 213-254) *)

Record MutationRecord : Type := mkMutation { addedNodes : list Node }.

Definition isStylesheet (node : Node) : bool :=
  String.eqb (nodeName node) "LINK"
  && (String.eqb (rel node) "stylesheet" || String.eqb (as_ node) "style").

Definition isStyleNode (node : Node) : bool := String.eqb (nodeName node) "STYLE".

Definition newStylesheetIdentifier (node : Node) : string :=
  if isStylesheet node then node_href node else node_textContent node.

(** The body of the inner [forEach] (lines 222-237). *)
Definition examineNode (acc : bool * gset string) (node : Node) : bool * gset string :=
  let '(stylesheetChanged, known) := acc in
  if String.eqb (node_id node) extentionStyleTagId then acc
  else if negb (isStylesheet node) && negb (isStyleNode node) then acc
  else if bool_decide (newStylesheetIdentifier node ∈ known) then acc
  else (true, {[newStylesheetIdentifier node]} ∪ known).

Definition styleSheetsChanged (mutations : list MutationRecord)
    (known : gset string) : bool * gset string :=
  fold_left (fun acc mutation => fold_left examineNode (addedNodes mutation) acc)
            mutations (false, known).

(** The observer callback (lines 245-254).  When the pass raises, the
    callback ends there: neither line 249 nor line 253 runs. *)
Definition observer (doc : Document) (mutations : list MutationRecord)
    (st : State) : PassResult :=
  let '(changed, known) := styleSheetsChanged mutations (lastStyleSheets st) in
  let st := set_lastStyleSheets known st in
  if changed
  then
    match updateFontFamilyRules doc (log LogRunning st) with
    | Completed st => Completed (preserveAll (incr_runCount st))
    | Aborted st => Aborted st
    end
  else Completed (preserveAll st).

End Engine.

(** ** Two host engines

    [literalEngine] gives back a rule as the builder wrote it.
    [quotingEngine] serialises as CSSOM prescribes for strings: between
    double quotes.  Both rewrite a [style] attribute as a declaration
    block: the declarations in order, each followed by a semicolon. *)

Definition doubleQuote : ascii := ascii_of_nat 34.

Fixpoint requote (s : string) : string :=
  match s with
  | EmptyString => EmptyString
  | String c s' =>
      String (if Ascii.eqb c "'" then doubleQuote else c) (requote s')
  end.

(** The text before the first [sep] and the text after it. *)
Fixpoint splitAt (sep : ascii) (s : string) : string * option string :=
  match s with
  | EmptyString => (EmptyString, None)
  | String c s' =>
      if Ascii.eqb c sep then (EmptyString, Some s')
      else let '(a, b) := splitAt sep s' in (String c a, b)
  end.

(** The pieces of [s] between semicolons; [fuel] bounds their number. *)
Fixpoint declarations (fuel : nat) (s : string) : list string :=
  match fuel with
  | O => []
  | S fuel' =>
      match splitAt ";" s with
      | (d, Some rest) => d :: declarations fuel' rest
      | (d, None) => [d]
      end
  end.

Definition declarationName (d : string) : string :=
  toLowerCase (trim (fst (splitAt ":" d))).

(** The block with the font family set: the declaration is replaced where
    it stands, or added at the end. *)
Fixpoint setDeclaration (value : string) (found : bool) (ds : list string)
    : list string :=
  match ds with
  | [] => if found then [] else ["font-family: " +:+ value +:+ " !important"]
  | d :: rest =>
      if String.eqb (trim d) "" then setDeclaration value found rest
      else if String.eqb (declarationName d) "font-family"
      then (if found then setDeclaration value true rest
            else ("font-family: " +:+ value +:+ " !important")
                   :: setDeclaration value true rest)
      else trim d :: setDeclaration value found rest
  end.

Fixpoint joinDeclarations (ds : list string) : string :=
  match ds with
  | [] => ""
  | [d] => d +:+ ";"
  | d :: rest => d +:+ "; " +:+ joinDeclarations rest
  end.

Definition rewriteStyleAttribute (attr value : string) : string :=
  joinDeclarations
    (setDeclaration value false (declarations (S (String.length attr)) attr)).

Definition literalEngine : HostEngine := {|
  serializeRule sel value := sel +:+ " { font-family: " +:+ value +:+ " !important; }";
  setFontFamilyImportant := rewriteStyleAttribute;
  readFontFamily value := value
|}.

Definition quotingEngine : HostEngine := {|
  serializeRule sel value :=
    sel +:+ " { font-family: " +:+ requote value +:+ " !important; }";
  setFontFamilyImportant := rewriteStyleAttribute;
  readFontFamily := requote
|}.

(** ** The stylesheets known at load (line 213)

    [lastStyleSheets] starts as the set of the identifiers of the sheets
    the document has when the script is loaded. *)

(** [sheet.href || sheet.ownerNode.textContent]: the href when it is
    truthy; otherwise the text of the owner node, and reading it raises a
    TypeError when the sheet has no owner node. *)
Definition styleSheetIdentifier (sheet : StyleSheet) : Res string :=
  let ownerText :=
    match ownerNode sheet with
    | Some owner => Ok (node_textContent owner)
    | None => Throw
    end in
  match href sheet with
  | Some h => if truthy (Some h) then Ok h else ownerText
  | None => ownerText
  end.

(** [Array.from(document.styleSheets).map(...)]: the identifiers in
    document order; the first read that raises ends the evaluation. *)
Fixpoint styleSheetIdentifiers (sheets : list StyleSheet) : Res (list string) :=
  match sheets with
  | [] => Ok []
  | sheet :: rest =>
      match styleSheetIdentifier sheet with
      | Throw => Throw
      | Ok i =>
          match styleSheetIdentifiers rest with
          | Throw => Throw
          | Ok others => Ok (i :: others)
          end
      end
  end.

(** The initial value of [lastStyleSheets].  On [Throw] the script ends at
    line 213: the observer of line 245 is never created. *)
Definition lastStyleSheets_init (doc : Document) : Res (gset string) :=
  match styleSheetIdentifiers (styleSheets doc) with
  | Ok identifiers => Ok (list_to_set identifiers)
  | Throw => Throw
  end.

(** * What the statements are about *)

(** ** Reading a trace *)

(** The batches handed to [updateStyleTag], in order. *)
Definition builderCalls (tr : list Event) : list (list FontFamilyRule) :=
  omap (fun e => match e with BuilderCall b => Some b | _ => None end) tr.

(** The requests put on the network, in order. *)
Definition fetches (tr : list Event) : list string :=
  omap (fun e => match e with NetworkFetch u => Some u | _ => None end) tr.

(** [st] with these events appended. *)
Definition add_events (es : list Event) (st : State) : State :=
  mkState (overrideTag st) (requestedCssFiles st) (lastStyleSheets st)
          (runCount st) (elements st) (trace st ++ es).

(** ** Reading an override stylesheet *)

(** The selector texts of a rule list, in order. *)
Definition selectors (rules : list CSSRule) : list (option string) :=
  List.map css_selectorText rules.

(** The rules kept from a batch (line 158): those without baseline entry. *)
Definition keptRules (oldRules : list CSSRule) (batch : list FontFamilyRule)
    : list FontFamilyRule :=
  List.filter (fun rule => negb (hasOld oldRules rule)) batch.

(** The element an update builds from a baseline alone: the text is the
    rule texts of the baseline, each followed by a line feed. *)
Definition rebuilt (tag : StyleElement) : StyleElement :=
  mkStyle (concatLines (List.map (fun rule => cssText rule +:+ LF) (sheet_cssRules tag)))
          (sheet_cssRules tag).

(** ** One iteration of the scan loop, by cases *)

(** What becomes of a sheet in the loop, given the requested files. *)
Inductive Fate : Type :=
| FateSkip                        (* a [continue] of lines 90, 95 or 105 *)
| FateEscape                      (* lines 89 or 94 raise, outside the [try] *)
| FateRead (rules : list CSSRule) (* line 102 succeeds *)
| FateFetch (h : string) (linked : bool) (* line 107 returns; a request was sent iff [linked] *)
| FateReject (h : string).        (* line 107 raises, caught at line 136 *)

Definition fate (doc : Document) (requested : gset string) (sheet : StyleSheet)
    : Fate :=
  match ownerNode sheet with
  | None => FateEscape
  | Some owner =>
      if String.eqb (node_id owner) extentionStyleTagId then FateSkip
      else
        match media sheet with
        | None => FateEscape
        | Some m =>
            if includesString sheetMediaBlacklist (mediaText m) then FateSkip
            else
              match cssRules sheet with
              | Ok rules => FateRead rules
              | Throw =>
                  match href sheet with
                  | None => FateSkip
                  | Some h =>
                      if negb (truthy (Some h))
                         || negb (String.eqb (rel owner) "stylesheet")
                         || bool_decide (h ∈ requested)
                      then FateSkip
                      else match querySelectorLink doc h with
                           | Throw => FateReject h
                           | Ok linked => FateFetch h linked
                           end
                  end
              end
        end
  end.

(** The rules line 107 returns. *)
Definition fetchedRules (doc : Document) (h : string) (linked : bool)
    : list CSSRule :=
  if linked
  then match fetch doc h with
       | Ok rules => if head_present doc then rules else []
       | Throw => []
       end
  else [].

(** The events of lines 48-76 for a call that returns. *)
Definition fetchEvents (doc : Document) (h : string) (linked : bool) : list Event :=
  if linked
  then [LogFetching h; NetworkFetch h]
         ++ match fetch doc h with
            | Ok _ => if head_present doc then [] else [LogErrFetching]
            | Throw => [LogErrFetching]
            end
  else [LogFetching h; LogErrPreloadLink h].

(** The checks of lines 89 and 94 raise on this sheet. *)
Definition escapes (doc : Document) (sheet : StyleSheet) : bool :=
  match fate doc ∅ sheet with
  | FateEscape => true
  | _ => false
  end.

(** The rules of this sheet are read at line 102. *)
Definition reads (doc : Document) (sheet : StyleSheet) : bool :=
  match fate doc ∅ sheet with
  | FateRead _ => true
  | _ => false
  end.

(** The sheets a pass reaches: those before the first one whose checks
    raise. *)
Fixpoint reached (doc : Document) (sheets : list StyleSheet) : list StyleSheet :=
  match sheets with
  | [] => []
  | sheet :: rest =>
      if escapes doc sheet then [] else sheet :: reached doc rest
  end.

(** One batch for each sheet whose rules were obtained, made of the rules
    pushed for that sheet alone; the pass ends at a sheet whose checks
    raise. *)
Fixpoint passBatches (doc : Document) (requested : gset string)
    (sheets : list StyleSheet) : list (list FontFamilyRule) :=
  match sheets with
  | [] => []
  | sheet :: rest =>
      match fate doc requested sheet with
      | FateEscape => []
      | FateSkip | FateReject _ => passBatches doc requested rest
      | FateRead rules => omap candidate rules :: passBatches doc requested rest
      | FateFetch h linked =>
          omap candidate (fetchedRules doc h linked)
            :: passBatches doc ({[h]} ∪ requested) rest
      end
  end.

(** The sheet of the override element, as line 89 recognises it. *)
Definition ownSheet (sheet : StyleSheet) : bool :=
  match ownerNode sheet with
  | Some owner => String.eqb (node_id owner) extentionStyleTagId
  | None => false
  end.

(** The sheets of the page: all but the override element's. *)
Definition pageSheets (doc : Document) : list StyleSheet :=
  List.filter (fun sheet => negb (ownSheet sheet)) (styleSheets doc).

(** ** The pass without its log lines

    What a pass does to the override element, to the requested files, to
    the list of builder calls and to the list of network requests. *)

Record Core : Type := mkCore {
  c_tag : option StyleElement;
  c_requested : gset string;
  c_calls : list (list FontFamilyRule);
  c_fetches : list string
}.

Definition core (st : State) : Core :=
  mkCore (overrideTag st) (requestedCssFiles st)
         (builderCalls (trace st)) (fetches (trace st)).

(** No file was requested twice, and what was requested is recorded. *)
Definition FetchedOnce (c : Core) : Prop :=
  NoDup (c_fetches c) /\ forall u, u ∈ c_fetches c -> u ∈ c_requested c.

(** From [st] to [st'] the requested files only grow, and every request
    sent in between is for a file that was not requested in [st]. *)
Definition Grows (st st' : State) : Prop :=
  requestedCssFiles st ⊆ requestedCssFiles st'
  /\ exists sent,
       fetches (trace st') = fetches (trace st) ++ sent
       /\ forall u, u ∈ sent -> u ∉ requestedCssFiles st.

Section Abstraction.
Context `{HostEngine}.

(** The element attached after an update. *)
Definition newTag (doc : Document) (batch : list FontFamilyRule)
    (tag : option StyleElement) : option StyleElement :=
  if head_present doc then Some (createNewStyleTag batch tag) else None.

(** Steps 2 and 3 of the loop body on these rules. *)
Definition coreUpdate (doc : Document) (rules : list CSSRule) (c : Core) : Core :=
  mkCore (newTag doc (omap candidate rules) (c_tag c)) (c_requested c)
         (c_calls c ++ [omap candidate rules]) (c_fetches c).

(** One iteration of the loop. *)
Definition coreStep (doc : Document) (sheet : StyleSheet) (c : Core) : Core :=
  match fate doc (c_requested c) sheet with
  | FateSkip | FateEscape | FateReject _ => c
  | FateRead rules => coreUpdate doc rules c
  | FateFetch h linked =>
      coreUpdate doc (fetchedRules doc h linked)
        (mkCore (c_tag c) ({[h]} ∪ c_requested c) (c_calls c)
                (c_fetches c ++ (if linked then [h] else [])))
  end.

(** The loop. *)
Fixpoint corePass (doc : Document) (sheets : list StyleSheet) (c : Core) : Core :=
  match sheets with
  | [] => c
  | sheet :: rest =>
      match fate doc (c_requested c) sheet with
      | FateEscape => c
      | _ => corePass doc rest (coreStep doc sheet c)
      end
  end.

(** Every rule of the batch has an entry in the attached element; without
    head there is no element. *)
Definition Covered (doc : Document) (batch : list FontFamilyRule)
    (tag : option StyleElement) : Prop :=
  if head_present doc
  then exists e, tag = Some e
                 /\ forall rule, rule ∈ batch -> hasOld (sheet_cssRules e) rule = true
  else tag = None.

(** Processing [sheet] again will add nothing: its rules are covered, or
    it is not processed at all. *)
Definition Settled (doc : Document) (c : Core) (sheet : StyleSheet) : Prop :=
  match fate doc (c_requested c) sheet with
  | FateRead rules => Covered doc (omap candidate rules) (c_tag c)
  | FateFetch _ _ => False
  | _ => True
  end.

(** The engine gives a rule back as the builder wrote it. *)
Definition Literal : Prop :=
  forall sel value,
    serializeRule sel value = sel +:+ " { font-family: " +:+ value +:+ " !important; }".

(** The engine reads a declaration the builder wrote back with the
    replacement font still named in it, or not at all (it dropped the
    declaration as invalid). *)
Definition KeepsFontName : Prop :=
  forall rule,
    readFontFamily (declaredValue rule) = ""
    \/ includes (toLowerCase (readFontFamily (declaredValue rule)))
                (toLowerCase replacementFontName) = true.

(** The text of the element is made of the texts of its rules. *)
Definition Canonical (tag : option StyleElement) : Prop := rebuilt <$> tag = tag.

End Abstraction.

(** ** The mutation gate *)

(** A node the gate counts as a new stylesheet, given the known
    identifiers: not the override element, a stylesheet link or a style
    element, and its identifier is not known. *)
Definition newStylesheet (known : gset string) (node : Node) : bool :=
  negb (String.eqb (node_id node) extentionStyleTagId)
  && (isStylesheet node || isStyleNode node)
  && negb (bool_decide (newStylesheetIdentifier node ∈ known)).

(** ** Style attributes and the pattern *)

Fixpoint noSemicolon (s : string) : bool :=
  match s with
  | EmptyString => true
  | String c s' => notSemicolon c && noSemicolon s'
  end.

(** A value as a declaration block serialises it: it starts with a
    character that is no space and holds no semicolon. *)
Definition plainValue (v : string) : bool :=
  match v with
  | EmptyString => false
  | String c _ => negb (isSpace c) && noSemicolon v
  end.

(** No suffix of [pre], followed by [rest], starts with [font-family]. *)
Fixpoint noEarlierOccurrence (pre rest : string) : bool :=
  match pre with
  | EmptyString => true
  | String _ pre' =>
      negb (startsWith "font-family" (pre +:+ rest))
      && noEarlierOccurrence pre' rest
  end.

(** The end of the pattern fails on [s]: after the spaces comes a
    character that is no semicolon. *)
Fixpoint tailFails (s : string) : bool :=
  match s with
  | EmptyString => false
  | String c s' => if isSpace c then tailFails s' else notSemicolon c
  end.

(** The inline style declares a font family without the marker, names of
    properties being read without regard to case as CSS does. *)
Definition declaresFontFamily (attr : string) : bool :=
  existsb
    (fun d => String.eqb (declarationName d) "font-family"
              && negb (includes d "!important"))
    (declarations (S (String.length attr)) attr).

(** ** A pass, seen from outside *)

(** Lines 89 and 94 read [sheet.ownerNode.id] and [sheet.media.mediaText]
    before the [try] of line 97.  The first read raises on a sheet without
    owner node; the second, reached when the owner is not the override
    element, raises on a sheet without media list. *)
Definition checksRaise (sheet : StyleSheet) : bool :=
  match ownerNode sheet with
  | None => true
  | Some owner =>
      negb (String.eqb (node_id owner) extentionStyleTagId)
      && match media sheet with
         | None => true
         | Some _ => false
         end
  end.

(** The rules of the attached override element; none without element. *)
Definition overrideRules (tag : option StyleElement) : list CSSRule :=
  from_option sheet_cssRules [] tag.

(** The entry a lookup by selector text finds: the first one. *)
Definition entryFor (sel : string) (rules : list CSSRule) : option CSSRule :=
  find (fun rule => bool_decide (css_selectorText rule = Some sel)) rules.

(** The first rule collected for a selector. *)
Definition firstFor (sel : string) (batch : list FontFamilyRule)
    : option FontFamilyRule :=
  find (fun rule => String.eqb (selectorText rule) sel) batch.

(** From [st] to [st'] the variables of the watcher and the elements are
    as they were, and the trace was only appended to. *)
Definition Untouched (st st' : State) : Prop :=
  lastStyleSheets st' = lastStyleSheets st
  /\ runCount st' = runCount st
  /\ elements st' = elements st
  /\ trace st `prefix_of` trace st'.

(** From [st] to [st'] the override element, if there was one, is still
    there and its rule list has only been extended at the end. *)
Definition Keeps (st st' : State) : Prop :=
  forall e, overrideTag st = Some e ->
    exists e', overrideTag st' = Some e'
               /\ sheet_cssRules e `prefix_of` sheet_cssRules e'.

(** The document a step of the event loop works on has a head. *)
Definition turnHasHead (a : Turn) : Prop :=
  match a with
  | MutationBatch doc => head_present doc = true
  | Response _ => True
  end.

Definition taskHasHead (t : Task) : Prop :=
  match t with
  | TaskAwait doc _ _ _ _ => head_present doc = true
  | _ => True
  end.

(** ** The added nodes the gate looks at *)

(** Not the override element, and a stylesheet link, a preload-as-style
    link or a style element. *)
Definition relevantNode (node : Node) : bool :=
  negb (String.eqb (node_id node) extentionStyleTagId)
  && (isStylesheet node || isStyleNode node).

(** The identifiers of the relevant nodes of a batch, in order. *)
Definition addedIdentifiers (mutations : list MutationRecord) : list string :=
  List.map newStylesheetIdentifier
           (List.filter relevantNode (flat_map addedNodes mutations)).

(** [node] is the owner of [sheet], and the browser gives the sheet of a
    stylesheet link the href of the link and the sheet of a style element
    no href. *)
Definition ownerOf (sheet : StyleSheet) (node : Node) : Prop :=
  ownerNode sheet = Some node
  /\ (isStylesheet node = true ->
      href sheet = Some (node_href node) /\ node_href node <> "")
  /\ (isStylesheet node = false -> truthy (href sheet) = false).

(** ** Pieces of a style attribute *)

Fixpoint allSpaces (s : string) : bool :=
  match s with
  | EmptyString => true
  | String c s' => isSpace c && allSpaces s'
  end.

(** [s] starts with a text of the shape the pattern of line 198 describes:
    [font-family], spaces, a colon, spaces, a value of one or more characters
    other than a semicolon, perhaps spaces and [!important], spaces, and
    then the end of the text or a semicolon. *)
Definition patternShape (s : string) : Prop :=
  exists ws1 ws2 v mark ws3 rest,
    s = "font-family" +:+ ws1 +:+ ":" +:+ ws2 +:+ v +:+ mark +:+ ws3 +:+ rest
    /\ allSpaces ws1 = true /\ allSpaces ws2 = true /\ allSpaces ws3 = true
    /\ v <> "" /\ noSemicolon v = true
    /\ (rest = "" \/ startsWith ";" rest = true)
    /\ (mark = "" \/ exists sp0, allSpaces sp0 = true /\ mark = sp0 +:+ "!important").

(** A sheet the fallback of lines 103-109 applies to, [u] being its href:
    its rules cannot be read, it is not the sheet of the override element,
    its media is not on the blacklist, it has a non-empty href and its
    owner is a [rel="stylesheet"] link. *)
Definition fallbackSheet (sheet : StyleSheet) (u : string) : Prop :=
  cssRules sheet = Throw /\ href sheet = Some u /\ u <> ""
  /\ exists owner m,
       ownerNode sheet = Some owner /\ node_id owner <> extentionStyleTagId
       /\ rel owner = "stylesheet"
       /\ media sheet = Some m
       /\ includesString sheetMediaBlacklist (mediaText m) = false.

(** A rule the page gives to a pass: a rule of a sheet of the document
    whose rules can be read, or a rule of the text fetched for the href of a
    sheet of the document. *)
Definition sourceRule (doc : Document) (rule : CSSRule) : Prop :=
  exists sheet, sheet ∈ styleSheets doc
    /\ ((exists rules, cssRules sheet = Ok rules /\ rule ∈ rules)
        \/ (exists h rules, href sheet = Some h /\ fetch doc h = Ok rules
                            /\ rule ∈ rules)).

(** The document with these sheets in place of its own. *)
Definition withSheets (doc : Document) (sheets : list StyleSheet) : Document :=
  mkDoc sheets (head_present doc) (querySelectorLink doc) (fetch doc).

(** ** The live list *)

(** The batch an iteration hands to the builder, if it reaches line 134. *)
Definition stepBatch (doc : Document) (requested : gset string) (sheet : StyleSheet)
    : option (list FontFamilyRule) :=
  match fate doc requested sheet with
  | FateRead rules => Some (omap candidate rules)
  | FateFetch h linked => Some (omap candidate (fetchedRules doc h linked))
  | _ => None
  end.

(** The element [getElementById] finds has a sheet, and the list holds the
    sheet of the override element exactly when the element is attached. *)
Definition Coherent (d : Dom) (st : State) : Prop :=
  dom_unstyled d = false
  /\ List.length (List.filter isOwn (dom_sheets d))
     = match overrideTag st with
       | Some _ => 1
       | None => 0
       end.

(** The length the list can reach during a pass. *)
Definition reach (d : Dom) (st : State) : nat :=
  List.length (dom_sheets d)
  + match overrideTag st with
    | Some _ => 0
    | None => 1
    end.

(** Every sheet of the list has an owner node and a media list, as the
    sheets of link and style elements have. *)
Definition Owned (d : Dom) : Prop :=
  forall sheet, sheet ∈ dom_sheets d ->
                is_Some (ownerNode sheet) /\ is_Some (media sheet).

(** The sheets of the page in the list: all but the override element's. *)
Definition pageList (d : Dom) : list StyleSheet :=
  List.filter (fun sheet => negb (isOwn sheet)) (dom_sheets d).

(** The override element is where the script puts it: the last element of
    the head, its sheet after the sheets of the head and before those of
    the body.  Without head there is no override element. *)
Definition Stable (doc : Document) (d : Dom) (st : State) : Prop :=
  dom_unstyled d = false
  /\ if head_present doc
     then exists pre own post,
            dom_sheets d = pre ++ own :: post
            /\ isOwn own = true
            /\ List.filter isOwn pre = [] /\ List.filter isOwn post = []
            /\ dom_head d = S (List.length pre)
            /\ is_Some (overrideTag st)
     else List.filter isOwn (dom_sheets d) = [] /\ overrideTag st = None.

(** There is no override element yet. *)
Definition Fresh (d : Dom) (st : State) : Prop :=
  dom_unstyled d = false
  /\ List.filter isOwn (dom_sheets d) = []
  /\ overrideTag st = None
  /\ dom_head d <= List.length (dom_sheets d).

(** The two places the script itself leaves the override element in. *)
Definition Placed (doc : Document) (d : Dom) (st : State) : Prop :=
  Stable doc d st \/ Fresh d st.

(** Every sheet of the page before [index] is settled. *)
Definition SettledBefore `{HostEngine} (doc : Document) (index : nat) (d : Dom)
    (c : Core) : Prop :=
  forall j sheet, j < index -> dom_sheets d !! j = Some sheet -> Settled doc c sheet.

(** Two lists that differ at most in the sheet of the override element,
    index by index. *)
Definition SameButOwn (sheets sheets' : list StyleSheet) : Prop :=
  Forall2 (fun a b => a = b \/ (isOwn a = true /\ isOwn b = true)) sheets sheets'.

Section LiveAbstraction.
Context `{HostEngine}.

(** What an update does to the list, given the batch. *)
Definition domStep (doc : Document) (sheet : StyleSheet) (st : State) (d : Dom) : Dom :=
  match stepBatch doc (requestedCssFiles st) sheet with
  | Some batch =>
      relist doc (overrideTag st) (createNewStyleTag batch (overrideTag st)) d
  | None => d
  end.

End LiveAbstraction.

(** ** Documents and states of the examples *)

Definition initialState : State := mkState None ∅ ∅ 0 [] [].

(** A state in which an override element is attached. *)
Definition withOverride (tag : StyleElement) : State :=
  mkState (Some tag) ∅ ∅ 0 [] [].

Definition styleNode : Node := mkNode "STYLE" "" "" "" "" "".
Definition linkNode (url : string) : Node := mkNode "LINK" "" "stylesheet" "" url "".

(** An inline sheet with these rules. *)
Definition inlineSheet (rules : list CSSRule) : StyleSheet :=
  mkSheet (Some styleNode) (Some (mkMedia "")) None (Ok rules).

(** A linked sheet whose rules cannot be read. *)
Definition crossOriginSheet (url : string) : StyleSheet :=
  mkSheet (Some (linkNode url)) (Some (mkMedia "")) (Some url) Throw.

(** The rule [sel { font-family: ff; }] of a page sheet. *)
Definition pageRule (sel ff : string) : CSSRule :=
  mkRule (Some ff) (Some sel) (sel +:+ " { font-family: " +:+ ff +:+ "; }").

(** A page with a head, these sheets, and a link element for every href. *)
Definition pageOf (sheets : list StyleSheet) : Document :=
  mkDoc sheets true (fun _ => Ok true) (fun _ => Ok []).

(** The page of the end-to-end example: one readable sheet with the rule
    [.flag-name { font-family: Roboto; }]. *)
Definition flagPage : Document :=
  pageOf [inlineSheet [pageRule ".flag-name" "Roboto"]].

(** The sheet of the override element, its rules being [rules]. *)
Definition overrideSheet (rules : list CSSRule) : StyleSheet :=
  mkSheet (Some (mkNode "STYLE" extentionStyleTagId "" "" "" ""))
          (Some (mkMedia "")) None (Ok rules).

(** The page of the end-to-end example once the override element is in
    its head. *)
Definition flagPageOverridden : Document :=
  pageOf [inlineSheet [pageRule ".flag-name" "Roboto"];
          overrideSheet
            [mkRule (Some "'Twemoji Country Flags', Roboto") (Some ".flag-name") ""]].

(** One sheet that declares the font family of [.a] twice. *)
Definition twiceDeclared : Document :=
  pageOf [inlineSheet [pageRule ".a" "Foo"; pageRule ".a" "Bar"]].

(** Two readable sheets. *)
Definition twoSheets : Document :=
  pageOf [inlineSheet [pageRule ".a" "Foo"]; inlineSheet [pageRule ".b" "Bar"]].

(** A document without head element. *)
Definition headless : Document :=
  mkDoc [inlineSheet [pageRule ".a" "Foo"]] false (fun _ => Ok true) (fun _ => Ok []).

(** A page whose only sheet cannot be read; the link element is there and
    the fetched text holds one rule. *)
Definition crossOriginPage (url : string) : Document :=
  mkDoc [crossOriginSheet url] true (fun _ => Ok true)
        (fun _ => Ok [pageRule "h1" "Arial"]).

(** The same page without link element for the href. *)
Definition unlinkedPage (url : string) : Document :=
  mkDoc [crossOriginSheet url] true (fun _ => Ok false) (fun _ => Ok []).

(** A mutation batch that re-adds the override element, with text not seen
    before. *)
Definition ownElementBatch : list MutationRecord :=
  [mkMutation [mkNode "STYLE" extentionStyleTagId "" "" ""
                      ".a { font-family: 'Twemoji Country Flags', Foo !important; }"]].

(** The list of a document whose sheets all belong to the head, the
    element found under the id (if any) having a sheet. *)
Definition headOnly (sheets : list StyleSheet) : Dom :=
  mkDom sheets (List.length sheets) false.

(** Two readable sheets in the head of a page into which another element
    took the id of the override element. *)
Definition idTaken : Dom :=
  mkDom [inlineSheet [pageRule ".a" "Foo"]; inlineSheet [pageRule ".b" "Bar"]] 2 true.

(** The result of a pass, or the state as it was if the pass did not
    return. *)
Definition passState (result : option (PassResult * Dom)) (st : State) : State :=
  match result with
  | Some (r, _) => finalState r
  | None => st
  end.

(** The list a pass leaves, or the list as it was if the pass did not
    return. *)
Definition passDom (result : option (PassResult * Dom)) (d : Dom) : Dom :=
  match result with
  | Some (_, d') => d'
  | None => d
  end.

(** An override element with one entry. *)
Definition earlierOverride : StyleElement := mkStyle "" [pageRule ".z" "Z"].

(** A head in which two style elements were added after the override
    element: a print sheet, the sheet of the override element, and the two
    new sheets. *)
Definition addedAfterOverride : Dom :=
  mkDom [mkSheet (Some styleNode) (Some (mkMedia "print")) None (Ok [pageRule ".p" "P"]);
         sheetOf earlierOverride;
         inlineSheet [pageRule ".a" "Foo"];
         inlineSheet [pageRule ".b" "Bar"]] 4 false.

(** The list of the end-to-end example once the override element is the last
    element of the head. *)
Definition flagPagePlaced : Dom :=
  mkDom [inlineSheet [pageRule ".flag-name" "Roboto"];
         sheetOf (mkStyle "" [mkRule (Some "'Twemoji Country Flags', Roboto")
                                     (Some ".flag-name") ""])] 2 false.

(** * Properties *)

(** ** Records and traces *)

Lemma state_eta (st : State) :
  mkState (overrideTag st) (requestedCssFiles st) (lastStyleSheets st)
          (runCount st) (elements st) (trace st) = st.
Proof. by destruct st. Qed.

Lemma builderCalls_app (a b : list Event) :
  builderCalls (a ++ b) = builderCalls a ++ builderCalls b.
Proof. apply omap_app. Qed.

Lemma fetches_app (a b : list Event) : fetches (a ++ b) = fetches a ++ fetches b.
Proof. apply omap_app. Qed.

Section BuilderFacts.
Context `{HostEngine}.

Lemma hasOld_true (oldRules : list CSSRule) (rule : FontFamilyRule) :
  hasOld oldRules rule = true <->
  exists old, old ∈ oldRules /\ css_selectorText old = Some (selectorText rule).
Proof.
  unfold hasOld. rewrite existsb_exists. split.
  - intros (old & Hin & Hs). exists old. split; [by apply list_elem_of_In|].
    unfold sameSelector in Hs. destruct (css_selectorText old) as [s|]; [|done].
    apply String.eqb_eq in Hs. by subst.
  - intros (old & Hin & Hs). exists old. split; [by apply list_elem_of_In|].
    unfold sameSelector. rewrite Hs. apply String.eqb_refl.
Qed.

Lemma hasOld_false (oldRules : list CSSRule) (rule : FontFamilyRule) :
  hasOld oldRules rule = false <->
  forall old, old ∈ oldRules -> css_selectorText old <> Some (selectorText rule).
Proof.
  split.
  - intros Hf old Hin Hs.
    assert (hasOld oldRules rule = true) by (apply hasOld_true; eauto).
    congruence.
  - intros Hall. destruct (hasOld oldRules rule) eqn:E; [|done].
    apply hasOld_true in E as (old & Hin & Hs). by destruct (Hall old Hin).
Qed.

Lemma hasOld_app (a b : list CSSRule) (rule : FontFamilyRule) :
  hasOld (a ++ b) rule = hasOld a rule || hasOld b rule.
Proof. unfold hasOld. apply existsb_app. Qed.

Lemma hasOld_parsed (rule : FontFamilyRule) (rules : list FontFamilyRule) :
  rule ∈ rules -> hasOld (List.map parsedRule rules) rule = true.
Proof.
  intros Hin. apply hasOld_true. exists (parsedRule rule). split; [|done].
  apply list_elem_of_In, in_map, list_elem_of_In, Hin.
Qed.

Lemma elem_of_keptRules (oldRules : list CSSRule) (batch : list FontFamilyRule)
    (rule : FontFamilyRule) :
  rule ∈ keptRules oldRules batch <->
  rule ∈ batch /\
  forall old, old ∈ oldRules -> css_selectorText old <> Some (selectorText rule).
Proof.
  unfold keptRules. rewrite list_elem_of_In, filter_In, <- list_elem_of_In.
  rewrite negb_true_iff, hasOld_false. done.
Qed.

Lemma keptRules_sublist (oldRules : list CSSRule) (batch : list FontFamilyRule) :
  sublist (keptRules oldRules batch) batch.
Proof.
  unfold keptRules. induction batch as [|r batch IH]; simpl; [constructor|].
  destruct (negb (hasOld oldRules r)); by constructor.
Qed.

Lemma keptRules_covered (oldRules : list CSSRule) (batch : list FontFamilyRule) :
  (forall rule, rule ∈ batch -> hasOld oldRules rule = true) ->
  keptRules oldRules batch = [].
Proof.
  intros Hall. unfold keptRules. induction batch as [|r batch IH]; [done|].
  simpl. rewrite Hall by left. simpl. apply IH. intros; apply Hall. by right.
Qed.

Lemma createNewStyleTag_rules (batch : list FontFamilyRule)
    (existingSheet : option StyleElement) :
  sheet_cssRules (createNewStyleTag batch existingSheet) =
  from_option sheet_cssRules [] existingSheet
    ++ List.map parsedRule (keptRules (from_option sheet_cssRules [] existingSheet) batch).
Proof. by destruct existingSheet. Qed.

Lemma find_app_l {A} (f : A -> bool) (a b : list A) (x : A) :
  x ∈ a -> f x = true -> find f (a ++ b) = find f a.
Proof.
  induction a as [|y a IH]; intros Hin Hf; [by apply elem_of_nil in Hin|].
  simpl. destruct (f y) eqn:E; [done|].
  apply elem_of_cons in Hin as [->|Hin]; [congruence|]. by apply IH.
Qed.

End BuilderFacts.

(** ** The builder: baseline and new rules *)

Section Builder.
Context `{HostEngine}.

(** C3. An update over an existing override stylesheet keeps every
    baseline entry as it is and where it is: the new rule list starts with
    the baseline rules and the new text starts with their texts.  The rules
    added are those rules of the batch, in batch order, whose selector text
    no baseline entry has; a rule of the batch whose selector has a
    baseline entry is dropped.  So the entry found under a selector of the
    baseline is, after the update, still the baseline's entry.  With a
    head to append it to, the element so built is the one the document
    holds after the update. *)
Theorem createNewStyleTag_first_seen_wins (fontFamilyRules : list FontFamilyRule)
    (existingSheet : StyleElement) :
  exists kept : list FontFamilyRule,
    sheet_cssRules (createNewStyleTag fontFamilyRules (Some existingSheet)) =
      sheet_cssRules existingSheet ++ List.map parsedRule kept
    /\ textContent (createNewStyleTag fontFamilyRules (Some existingSheet)) =
         concatLines (List.map (fun old => cssText old +:+ LF)
                               (sheet_cssRules existingSheet))
           +:+ concatLines (List.map ruleLine kept)
    /\ sublist kept fontFamilyRules
    /\ (forall rule, rule ∈ kept <->
          rule ∈ fontFamilyRules /\
          forall old, old ∈ sheet_cssRules existingSheet ->
                      css_selectorText old <> Some (selectorText rule))
    /\ (forall rule old,
          rule ∈ fontFamilyRules -> old ∈ sheet_cssRules existingSheet ->
          css_selectorText old = Some (selectorText rule) -> rule ∉ kept)
    /\ (forall old,
          old ∈ sheet_cssRules existingSheet ->
          find (fun r => bool_decide (css_selectorText r = css_selectorText old))
               (sheet_cssRules (createNewStyleTag fontFamilyRules (Some existingSheet)))
          = find (fun r => bool_decide (css_selectorText r = css_selectorText old))
                 (sheet_cssRules existingSheet))
    /\ (forall doc st,
          head_present doc = true -> overrideTag st = Some existingSheet ->
          overrideTag (updateStyleTag doc fontFamilyRules st)
          = Some (createNewStyleTag fontFamilyRules (Some existingSheet))).
Proof.
  exists (keptRules (sheet_cssRules existingSheet) fontFamilyRules).
  split; [done|]. split; [done|]. split; [apply keptRules_sublist|].
  split; [intros rule; apply elem_of_keptRules|]. split; [|split].
  - intros rule old Hin Hold Hsel Hkept.
    apply elem_of_keptRules in Hkept as [_ Hno]. by apply (Hno old).
  - intros old Hold. simpl.
    apply find_app_l with (x := old); [done|]. by apply bool_decide_eq_true.
  - intros doc st Hhead Hst. unfold updateStyleTag. rewrite Hhead. simpl.
    by rewrite Hst.
Qed.

(** X2.  Without duplicates in the baseline and in the batch, the update
    produces none. *)
Lemma createNewStyleTag_NoDup (batch : list FontFamilyRule)
    (existingSheet : option StyleElement) :
  NoDup (selectors (from_option sheet_cssRules [] existingSheet)) ->
  NoDup (List.map selectorText batch) ->
  NoDup (selectors (sheet_cssRules (createNewStyleTag batch existingSheet))).
Proof.
  intros Hold Hbatch. rewrite createNewStyleTag_rules.
  set (oldRules := from_option sheet_cssRules [] existingSheet) in *.
  unfold selectors. rewrite map_app. apply NoDup_app. split; [done|]. split.
  - intros s Hs Hs'.
    apply list_elem_of_In, in_map_iff in Hs as (old & <- & Hin).
    apply list_elem_of_In, in_map_iff in Hs' as (r & Hr & Hin').
    apply in_map_iff in Hin' as (rule & <- & Hk).
    apply list_elem_of_In, elem_of_keptRules in Hk as [_ Hno].
    apply (Hno old); [by apply list_elem_of_In|]. by rewrite <- Hr.
  - rewrite map_map. simpl.
    assert (Hsub : sublist (keptRules oldRules batch) batch) by apply keptRules_sublist.
    clear Hold. induction Hsub as [|x l1 l2 Hsub IH|x l1 l2 Hsub IH]; simpl in *.
    + constructor.
    + apply NoDup_cons in Hbatch as [Hx Hnd]. apply NoDup_cons. split; [|by apply IH].
      intros Hin. apply Hx.
      apply list_elem_of_In, in_map_iff in Hin as (r & [= Hr] & Hin).
      rewrite <- Hr. apply list_elem_of_In, in_map, list_elem_of_In.
      eapply elem_of_sublist; [|exact Hsub]. by apply list_elem_of_In.
    + apply NoDup_cons in Hbatch as [_ Hnd]. by apply IH.
Qed.

End Builder.

(** ** The builder: what an update leaves in the document *)

Section BuilderUpdate.
Context `{HostEngine}.

(** C1, evaluated where it fails.  A sheet that declares the font family of
    one selector twice gives a batch with that selector twice; the filter
    of line 158 compares with the baseline only, and both rules are
    written: the override stylesheet has two entries for [.a]. *)
Theorem updateFontFamilyRules_duplicate_selector :
  exists tag : StyleElement,
    overrideTag (finalState (updateFontFamilyRules twiceDeclared initialState))
      = Some tag
    /\ builderCalls
         (trace (finalState (updateFontFamilyRules twiceDeclared initialState)))
       = [[mkFFR ".a" "Foo"; mkFFR ".a" "Bar"]]
    /\ selectors (sheet_cssRules tag) = [Some ".a"; Some ".a"]
    /\ ~ NoDup (selectors (sheet_cssRules tag)).
Proof.
  eexists. split; [reflexivity|]. split; [reflexivity|]. split; [reflexivity|].
  simpl. intros Hnd. apply NoDup_cons in Hnd as [Hnotin _].
  apply Hnotin. left.
Qed.

(** C5, as amended.  When the document has no head, the update raises
    nothing and appends nothing; the element that was attached has been
    removed by then, so the document is left without override stylesheet.
    The module-level variables and the elements are as before, and the
    trace has gained the call and its log line. *)
Theorem updateStyleTag_without_head (doc : Document)
    (fontFamilyRules : list FontFamilyRule) (st : State) :
  head_present doc = false ->
  overrideTag (updateStyleTag doc fontFamilyRules st) = None
  /\ requestedCssFiles (updateStyleTag doc fontFamilyRules st) = requestedCssFiles st
  /\ lastStyleSheets (updateStyleTag doc fontFamilyRules st) = lastStyleSheets st
  /\ runCount (updateStyleTag doc fontFamilyRules st) = runCount st
  /\ elements (updateStyleTag doc fontFamilyRules st) = elements st
  /\ trace (updateStyleTag doc fontFamilyRules st) =
       trace st ++
       [BuilderCall fontFamilyRules;
        LogUpdating (String.length
                       (textContent (createNewStyleTag fontFamilyRules (overrideTag st))))].
Proof.
  intros Hhead. unfold updateStyleTag. rewrite Hhead. simpl.
  repeat split. by rewrite <- app_assoc.
Qed.

Lemma updateStyleTag_with_head (doc : Document)
    (fontFamilyRules : list FontFamilyRule) (st : State) :
  head_present doc = true ->
  overrideTag (updateStyleTag doc fontFamilyRules st)
  = Some (createNewStyleTag fontFamilyRules (overrideTag st)).
Proof. intros Hhead. unfold updateStyleTag. by rewrite Hhead. Qed.

End BuilderUpdate.

(** C5, as the claim states it, fails: the element that was attached
    before the update is not attached after it. *)
Lemma updateStyleTag_without_head_detaches :
  ~ (forall (engine : HostEngine) (doc : Document)
            (fontFamilyRules : list FontFamilyRule) (st : State),
        head_present doc = false ->
        overrideTag (updateStyleTag doc fontFamilyRules st) = overrideTag st).
Proof.
  intros Hclaim.
  specialize (Hclaim literalEngine headless [mkFFR ".a" "Foo"]
                (withOverride (mkStyle "" [])) eq_refl).
  discriminate Hclaim.
Qed.

Lemma updateStyleTag_without_head_witness :
  overrideTag (@updateStyleTag literalEngine headless [mkFFR ".a" "Foo"]
                 (withOverride (mkStyle "" []))) = None.
Proof.
  apply (@updateStyleTag_without_head literalEngine headless [mkFFR ".a" "Foo"]
           (withOverride (mkStyle "" [])) eq_refl).
Defined.

(** ** One iteration of the scan loop, by cases *)

(** The checks of lines 89-95, case by case; the side cases close by
    computation or by a contradiction among the hypotheses. *)
Ltac sheet_checks sheet :=
  let owner := fresh "owner" in
  let m := fresh "m" in
  destruct (ownerNode sheet) as [owner|]; [|first [reflexivity|done]];
  destruct (String.eqb (node_id owner) extentionStyleTagId);
    [first [reflexivity|done]|];
  destruct (media sheet) as [m|]; [|first [reflexivity|done]];
  destruct (includesString sheetMediaBlacklist (mediaText m));
    [first [reflexivity|done]|].

Section Iteration.
Context `{HostEngine}.

Lemma processSheet_fate (doc : Document) (sheetCount total : nat)
    (sheet : StyleSheet) (st : State) :
  processSheet doc sheetCount total sheet st =
  match fate doc (requestedCssFiles st) sheet with
  | FateSkip => Completed (add_events [LogProcessingSheet sheetCount total] st)
  | FateEscape => Aborted (add_events [LogProcessingSheet sheetCount total] st)
  | FateRead rules =>
      Completed (scanAndUpdate doc rules
                   (add_events [LogProcessingSheet sheetCount total] st))
  | FateFetch h linked =>
      Completed
        (scanAndUpdate doc (fetchedRules doc h linked)
           (add_events
              [LogFetched (List.length (fetchedRules doc h linked)) sheetCount total]
              (add_requested h
                 (add_events (LogProcessingSheet sheetCount total
                                :: fetchEvents doc h linked) st))))
  | FateReject h =>
      Completed (add_events [LogProcessingSheet sheetCount total; LogFetching h;
                             LogErrRetrieving sheetCount total] st)
  end.
Proof.
  unfold processSheet, beginSheet, fate. cbv zeta.
  sheet_checks sheet.
  destruct (cssRules sheet) as [rules|]; [reflexivity|].
  destruct (href sheet) as [h|]; [|reflexivity].
  change (requestedCssFiles (log (LogProcessingSheet sheetCount total) st))
    with (requestedCssFiles st).
  destruct (negb (truthy (Some h)) || negb (String.eqb (rel owner) "stylesheet")
            || bool_decide (h ∈ requestedCssFiles st)); [reflexivity|].
  unfold fetchCSSRulesFromUrl_begin, resumeSheet, fetchCSSRulesFromUrl_end,
    fetchedRules, fetchEvents, add_events, add_requested, log, emit. simpl.
  destruct (querySelectorLink doc h) as [[|]|]; simpl.
  - destruct (fetch doc h) as [rules|]; simpl;
      [destruct (head_present doc); simpl|];
      unfold log; simpl; rewrite <- ?app_assoc; reflexivity.
  - unfold log; simpl; rewrite <- ?app_assoc; reflexivity.
  - unfold log; simpl; rewrite <- ?app_assoc; reflexivity.
Qed.

(** [collect] pushes the candidates in order and only logs. *)
Lemma collect_spec (rules : list CSSRule) (acc : list FontFamilyRule) (st : State) :
  exists logs,
    collect rules acc st = (acc ++ omap candidate rules, add_events logs st)
    /\ builderCalls logs = [] /\ fetches logs = [].
Proof.
  revert acc st. induction rules as [|rule rest IH]; intros acc st; simpl.
  - exists []. unfold add_events. rewrite !app_nil_r, state_eta. done.
  - destruct (candidate rule) as [r|].
    + destruct (IH (acc ++ [r]) (log (LogAddedRule (selectorText r) (List.length acc)) st))
        as (logs & -> & Hb & Hf).
      exists (LogAddedRule (selectorText r) (List.length acc) :: logs).
      split; [|done].
      unfold add_events, log. simpl. by rewrite <- !app_assoc.
    + apply IH.
Qed.

Lemma scanAndUpdate_spec (doc : Document) (rules : list CSSRule) (st : State) :
  exists logs,
    scanAndUpdate doc rules st =
      updateStyleTag doc (omap candidate rules) (add_events logs st)
    /\ builderCalls logs = [] /\ fetches logs = [].
Proof.
  unfold scanAndUpdate.
  destruct (collect_spec rules [] st) as (logs & -> & Hb & Hf).
  exists logs. done.
Qed.

End Iteration.

(** ** The pass and its core *)

Section CorePass.
Context `{HostEngine}.

Lemma core_add_events (es : list Event) (st : State) :
  builderCalls es = [] -> fetches es = [] -> core (add_events es st) = core st.
Proof.
  intros Hb Hf. unfold core, add_events. simpl.
  by rewrite builderCalls_app, fetches_app, Hb, Hf, !app_nil_r.
Qed.

Lemma core_updateStyleTag (doc : Document) (batch : list FontFamilyRule) (st : State) :
  core (updateStyleTag doc batch st) =
  mkCore (newTag doc batch (overrideTag st)) (requestedCssFiles st)
         (builderCalls (trace st) ++ [batch]) (fetches (trace st)).
Proof.
  unfold core, updateStyleTag, newTag. destruct (head_present doc); simpl;
    rewrite !builderCalls_app, !fetches_app; simpl; by rewrite !app_nil_r.
Qed.

Lemma core_scanAndUpdate (doc : Document) (rules : list CSSRule) (st : State) :
  core (scanAndUpdate doc rules st) = coreUpdate doc rules (core st).
Proof.
  destruct (scanAndUpdate_spec doc rules st) as (logs & -> & Hb & Hf).
  rewrite core_updateStyleTag. unfold coreUpdate, core, add_events. simpl.
  by rewrite builderCalls_app, fetches_app, Hb, Hf, !app_nil_r.
Qed.

Lemma fetches_fetchEvents (doc : Document) (h : string) (linked : bool) :
  fetches (fetchEvents doc h linked) = if linked then [h] else [].
Proof.
  unfold fetchEvents. destruct linked; [|done]. simpl.
  destruct (fetch doc h); [destruct (head_present doc)|]; done.
Qed.

Lemma builderCalls_fetchEvents (doc : Document) (h : string) (linked : bool) :
  builderCalls (fetchEvents doc h linked) = [].
Proof.
  unfold fetchEvents. destruct linked; [|done]. simpl.
  destruct (fetch doc h); [destruct (head_present doc)|]; done.
Qed.

Lemma core_processSheet (doc : Document) (sheetCount total : nat)
    (sheet : StyleSheet) (st : State) :
  core (finalState (processSheet doc sheetCount total sheet st))
  = coreStep doc sheet (core st).
Proof.
  rewrite processSheet_fate. unfold coreStep. simpl.
  destruct (fate doc (requestedCssFiles st) sheet) as [| |rules|h linked|h]; simpl.
  - by apply core_add_events.
  - by apply core_add_events.
  - rewrite core_scanAndUpdate. by rewrite core_add_events.
  - rewrite core_scanAndUpdate. rewrite core_add_events by done.
    f_equal. unfold core, add_requested, add_events. simpl.
    rewrite builderCalls_app, fetches_app. simpl.
    by rewrite builderCalls_fetchEvents, fetches_fetchEvents, app_nil_r.
  - by apply core_add_events.
Qed.

Lemma processSheet_aborts (doc : Document) (sheetCount total : nat)
    (sheet : StyleSheet) (st : State) :
  (exists st', processSheet doc sheetCount total sheet st = Aborted st')
  <-> fate doc (requestedCssFiles st) sheet = FateEscape.
Proof.
  rewrite processSheet_fate.
  destruct (fate doc (requestedCssFiles st) sheet); split;
    try done; try (intros [? ?]; done). eauto.
Qed.

Lemma core_sheetsLoop (doc : Document) (total sheetCount : nat)
    (sheets : list StyleSheet) (st : State) :
  core (finalState (sheetsLoop doc total sheetCount sheets st))
  = corePass doc sheets (core st).
Proof.
  revert sheetCount st. induction sheets as [|sheet rest IH]; intros n st; simpl.
  - by apply core_add_events.
  - pose proof (core_processSheet doc (S n) total sheet st) as Hstep.
    pose proof (processSheet_aborts doc (S n) total sheet st) as Hab.
    destruct (processSheet doc (S n) total sheet st) as [st'|st']; simpl in *.
    + rewrite IH, Hstep.
      destruct (fate doc (requestedCssFiles st) sheet); try done.
      destruct Hab as [_ Hab]. by destruct (Hab eq_refl).
    + destruct Hab as [Hab _]. rewrite Hab by eauto.
      rewrite Hstep. unfold coreStep. simpl. by rewrite Hab by eauto.
Qed.

Lemma core_updateFontFamilyRules (doc : Document) (st : State) :
  core (finalState (updateFontFamilyRules doc st))
  = corePass doc (styleSheets doc) (core st).
Proof. apply core_sheetsLoop. Qed.

End CorePass.

(** ** The batches of a pass *)

Section Batches.
Context `{HostEngine}.

Lemma corePass_calls (doc : Document) (sheets : list StyleSheet) (c : Core) :
  c_calls (corePass doc sheets c)
  = c_calls c ++ passBatches doc (c_requested c) sheets.
Proof.
  revert c. induction sheets as [|sheet rest IH]; intros c; simpl.
  - by rewrite app_nil_r.
  - unfold coreStep.
    destruct (fate doc (c_requested c) sheet) as [| |rules|h linked|h]; simpl;
      rewrite ?app_nil_r, ?IH; simpl; rewrite <- ?app_assoc; done.
Qed.


End Batches.

(** ** Requested files and network requests *)

Lemma Grows_refl (st : State) : Grows st st.
Proof.
  split; [done|]. exists []. split; [by rewrite app_nil_r|].
  intros u Hu. by apply elem_of_nil in Hu.
Qed.

Lemma Grows_trans (st1 st2 st3 : State) :
  Grows st1 st2 -> Grows st2 st3 -> Grows st1 st3.
Proof.
  intros [Hsub1 (l1 & Hf1 & Hl1)] [Hsub2 (l2 & Hf2 & Hl2)].
  split; [set_solver|]. exists (l1 ++ l2). split.
  - by rewrite Hf2, Hf1, app_assoc.
  - intros u Hu. apply elem_of_app in Hu as [Hu|Hu]; [by apply Hl1|].
    specialize (Hl2 u Hu). set_solver.
Qed.

Lemma Grows_quiet (st st' : State) :
  requestedCssFiles st' = requestedCssFiles st ->
  fetches (trace st') = fetches (trace st) ->
  Grows st st'.
Proof.
  intros Hr Hf. split; [by rewrite Hr|]. exists []. split; [by rewrite app_nil_r|].
  intros u Hu. by apply elem_of_nil in Hu.
Qed.

Section Requests.
Context `{HostEngine}.

Lemma beginSheet_fate (doc : Document) (sheetCount total : nat)
    (sheet : StyleSheet) (st : State) :
  beginSheet doc sheetCount total sheet st =
  match fate doc (requestedCssFiles st) sheet with
  | FateSkip => StepNext (add_events [LogProcessingSheet sheetCount total] st)
  | FateEscape => StepAbort (add_events [LogProcessingSheet sheetCount total] st)
  | FateRead rules =>
      StepNext (scanAndUpdate doc rules
                  (add_events [LogProcessingSheet sheetCount total] st))
  | FateFetch h linked =>
      StepAwait h (if linked then PendingResponse h else PendingEmpty)
        (add_events
           [LogProcessingSheet sheetCount total; LogFetching h;
            if linked then NetworkFetch h else LogErrPreloadLink h] st)
  | FateReject h =>
      StepAwait h PendingRejected
        (add_events [LogProcessingSheet sheetCount total; LogFetching h] st)
  end.
Proof.
  unfold beginSheet, fate. cbv zeta.
  sheet_checks sheet.
  destruct (cssRules sheet) as [rules|]; [reflexivity|].
  destruct (href sheet) as [h|]; [|reflexivity].
  change (requestedCssFiles (log (LogProcessingSheet sheetCount total) st))
    with (requestedCssFiles st).
  destruct (negb (truthy (Some h)) || negb (String.eqb (rel owner) "stylesheet")
            || bool_decide (h ∈ requestedCssFiles st)); [reflexivity|].
  unfold fetchCSSRulesFromUrl_begin, add_events, log, emit. simpl.
  destruct (querySelectorLink doc h) as [[|]|]; simpl;
    rewrite <- ?app_assoc; reflexivity.
Qed.

Lemma fate_fetch_fresh (doc : Document) (requested : gset string)
    (sheet : StyleSheet) (h : string) (linked : bool) :
  fate doc requested sheet = FateFetch h linked ->
  (h ∉ requested) /\ href sheet = Some h /\ cssRules sheet = Throw
  /\ querySelectorLink doc h = Ok linked.
Proof.
  unfold fate. intros Hfate.
  sheet_checks sheet.
  destruct (cssRules sheet) as [rules|]; [done|].
  destruct (href sheet) as [h0|]; [|done].
  destruct (negb (truthy (Some h0)) || negb (String.eqb (rel owner) "stylesheet"))
    eqn:E1; [done|]. simpl in Hfate.
  destruct (bool_decide (h0 ∈ requested)) eqn:E2; [done|].
  apply bool_decide_eq_false in E2.
  destruct (querySelectorLink doc h0) as [l|] eqn:E3; [|done].
  injection Hfate as -> ->. done.
Qed.

Lemma Grows_scanAndUpdate (doc : Document) (rules : list CSSRule) (st : State) :
  Grows st (scanAndUpdate doc rules st).
Proof.
  pose proof (core_scanAndUpdate doc rules st) as Hcore.
  apply Grows_quiet.
  - by apply (f_equal c_requested) in Hcore.
  - by apply (f_equal c_fetches) in Hcore.
Qed.

Lemma Grows_log (e : Event) (st : State) :
  fetches [e] = [] -> Grows st (log e st).
Proof.
  intros He. apply Grows_quiet; [done|].
  unfold log. simpl. by rewrite fetches_app, He, app_nil_r.
Qed.

Lemma Grows_add_events (es : list Event) (st : State) :
  (forall u, u ∈ fetches es -> u ∉ requestedCssFiles st) ->
  Grows st (add_events es st).
Proof.
  intros Hes. split; [done|]. exists (fetches es). split; [|done].
  unfold add_events. simpl. apply fetches_app.
Qed.

Lemma Grows_beginSheet (doc : Document) (sheetCount total : nat)
    (sheet : StyleSheet) (st : State) :
  match beginSheet doc sheetCount total sheet st with
  | StepNext st' | StepAbort st' | StepAwait _ _ st' => Grows st st'
  end.
Proof.
  rewrite beginSheet_fate.
  destruct (fate doc (requestedCssFiles st) sheet) as [| |rules|h linked|h] eqn:Hfate.
  - apply Grows_add_events. intros u Hu. by apply elem_of_nil in Hu.
  - apply Grows_add_events. intros u Hu. by apply elem_of_nil in Hu.
  - eapply Grows_trans; [|apply Grows_scanAndUpdate].
    apply Grows_add_events. intros u Hu. by apply elem_of_nil in Hu.
  - apply fate_fetch_fresh in Hfate as (Hfresh & _).
    apply Grows_add_events. intros u Hu. destruct linked; simpl in Hu.
    + apply list_elem_of_singleton in Hu. by subst.
    + by apply elem_of_nil in Hu.
  - apply Grows_add_events. intros u Hu. by apply elem_of_nil in Hu.
Qed.

Lemma Grows_resumeSheet (doc : Document) (sheetCount total : nat)
    (h : string) (p : Pending) (st : State) :
  Grows st (resumeSheet doc sheetCount total h p st).
Proof.
  unfold resumeSheet.
  destruct (fetchCSSRulesFromUrl_end doc p st) as [[rules|] st1] eqn:Hend.
  - assert (Hq : Grows st st1).
    { unfold fetchCSSRulesFromUrl_end in Hend.
      destruct p; [done| |].
      - injection Hend as <- <-. apply Grows_refl.
      - destruct (fetch doc url); [destruct (head_present doc)|];
          injection Hend as <- <-; try apply Grows_refl;
          by apply Grows_log. }
    eapply Grows_trans; [exact Hq|].
    eapply Grows_trans; [|apply Grows_scanAndUpdate].
    eapply Grows_trans; [|by apply Grows_log].
    split; [simpl; set_solver|]. exists []. split; [by rewrite app_nil_r|].
    intros u Hu. by apply elem_of_nil in Hu.
  - assert (st1 = st) as ->.
    { unfold fetchCSSRulesFromUrl_end in Hend.
      destruct p; [by injection Hend|done|].
      destruct (fetch doc url); [destruct (head_present doc)|]; done. }
    by apply Grows_log.
Qed.

Lemma Grows_runLoop (doc : Document) (total sheetCount : nat)
    (sheets : list StyleSheet) (st : State) :
  Grows st (snd (runLoop doc total sheetCount sheets st)).
Proof.
  revert sheetCount st. induction sheets as [|sheet rest IH]; intros n st; simpl.
  - by apply Grows_log.
  - pose proof (Grows_beginSheet doc (S n) total sheet st) as Hb.
    destruct (beginSheet doc (S n) total sheet st) as [st'|st'|h p st']; simpl.
    + eapply Grows_trans; [exact Hb|apply IH].
    + exact Hb.
    + exact Hb.
Qed.

Lemma Grows_resumePass (t : Task) (st : State) : Grows st (snd (resumePass t st)).
Proof.
  destruct t as [doc n h p rest| |]; simpl; try apply Grows_refl.
  eapply Grows_trans; [apply Grows_resumeSheet|apply Grows_runLoop].
Qed.

Lemma Grows_turn (a : Turn) (tasks : list Task) (st : State) :
  Grows st (snd (turn a (tasks, st))).
Proof.
  destruct a as [doc|i]; simpl.
  - pose proof (Grows_runLoop doc (List.length (styleSheets doc)) 0 (styleSheets doc) st) as Hg.
    unfold startPass. destruct (runLoop _ _ _ _ _). exact Hg.
  - destruct (tasks !! i) as [t|]; [|apply Grows_refl].
    pose proof (Grows_resumePass t st) as Hg.
    destruct (resumePass t st). exact Hg.
Qed.

Lemma runTurns_cons (a : Turn) (turns : list Turn) (sys : list Task * State) :
  runTurns (a :: turns) sys = runTurns turns (turn a sys).
Proof. reflexivity. Qed.

Lemma Grows_runTurns (turns : list Turn) (tasks : list Task) (st : State) :
  Grows st (snd (runTurns turns (tasks, st))).
Proof.
  revert tasks st. induction turns as [|a turns IH]; intros tasks st.
  - apply Grows_refl.
  - rewrite runTurns_cons.
    pose proof (Grows_turn a tasks st) as Hg.
    destruct (turn a (tasks, st)) as [tasks' st'].
    eapply Grows_trans; [exact Hg|apply IH].
Qed.

(** A suspended pass and the loop that is never suspended agree. *)
Lemma runLoop_sheetsLoop (doc : Document) (total sheetCount : nat)
    (sheets : list StyleSheet) (st : State) :
  match runLoop doc total sheetCount sheets st with
  | (TaskDone, st') => sheetsLoop doc total sheetCount sheets st = Completed st'
  | (TaskFailed, st') => sheetsLoop doc total sheetCount sheets st = Aborted st'
  | (TaskAwait _ n h p rest, st') =>
      sheetsLoop doc total sheetCount sheets st
      = sheetsLoop doc total n rest (resumeSheet doc n total h p st')
  end.
Proof.
  revert sheetCount st. induction sheets as [|sheet rest IH]; intros n st; simpl.
  - done.
  - unfold processSheet.
    destruct (beginSheet doc (S n) total sheet st) as [st'|st'|h p st']; simpl.
    + apply IH.
    + done.
    + done.
Qed.

(** A pass whose responses arrive before anything else happens is the
    loop that is never suspended. *)
Lemma drain_sheetsLoop (doc : Document) (sheets : list StyleSheet)
    (sheetCount fuel : nat) (st : State) :
  List.length sheets <= fuel ->
  snd (drain fuel (fst (runLoop doc (List.length (styleSheets doc)) sheetCount sheets st))
             (snd (runLoop doc (List.length (styleSheets doc)) sheetCount sheets st)))
  = finalState (sheetsLoop doc (List.length (styleSheets doc)) sheetCount sheets st).
Proof.
  revert sheetCount fuel st.
  induction sheets as [|sheet rest IH]; intros n fuel st Hfuel.
  - simpl. by destruct fuel.
  - simpl in Hfuel. cbn [runLoop sheetsLoop]. unfold processSheet.
    destruct (beginSheet doc (S n) (List.length (styleSheets doc)) sheet st)
      as [st'|st'|h p st'].
    + apply IH. lia.
    + simpl. by destruct fuel.
    + destruct fuel as [|fuel]; [lia|]. cbn [fst snd drain resumePass].
      destruct (runLoop doc (List.length (styleSheets doc)) (S n) rest
                  (resumeSheet doc (S n) (List.length (styleSheets doc)) h p st'))
        as [t'' st''] eqn:Hrun.
      specialize (IH (S n) fuel
                    (resumeSheet doc (S n) (List.length (styleSheets doc)) h p st')).
      rewrite Hrun in IH. simpl in IH. apply IH. lia.
Qed.

Lemma drain_updateFontFamilyRules (doc : Document) (st : State) :
  snd (drain (List.length (styleSheets doc)) (fst (startPass doc st))
             (snd (startPass doc st)))
  = finalState (updateFontFamilyRules doc st).
Proof. by apply drain_sheetsLoop. Qed.

Lemma corePass_FetchedOnce (doc : Document) (sheets : list StyleSheet) (c : Core) :
  FetchedOnce c -> FetchedOnce (corePass doc sheets c).
Proof.
  revert c. induction sheets as [|sheet rest IH]; intros c Hc; simpl; [done|].
  unfold coreStep.
  destruct (fate doc (c_requested c) sheet) as [| |rules|h linked|h] eqn:Hfate;
    try (apply IH; exact Hc); [done|].
  apply fate_fetch_fresh in Hfate as (Hfresh & _).
  apply IH. destruct Hc as [Hnd Hin]. split; simpl.
  - destruct linked; [|by rewrite app_nil_r].
    apply NoDup_app. split; [done|]. split; [|apply NoDup_singleton].
    intros u Hu Hu'. apply list_elem_of_singleton in Hu'. subst.
    by apply Hfresh, Hin.
  - intros u Hu. apply elem_of_app in Hu as [Hu|Hu]; [set_solver|].
    destruct linked; [|by apply elem_of_nil in Hu].
    apply list_elem_of_singleton in Hu. set_solver.
Qed.

Lemma runPasses_FetchedOnce (docs : list Document) (st : State) :
  FetchedOnce (core st) -> FetchedOnce (core (runPasses docs st)).
Proof.
  revert st. induction docs as [|doc rest IH]; intros st Hst; simpl; [done|].
  apply IH. rewrite core_updateFontFamilyRules. by apply corePass_FetchedOnce.
Qed.

(** X1.  Passes run one after the other, from the initial state, never
    send two requests for one href. *)
Lemma runPasses_fetch_once (docs : list Document) :
  NoDup (fetches (trace (runPasses docs initialState))).
Proof.
  apply (runPasses_FetchedOnce docs initialState). split; [constructor|].
  intros u Hu. by apply elem_of_nil in Hu.
Qed.

End Requests.

Section Fallback.
Context `{HostEngine}.

Lemma Grows_processSheet (doc : Document) (sheetCount total : nat)
    (sheet : StyleSheet) (st : State) :
  Grows st (finalState (processSheet doc sheetCount total sheet st)).
Proof.
  unfold processSheet.
  pose proof (Grows_beginSheet doc sheetCount total sheet st) as Hb.
  destruct (beginSheet doc sheetCount total sheet st) as [st'|st'|h p st']; simpl;
    [done|done|].
  eapply Grows_trans; [exact Hb|apply Grows_resumeSheet].
Qed.

Lemma Grows_sheetsLoop (doc : Document) (total sheetCount : nat)
    (sheets : list StyleSheet) (st : State) :
  Grows st (finalState (sheetsLoop doc total sheetCount sheets st)).
Proof.
  revert sheetCount st. induction sheets as [|sheet rest IH]; intros n st; simpl.
  - by apply Grows_log.
  - pose proof (Grows_processSheet doc (S n) total sheet st) as Hp.
    destruct (processSheet doc (S n) total sheet st) as [st'|st']; simpl in *.
    + eapply Grows_trans; [exact Hp|apply IH].
    + exact Hp.
Qed.

Lemma Grows_runPasses (docs : list Document) (st : State) :
  Grows st (runPasses docs st).
Proof.
  revert st. induction docs as [|doc rest IH]; intros st; simpl.
  - apply Grows_refl.
  - eapply Grows_trans; [apply Grows_sheetsLoop|apply IH].
Qed.

(** Once a file is requested, nothing that follows sends a request for it. *)
Lemma Grows_not_sent (st st' : State) (h : string) :
  Grows st st' -> h ∈ requestedCssFiles st ->
  h ∈ requestedCssFiles st'
  /\ exists sent, fetches (trace st') = fetches (trace st) ++ sent /\ h ∉ sent.
Proof.
  intros [Hsub (sent & Hf & Hsent)] Hh. split; [set_solver|].
  exists sent. split; [done|]. intros Hin. by apply (Hsent h Hin).
Qed.

Lemma fate_fallback (doc : Document) (requested : gset string)
    (owner : Node) (m : MediaList) (h : string) :
  node_id owner <> extentionStyleTagId ->
  includesString sheetMediaBlacklist (mediaText m) = false ->
  h <> "" ->
  rel owner = "stylesheet" ->
  h ∉ requested ->
  fate doc requested (mkSheet (Some owner) (Some m) (Some h) Throw)
  = match querySelectorLink doc h with
    | Ok linked => FateFetch h linked
    | Throw => FateReject h
    end.
Proof.
  intros Hid Hm Hh Hrel Hreq. unfold fate.
  cbn [ownerNode media cssRules href].
  apply String.eqb_neq in Hid. rewrite Hid, Hm.
  unfold truthy. apply String.eqb_neq in Hh. rewrite Hh. rewrite Hrel.
  rewrite String.eqb_refl. rewrite bool_decide_eq_false_2 by done. done.
Qed.

(** C9.  The fallback needs a link element whose href attribute is the
    sheet's URL.  Without one, [fetchCSSRulesFromUrl] returns the empty
    array and sends no request; the caller records the href all the same
    (and hands the builder an empty batch), and from then on no pass,
    overlapping or not, sends a request for that URL. *)
Theorem fetchCSSRulesFromUrl_without_link (doc : Document) (owner : Node)
    (m : MediaList) (h : string) (sheetCount total : nat) (st : State) :
  node_id owner <> extentionStyleTagId ->
  includesString sheetMediaBlacklist (mediaText m) = false ->
  h <> "" ->
  rel owner = "stylesheet" ->
  h ∉ requestedCssFiles st ->
  querySelectorLink doc h = Ok false ->
  fetchCSSRulesFromUrl doc h st
    = (Ok [], add_events [LogFetching h; LogErrPreloadLink h] st)
  /\ exists st',
       processSheet doc sheetCount total
         (mkSheet (Some owner) (Some m) (Some h) Throw) st = Completed st'
       /\ h ∈ requestedCssFiles st'
       /\ fetches (trace st') = fetches (trace st)
       /\ builderCalls (trace st') = builderCalls (trace st) ++ [[]]
       /\ (forall docs, exists sent,
             fetches (trace (runPasses docs st')) = fetches (trace st') ++ sent
             /\ h ∉ sent)
       /\ (forall turns tasks, exists sent,
             fetches (trace (snd (runTurns turns (tasks, st'))))
               = fetches (trace st') ++ sent
             /\ h ∉ sent).
Proof.
  intros Hid Hm Hh Hrel Hreq Hlink. split.
  { unfold fetchCSSRulesFromUrl, fetchCSSRulesFromUrl_begin. rewrite Hlink.
    unfold add_events, log. simpl. by rewrite <- app_assoc. }
  pose proof (fate_fallback doc (requestedCssFiles st) owner m h Hid Hm Hh Hrel Hreq)
    as Hfate. rewrite Hlink in Hfate.
  pose proof (processSheet_fate doc sheetCount total
                (mkSheet (Some owner) (Some m) (Some h) Throw) st) as Hproc.
  rewrite Hfate in Hproc. eexists. split; [exact Hproc|].
  pose proof (core_processSheet doc sheetCount total
                (mkSheet (Some owner) (Some m) (Some h) Throw) st) as Hcore.
  rewrite Hproc in Hcore. simpl finalState in Hcore.
  unfold coreStep in Hcore.
  change (c_requested (core st)) with (requestedCssFiles st) in Hcore.
  rewrite Hfate in Hcore.
  match type of Hcore with core ?s = _ => set (st' := s) in * end.
  assert (Hin : h ∈ requestedCssFiles st').
  { pose proof (f_equal c_requested Hcore) as Hreq'. simpl in Hreq'.
    change (c_requested (core st')) with (requestedCssFiles st') in Hreq'.
    rewrite Hreq'. apply elem_of_union_l. by apply elem_of_singleton. }
  split; [exact Hin|]. split.
  { apply (f_equal c_fetches) in Hcore. simpl in Hcore.
    rewrite app_nil_r in Hcore. exact Hcore. }
  split.
  { apply (f_equal c_calls) in Hcore. exact Hcore. }
  split.
  - intros docs.
    by destruct (Grows_not_sent st' (runPasses docs st') h (Grows_runPasses docs st') Hin).
  - intros turns tasks.
    by destruct (Grows_not_sent st' _ h (Grows_runTurns turns tasks st') Hin).
Qed.

(** C7, evaluated where it fails.  Two mutation batches follow each
    other while the request of the first pass is still on the network:
    the href is recorded only when the response has arrived (line 108),
    so the second pass passes the test of line 104 and sends a second
    request for the same file.  Run one after the other, the same two
    passes send one. *)
Theorem overlapping_passes_fetch_twice :
  fetches
    (trace (snd (runTurns
                   [MutationBatch (crossOriginPage "https://cdn.example/a.css");
                    MutationBatch (crossOriginPage "https://cdn.example/a.css");
                    Response 0; Response 1]
                   ([], initialState))))
  = ["https://cdn.example/a.css"; "https://cdn.example/a.css"]
  /\ fetches
       (trace (snd (runTurns
                      [MutationBatch (crossOriginPage "https://cdn.example/a.css");
                       Response 0;
                       MutationBatch (crossOriginPage "https://cdn.example/a.css");
                       Response 1]
                      ([], initialState))))
     = ["https://cdn.example/a.css"]
  /\ fetches
       (trace (runPasses [crossOriginPage "https://cdn.example/a.css";
                          crossOriginPage "https://cdn.example/a.css"]
                         initialState))
     = ["https://cdn.example/a.css"].
Proof. split; [reflexivity|]. split; reflexivity. Qed.

End Fallback.

Lemma fetchCSSRulesFromUrl_without_link_witness :
  fetchCSSRulesFromUrl (unlinkedPage "https://cdn.example/a.css")
    "https://cdn.example/a.css" initialState
  = (Ok [], add_events [LogFetching "https://cdn.example/a.css";
                        LogErrPreloadLink "https://cdn.example/a.css"] initialState).
Proof.
  refine (proj1 (@fetchCSSRulesFromUrl_without_link literalEngine
           (unlinkedPage "https://cdn.example/a.css")
           (linkNode "https://cdn.example/a.css") (mkMedia "")
           "https://cdn.example/a.css" 1 1 initialState _ _ _ _ _ _));
    try reflexivity; try discriminate.
Defined.

(** ** The mutation gate *)

Lemma examineNode_cases (changed : bool) (known : gset string) (node : Node) :
  examineNode (changed, known) node =
  if newStylesheet known node
  then (true, {[newStylesheetIdentifier node]} ∪ known)
  else (changed, known).
Proof.
  unfold examineNode, newStylesheet.
  destruct (String.eqb (node_id node) extentionStyleTagId); [done|].
  destruct (isStylesheet node), (isStyleNode node); simpl; try done;
    by destruct (bool_decide (newStylesheetIdentifier node ∈ known)).
Qed.

Lemma newStylesheet_mono (known known' : gset string) (node : Node) :
  known ⊆ known' -> newStylesheet known' node = true ->
  newStylesheet known node = true.
Proof.
  unfold newStylesheet. intros Hsub Hnew.
  apply andb_true_iff in Hnew as [Hnew Hid]. rewrite Hnew. simpl.
  apply negb_true_iff, bool_decide_eq_false in Hid.
  apply negb_true_iff, bool_decide_eq_false. set_solver.
Qed.

Lemma fold_examineNode (nodes : list Node) (changed : bool) (known : gset string) :
  let r := fold_left examineNode nodes (changed, known) in
  known ⊆ snd r
  /\ (fst r = true <->
      changed = true \/ exists node, node ∈ nodes /\ newStylesheet known node = true)
  /\ (fst r = false -> snd r = known).
Proof.
  revert changed known.
  induction nodes as [|node rest IH]; intros changed known; cbv zeta in *;
    cbn [fold_left].
  - simpl. split; [done|]. split; [|done]. split; [by left|].
    intros [?|(n & Hn & _)]; [done|]. by apply elem_of_nil in Hn.
  - rewrite examineNode_cases.
    destruct (newStylesheet known node) eqn:Hnew.
    + destruct (IH true ({[newStylesheetIdentifier node]} ∪ known)) as (Hsub & Hiff & Hsame).
      split; [etrans; [apply union_subseteq_r|exact Hsub]|]. split.
      * split; [|intros _; apply Hiff; by left].
        intros _. right. exists node. split; [by left|done].
      * intros Hfalse. assert (Htrue : true = true) by done.
        apply (or_introl (B := exists n, n ∈ rest /\
                 newStylesheet ({[newStylesheetIdentifier node]} ∪ known) n = true))
          in Htrue.
        apply Hiff in Htrue. congruence.
    + destruct (IH changed known) as (Hsub & Hiff & Hsame).
      split; [done|]. split; [|done].
      rewrite Hiff. split.
      * intros [?|(n & Hn & Hn')]; [by left|]. right. exists n. split; [by right|done].
      * intros [?|(n & Hn & Hn')]; [by left|].
        apply elem_of_cons in Hn as [->|Hn]; [congruence|]. right. eauto.
Qed.

Lemma styleSheetsChanged_concat (mutations : list MutationRecord) (known : gset string) :
  styleSheetsChanged mutations known
  = fold_left examineNode (flat_map addedNodes mutations) (false, known).
Proof.
  unfold styleSheetsChanged. generalize (false, known).
  induction mutations as [|m rest IH]; intros acc; simpl; [done|].
  by rewrite fold_left_app, IH.
Qed.

Section Gate.
Context `{HostEngine}.

(** C8, as amended.  The batch is "changed" exactly when some added node,
    other than one that carries the id of the override element, is a
    stylesheet link, a preload-as-style link or a style element whose
    identifier is not yet known.  If there is none, the pipeline does not
    run (the state is untouched) and the preserver runs over every
    element.  If there is one, the pipeline runs on the document; when the
    pass completes, the run counter is incremented and the preserver runs
    over every element; when the pass ends with an exception, the callback
    ends with it. *)
Theorem observer_mutation_gating (doc : Document)
    (mutations : list MutationRecord) (st : State) :
  let fresh :=
    exists mutation node,
      mutation ∈ mutations /\ node ∈ addedNodes mutation
      /\ node_id node <> extentionStyleTagId
      /\ (isStylesheet node = true \/ isStyleNode node = true)
      /\ newStylesheetIdentifier node ∉ lastStyleSheets st in
  (~ fresh ->
     observer doc mutations st = Completed (preserveAll st)
     /\ elements (preserveAll st)
        = List.map (fun e => default e (preserveCustomFonts (Some e))) (elements st))
  /\ (fresh ->
      exists known,
        lastStyleSheets st ⊆ known
        /\ observer doc mutations st
           = match updateFontFamilyRules doc
                     (log LogRunning (set_lastStyleSheets known st)) with
             | Completed st' => Completed (preserveAll (incr_runCount st'))
             | Aborted st' => Aborted st'
             end
        /\ (forall st', elements (preserveAll st')
              = List.map (fun e => default e (preserveCustomFonts (Some e)))
                         (elements st'))).
Proof.
  intros fresh.
  assert (Hfresh : fresh <->
            exists node, node ∈ flat_map addedNodes mutations
                         /\ newStylesheet (lastStyleSheets st) node = true).
  { unfold fresh, newStylesheet. split.
    - intros (m & node & Hm & Hnode & Hid & Hkind & Hnew). exists node. split.
      + apply list_elem_of_In, in_flat_map. exists m. by rewrite <- !list_elem_of_In.
      + apply String.eqb_neq in Hid. rewrite Hid. simpl.
        rewrite bool_decide_eq_false_2 by done.
        destruct Hkind as [-> | ->]; simpl; [done|by rewrite orb_true_r].
    - intros (node & Hin & Hnew).
      apply list_elem_of_In, in_flat_map in Hin as (m & Hm & Hnode).
      apply andb_true_iff in Hnew as [Hnew Hknown].
      apply andb_true_iff in Hnew as [Hid Hkind].
      exists m, node. rewrite !list_elem_of_In. split; [done|]. split; [done|].
      split; [by apply String.eqb_neq, negb_true_iff|]. split.
      + by apply orb_true_iff in Hkind.
      + by apply negb_true_iff, bool_decide_eq_false in Hknown. }
  unfold observer. rewrite styleSheetsChanged_concat.
  destruct (fold_examineNode (flat_map addedNodes mutations) false (lastStyleSheets st))
    as (Hsub & Hiff & Hsame).
  destruct (fold_left examineNode (flat_map addedNodes mutations)
              (false, lastStyleSheets st)) as [changed known] eqn:Hfold.
  simpl in *. split.
  - intros Hno. destruct changed.
    + exfalso. apply Hno, Hfresh.
      destruct Hiff as [Hiff _]. by destruct (Hiff eq_refl).
    + rewrite Hsame by done. split; [|done].
      unfold set_lastStyleSheets. by rewrite state_eta.
  - intros Hyes. exists known. split; [done|].
    apply Hfresh in Hyes.
    assert (changed = true) as -> by (apply Hiff; by right).
    done.
Qed.

End Gate.

(** C8, as the claim states it, fails: the override element that an
    update appends is a style element with text not seen before, and the
    gate ignores it by its id; the pipeline does not run. *)
Lemma observer_ignores_own_element :
  (exists node,
     node ∈ flat_map addedNodes ownElementBatch
     /\ isStyleNode node = true
     /\ newStylesheetIdentifier node ∉ lastStyleSheets initialState)
  /\ @observer literalEngine twoSheets ownElementBatch initialState
     = Completed initialState.
Proof.
  split; [|reflexivity].
  eexists. split; [left|]. split; [reflexivity|]. apply not_elem_of_empty.
Qed.

(** ** Repeated passes *)

Lemma append_cons (c : ascii) (s t : string) :
  String c s +:+ t = String c (s +:+ t).
Proof. reflexivity. Qed.

Lemma append_nil_r (s : string) : s +:+ "" = s.
Proof. induction s as [|c s IH]; [done|]. by rewrite append_cons, IH. Qed.

Lemma append_assoc (a b c : string) : (a +:+ b) +:+ c = a +:+ (b +:+ c).
Proof. induction a as [|x a IH]; [done|]. by rewrite !append_cons, IH. Qed.

Lemma concatLines_app (a b : list string) :
  concatLines (a ++ b) = concatLines a +:+ concatLines b.
Proof.
  induction a as [|x a IH]; simpl; [done|]. by rewrite IH, append_assoc.
Qed.

Lemma rebuilt_idemp (tag : StyleElement) : rebuilt (rebuilt tag) = rebuilt tag.
Proof. done. Qed.

Lemma rebuilt_rules (tag : option StyleElement) :
  sheet_cssRules <$> (rebuilt <$> tag) = sheet_cssRules <$> tag.
Proof. by destruct tag. Qed.

(** The fate of a sheet depends on the requested files only where the
    fallback is concerned. *)
Lemma fate_requested (doc : Document) (requested : gset string) (sheet : StyleSheet) :
  fate doc requested sheet =
  match fate doc ∅ sheet with
  | FateFetch h linked =>
      if bool_decide (h ∈ requested) then FateSkip else FateFetch h linked
  | FateReject h =>
      if bool_decide (h ∈ requested) then FateSkip else FateReject h
  | other => other
  end.
Proof.
  unfold fate.
  sheet_checks sheet.
  destruct (cssRules sheet) as [rules|]; [done|].
  destruct (href sheet) as [h|]; [|done].
  rewrite (bool_decide_eq_false_2 (h ∈ (∅ : gset string))) by apply not_elem_of_empty.
  destruct (negb (truthy (Some h)) || negb (String.eqb (rel owner) "stylesheet"));
    simpl; [done|].
  destruct (querySelectorLink doc h) as [linked|];
    by destruct (bool_decide (h ∈ requested)).
Qed.

Section Idempotence.
Context `{HostEngine}.

Lemma createNewStyleTag_covered (batch : list FontFamilyRule) (tag : StyleElement) :
  (forall rule, rule ∈ batch -> hasOld (sheet_cssRules tag) rule = true) ->
  createNewStyleTag batch (Some tag) = rebuilt tag.
Proof.
  intros Hcov. unfold createNewStyleTag, rebuilt.
  fold (keptRules (sheet_cssRules tag) batch).
  rewrite keptRules_covered by done. simpl.
  by rewrite append_nil_r, app_nil_r.
Qed.

Lemma Covered_newTag (doc : Document) (batch : list FontFamilyRule)
    (tag : option StyleElement) :
  Covered doc batch (newTag doc batch tag).
Proof.
  unfold Covered, newTag. destruct (head_present doc); [|done].
  eexists. split; [done|]. intros rule Hin.
  rewrite createNewStyleTag_rules, hasOld_app.
  destruct (hasOld (from_option sheet_cssRules [] tag) rule) eqn:Hold; [done|].
  simpl. apply hasOld_parsed, elem_of_keptRules. split; [done|].
  by apply hasOld_false.
Qed.

Lemma Covered_mono (doc : Document) (batch batch' : list FontFamilyRule)
    (tag : option StyleElement) :
  Covered doc batch tag -> Covered doc batch (newTag doc batch' tag).
Proof.
  unfold Covered, newTag. destruct (head_present doc); [|done].
  intros (e & -> & Hcov). eexists. split; [done|]. intros rule Hin.
  rewrite createNewStyleTag_rules, hasOld_app. simpl. by rewrite Hcov.
Qed.

Lemma newTag_covered (doc : Document) (batch : list FontFamilyRule)
    (tag : option StyleElement) :
  Covered doc batch tag -> newTag doc batch tag = rebuilt <$> tag.
Proof.
  unfold Covered, newTag. destruct (head_present doc).
  - intros (e & -> & Hcov). simpl. by rewrite createNewStyleTag_covered.
  - by intros ->.
Qed.

Lemma Settled_mono (doc : Document) (c c' : Core) (sheet : StyleSheet) :
  c_requested c ⊆ c_requested c' ->
  (c_tag c' = c_tag c \/ exists batch, c_tag c' = newTag doc batch (c_tag c)) ->
  Settled doc c sheet -> Settled doc c' sheet.
Proof.
  unfold Settled. intros Hsub Htag.
  rewrite (fate_requested doc (c_requested c)), (fate_requested doc (c_requested c')).
  destruct (fate doc ∅ sheet) as [| |rules|h linked|h]; try done.
  - intros Hcov. destruct Htag as [->|[batch ->]]; [done|]. by apply Covered_mono.
  - destruct (bool_decide (h ∈ c_requested c)) eqn:E; [|done].
    apply bool_decide_eq_true in E.
    rewrite bool_decide_eq_true_2; [done|]. by apply Hsub.
  - by destruct (bool_decide (h ∈ c_requested c')).
Qed.

Lemma coreStep_requested (doc : Document) (sheet : StyleSheet) (c : Core) :
  c_requested c ⊆ c_requested (coreStep doc sheet c).
Proof.
  unfold coreStep. destruct (fate doc (c_requested c) sheet); simpl; try done.
  apply union_subseteq_r.
Qed.

Lemma coreStep_tag (doc : Document) (sheet : StyleSheet) (c : Core) :
  c_tag (coreStep doc sheet c) = c_tag c
  \/ exists batch, c_tag (coreStep doc sheet c) = newTag doc batch (c_tag c).
Proof.
  unfold coreStep. destruct (fate doc (c_requested c) sheet); simpl; eauto.
Qed.

Lemma Settled_step_other (doc : Document) (sheet other : StyleSheet) (c : Core) :
  Settled doc c sheet -> Settled doc (coreStep doc other c) sheet.
Proof.
  apply Settled_mono; [apply coreStep_requested|apply coreStep_tag].
Qed.

Lemma Settled_step_self (doc : Document) (sheet : StyleSheet) (c : Core) :
  Settled doc (coreStep doc sheet c) sheet.
Proof.
  unfold Settled, coreStep.
  destruct (fate doc (c_requested c) sheet) as [| |rules|h linked|h] eqn:Hfate;
    simpl; rewrite ?Hfate; try done.
  - apply Covered_newTag.
  - rewrite fate_requested. rewrite fate_requested in Hfate.
    destruct (fate doc ∅ sheet) as [| |rules'|h' linked'|h']; try done.
    + destruct (bool_decide (h' ∈ c_requested c)); [done|].
      injection Hfate as -> ->.
      rewrite bool_decide_eq_true_2; [done|].
      apply elem_of_union_l. by apply elem_of_singleton.
    + by destruct (bool_decide (h' ∈ c_requested c)).
Qed.

Lemma Settled_corePass (doc : Document) (sheets : list StyleSheet)
    (sheet : StyleSheet) (c : Core) :
  Settled doc c sheet -> Settled doc (corePass doc sheets c) sheet.
Proof.
  revert c. induction sheets as [|other rest IH]; intros c Hs; simpl; [done|].
  destruct (fate doc (c_requested c) other); try done;
    by apply IH, Settled_step_other.
Qed.

Lemma fate_escapes (doc : Document) (requested : gset string) (sheet : StyleSheet) :
  fate doc requested sheet = FateEscape <-> escapes doc sheet = true.
Proof.
  unfold escapes. rewrite fate_requested.
  destruct (fate doc ∅ sheet) as [| |rules|h linked|h];
    try case_bool_decide; split; done.
Qed.

Lemma fate_reads (doc : Document) (requested : gset string) (sheet : StyleSheet) :
  (exists rules, fate doc requested sheet = FateRead rules) <-> reads doc sheet = true.
Proof.
  unfold reads. rewrite fate_requested.
  destruct (fate doc ∅ sheet) as [| |rules|h linked|h];
    try case_bool_decide; split; try done; try (intros [? ?]; done); eauto.
Qed.

(** After a pass, every sheet it reached is settled. *)
Lemma corePass_settles (doc : Document) (sheets : list StyleSheet) (c : Core) :
  forall sheet, sheet ∈ reached doc sheets ->
                Settled doc (corePass doc sheets c) sheet.
Proof.
  revert c. induction sheets as [|first rest IH]; intros c sheet Hin; simpl in *.
  - by apply elem_of_nil in Hin.
  - destruct (escapes doc first) eqn:Hesc; [by apply elem_of_nil in Hin|].
    assert (Hne : fate doc (c_requested c) first <> FateEscape).
    { intros Hf. apply fate_escapes in Hf. congruence. }
    assert (Hgo : corePass doc (first :: rest) c
                  = corePass doc rest (coreStep doc first c)).
    { simpl. by destruct (fate doc (c_requested c) first). }
    simpl in Hgo. rewrite Hgo.
    apply elem_of_cons in Hin as [->|Hin].
    + apply Settled_corePass, Settled_step_self.
    + by apply IH.
Qed.

(** A pass over settled sheets leaves the requested files as they are and
    rebuilds the element when it reads a sheet. *)
Lemma corePass_settled (doc : Document) (sheets : list StyleSheet) (c : Core) :
  (forall sheet, sheet ∈ reached doc sheets -> Settled doc c sheet) ->
  c_requested (corePass doc sheets c) = c_requested c
  /\ c_tag (corePass doc sheets c)
     = if existsb (reads doc) (reached doc sheets)
       then rebuilt <$> c_tag c else c_tag c.
Proof.
  revert c. induction sheets as [|first rest IH]; intros c Hall; simpl; [done|].
  simpl in Hall.
  destruct (escapes doc first) eqn:Hesc.
  { apply fate_escapes with (requested := c_requested c) in Hesc.
    by rewrite Hesc. }
  assert (Hne : fate doc (c_requested c) first <> FateEscape).
  { intros Hf. apply fate_escapes in Hf. congruence. }
  assert (Hfirst : Settled doc c first) by (apply Hall; left).
  assert (Hstep :
    c_requested (coreStep doc first c) = c_requested c
    /\ c_tag (coreStep doc first c)
       = if reads doc first then rebuilt <$> c_tag c else c_tag c).
  { unfold Settled in Hfirst. unfold coreStep.
    pose proof (fate_reads doc (c_requested c) first) as Hr.
    destruct (fate doc (c_requested c) first) as [| |rules|h linked|h]; simpl;
      try done.
    - destruct (reads doc first); [|done]. destruct Hr as [_ Hr].
      by destruct (Hr eq_refl).
    - destruct Hr as [Hr _]. rewrite Hr by eauto. split; [done|].
      by apply newTag_covered.
    - destruct (reads doc first); [|done]. destruct Hr as [_ Hr].
      by destruct (Hr eq_refl). }
  destruct Hstep as [Hreq Htag].
  assert (Hgo : corePass doc (first :: rest) c
                = corePass doc rest (coreStep doc first c)).
  { simpl. by destruct (fate doc (c_requested c) first). }
  simpl in Hgo. rewrite Hgo. simpl.
  destruct (IH (coreStep doc first c)) as [IHreq IHtag].
  { intros sheet Hin. apply Settled_step_other, Hall. by right. }
  rewrite IHreq, IHtag, Hreq, Htag. split; [done|].
  destruct (reads doc first), (existsb (reads doc) (reached doc rest)); simpl;
    try done. by destruct (c_tag c).
Qed.

End Idempotence.

Section RepeatedPasses.
Context `{HostEngine}.

Lemma Literal_ruleLine (rule : FontFamilyRule) :
  Literal -> cssText (parsedRule rule) +:+ LF = ruleLine rule.
Proof.
  intros Hlit. unfold parsedRule, ruleLine. simpl. rewrite Hlit.
  by rewrite !append_assoc.
Qed.

Lemma Literal_createNewStyleTag (batch : list FontFamilyRule)
    (tag : option StyleElement) :
  Literal -> rebuilt (createNewStyleTag batch tag) = createNewStyleTag batch tag.
Proof.
  intros Hlit. unfold rebuilt, createNewStyleTag. simpl. f_equal.
  rewrite map_app, concatLines_app, map_map. f_equal. f_equal.
  apply map_ext. intros rule. by apply Literal_ruleLine.
Qed.

Lemma Canonical_newTag (doc : Document) (batch : list FontFamilyRule)
    (tag : option StyleElement) :
  Literal -> Canonical (newTag doc batch tag).
Proof.
  intros Hlit. unfold Canonical, newTag. destruct (head_present doc); [|done].
  simpl. by rewrite Literal_createNewStyleTag.
Qed.

Lemma Canonical_coreStep (doc : Document) (sheet : StyleSheet) (c : Core) :
  Literal -> Canonical (c_tag c) -> Canonical (c_tag (coreStep doc sheet c)).
Proof.
  intros Hlit Hc. destruct (coreStep_tag doc sheet c) as [->|[batch ->]];
    [done|by apply Canonical_newTag].
Qed.

Lemma Canonical_corePass (doc : Document) (sheets : list StyleSheet) (c : Core) :
  Literal -> Canonical (c_tag c) -> Canonical (c_tag (corePass doc sheets c)).
Proof.
  intros Hlit. revert c. induction sheets as [|sheet rest IH]; intros c Hc; simpl;
    [done|].
  destruct (fate doc (c_requested c) sheet); try done;
    by apply IH, Canonical_coreStep.
Qed.

Lemma Canonical_after_read (doc : Document) (sheets : list StyleSheet) (c : Core) :
  Literal -> existsb (reads doc) (reached doc sheets) = true ->
  Canonical (c_tag (corePass doc sheets c)).
Proof.
  intros Hlit. revert c. induction sheets as [|sheet rest IH]; intros c Hr;
    simpl in *; [done|].
  destruct (escapes doc sheet) eqn:Hesc; [done|]. simpl in Hr.
  assert (Hne : fate doc (c_requested c) sheet <> FateEscape).
  { intros Hf. apply fate_escapes in Hf. congruence. }
  assert (Hgo : corePass doc (sheet :: rest) c
                = corePass doc rest (coreStep doc sheet c)).
  { simpl. by destruct (fate doc (c_requested c) sheet). }
  simpl in Hgo. rewrite Hgo.
  destruct (reads doc sheet) eqn:Hreads; [|by apply IH].
  apply Canonical_corePass; [done|].
  apply (fate_reads doc (c_requested c)) in Hreads as [rules Hfate].
  unfold coreStep. rewrite Hfate. simpl. by apply Canonical_newTag.
Qed.

Lemma fate_ownSheet (doc : Document) (requested : gset string) (sheet : StyleSheet) :
  ownSheet sheet = true -> fate doc requested sheet = FateSkip.
Proof.
  unfold ownSheet, fate. destruct (ownerNode sheet) as [owner|]; [|done].
  by intros ->.
Qed.

Lemma corePass_pageSheets (doc : Document) (sheets : list StyleSheet) (c : Core) :
  corePass doc sheets c
  = corePass doc (List.filter (fun sheet => negb (ownSheet sheet)) sheets) c.
Proof.
  revert c. induction sheets as [|sheet rest IH]; intros c; simpl; [done|].
  destruct (ownSheet sheet) eqn:Hown; simpl.
  - unfold coreStep. rewrite (fate_ownSheet doc _ sheet Hown). apply IH.
  - destruct (fate doc (c_requested c) sheet); try done; apply IH.
Qed.

End RepeatedPasses.

Lemma literalEngine_Literal : @Literal literalEngine.
Proof. intros sel value. reflexivity. Qed.

(** ** The pattern of the preserver *)

Section RegexFacts.

Lemma starGreedy_result {R} (P : R -> Prop) (p : ascii -> bool)
    (k : string -> string -> option R) :
  (forall taken s r, k taken s = Some r -> P r) ->
  forall s taken r, starGreedy p k taken s = Some r -> P r.
Proof.
  intros Hk. induction s as [|c s IH]; intros taken r; simpl; [apply Hk|].
  destruct (p c); [|apply Hk].
  destruct (starGreedy p k (taken +:+ String c "") s) eqn:E.
  - intros [= <-]. eapply IH, E.
  - apply Hk.
Qed.

Lemma reTail_result (g1 : string) (g2 : option string) (s : string) (m : Match) :
  reTail g1 g2 s = Some m -> m = mkMatch g1 g2.
Proof.
  unfold reTail. apply (starGreedy_result (fun r => r = mkMatch g1 g2)).
  intros _ s' r.
  destruct s' as [|c s']; [by intros [= <-]|].
  destruct (Ascii.eqb c ";"); [by intros [= <-]|done].
Qed.

Lemma reTail_fails (g1 : string) (g2 : option string) (s : string) :
  tailFails s = true -> reTail g1 g2 s = None.
Proof.
  unfold reTail. generalize "". induction s as [|c s IH]; intros taken; simpl; [done|].
  destruct (isSpace c) eqn:Hsp.
  - intros Hf. rewrite IH by done.
    destruct (Ascii.eqb c ";") eqn:Hc; [|done].
    apply Ascii.eqb_eq in Hc. subst. done.
  - unfold notSemicolon. by intros ->%negb_true_iff.
Qed.

Lemma includes_append_r (a b : string) : includes (a +:+ b) b = true.
Proof.
  assert (Hself : forall s, startsWith s s = true).
  { induction s as [|c s IH]; simpl; [done|]. by rewrite Ascii.eqb_refl. }
  assert (Hb : includes b b = true).
  { destruct b; simpl; [done|]. by rewrite Ascii.eqb_refl, Hself. }
  induction a as [|c a IH]; [exact Hb|].
  rewrite append_cons. simpl.
  destruct (startsWith b (String c (a +:+ b))); [done|exact IH].
Qed.

(** A match of the optional group carries the marker. *)
Lemma reImportant_marked (g1 s : string) (m : Match) :
  reImportant g1 s = Some m -> reTail g1 None s = None -> hasIsImportant m = true.
Proof.
  unfold reImportant. intros Hm Htail.
  destruct (starGreedy isSpace _ "" s) as [r|] eqn:E; [|congruence].
  injection Hm as ->. revert E.
  apply (starGreedy_result (fun r => hasIsImportant r = true)).
  intros sp s' r. unfold lit. destruct (startsWith "!important" s'); [|done].
  intros ->%reTail_result. unfold hasIsImportant. simpl.
  apply includes_append_r.
Qed.

Lemma tailFails_value (w rest : string) :
  noSemicolon w = true -> tailFails rest = true -> tailFails (w +:+ rest) = true.
Proof.
  intros Hw Hrest. induction w as [|c w IH]; [done|].
  rewrite append_cons. simpl in *. apply andb_true_iff in Hw as [Hc Hw].
  destruct (isSpace c); [by apply IH|done].
Qed.

(** The lazy group over a value that is followed by the marker. *)
Lemma plusLazy_value (v post taken : string) :
  v <> "" -> noSemicolon v = true ->
  exists m,
    plusLazy notSemicolon reImportant taken (v +:+ " !important;" +:+ post) = Some m
    /\ hasIsImportant m = true.
Proof.
  revert taken. induction v as [|c v IH]; intros taken Hne Hns; [done|].
  rewrite append_cons. simpl in *. apply andb_true_iff in Hns as [Hc Hns].
  rewrite Hc.
  destruct (reImportant (taken +:+ String c "") (v +:+ " !important;" +:+ post))
    as [m|] eqn:Hre.
  - exists m. split; [done|]. eapply reImportant_marked; [exact Hre|].
    apply reTail_fails, tailFails_value; done.
  - destruct v as [|c' v]; [|by apply IH].
    exfalso. revert Hre. clear. unfold reImportant.
    change ("" +:+ " !important;" +:+ post) with (" !important;" +:+ post).
    cbv. done.
Qed.

Lemma startsWith_append (w s : string) : startsWith w (w +:+ s) = true.
Proof.
  induction w as [|c w IH]; [done|].
  rewrite append_cons. simpl. by rewrite Ascii.eqb_refl.
Qed.

Lemma dropChars_append (w s : string) : dropChars (String.length w) (w +:+ s) = s.
Proof. induction w as [|c w IH]; [done|]. rewrite append_cons. simpl. exact IH. Qed.

Lemma lit_append {R} (w : string) (k : string -> option R) (s : string) :
  lit w k (w +:+ s) = k s.
Proof. unfold lit. by rewrite startsWith_append, dropChars_append. Qed.

Lemma starGreedy_stop {R} (p : ascii -> bool) (k : string -> string -> option R)
    (taken : string) (c : ascii) (s : string) :
  p c = false -> starGreedy p k taken (String c s) = k taken (String c s).
Proof. intros Hc. simpl. by rewrite Hc. Qed.

Lemma starGreedy_take {R} (p : ascii -> bool) (k : string -> string -> option R)
    (taken : string) (c : ascii) (s : string) (r : R) :
  p c = true ->
  starGreedy p k (taken +:+ String c "") s = Some r ->
  starGreedy p k taken (String c s) = Some r.
Proof. intros Hc Hr. simpl. by rewrite Hc, Hr. Qed.

Lemma matchHere_declaration (v post : string) :
  plainValue v = true ->
  exists m,
    matchHere ("font-family: " +:+ v +:+ " !important;" +:+ post) = Some m
    /\ hasIsImportant m = true.
Proof.
  intros Hv. destruct v as [|c v]; [done|].
  simpl in Hv. apply andb_true_iff in Hv as [Hsp Hns].
  apply negb_true_iff in Hsp.
  destruct (plusLazy_value (String c v) post "" ltac:(done) Hns) as (m & Hm & Himp).
  exists m. split; [|done].
  unfold matchHere.
  change ("font-family: " +:+ String c v +:+ " !important;" +:+ post)
    with ("font-family"
            +:+ String ":" (String " " (String c v +:+ " !important;" +:+ post))).
  rewrite lit_append.
  rewrite starGreedy_stop by reflexivity.
  change (String ":" (String " " (String c v +:+ " !important;" +:+ post)))
    with (":" +:+ String " " (String c v +:+ " !important;" +:+ post)).
  rewrite lit_append.
  apply starGreedy_take; [reflexivity|].
  rewrite append_cons. rewrite starGreedy_stop by exact Hsp.
  rewrite <- append_cons. exact Hm.
Qed.

Lemma exec_skips (pre rest : string) :
  noEarlierOccurrence pre rest = true ->
  fontFamilyRegex_exec (pre +:+ rest) = fontFamilyRegex_exec rest.
Proof.
  induction pre as [|c pre IH]; [done|].
  intros Hno. cbn [noEarlierOccurrence] in Hno.
  apply andb_true_iff in Hno as [Hhere Hno]. apply negb_true_iff in Hhere.
  rewrite append_cons in *. cbn [fontFamilyRegex_exec].
  assert (matchHere (String c (pre +:+ rest)) = None) as ->
    by (unfold matchHere, lit; by rewrite Hhere).
  by apply IH.
Qed.

Lemma exec_here (s : string) (m : Match) :
  matchHere s = Some m -> fontFamilyRegex_exec s = Some m.
Proof. intros Hm. destruct s; cbn [fontFamilyRegex_exec]; by rewrite Hm. Qed.

Lemma exec_includes (s : string) (m : Match) :
  fontFamilyRegex_exec s = Some m -> includes s "font-family" = true.
Proof.
  induction s as [|c s IH]; cbn [fontFamilyRegex_exec includes].
  - unfold matchHere, lit. simpl. done.
  - destruct (matchHere (String c s)) as [m'|] eqn:Hm.
    + intros _. unfold matchHere, lit in Hm.
      by destruct (startsWith "font-family" (String c s)).
    + intros Hrest. rewrite (IH Hrest).
      by destruct (startsWith "font-family" (String c s)).
Qed.

(** The declaration the browser writes is found with its marker when
    nothing before it reads [font-family]. *)
Lemma exec_declaration (pre v post : string) :
  noEarlierOccurrence pre ("font-family: " +:+ v +:+ " !important;" +:+ post) = true ->
  plainValue v = true ->
  exists m,
    fontFamilyRegex_exec (pre +:+ "font-family: " +:+ v +:+ " !important;" +:+ post)
      = Some m
    /\ hasIsImportant m = true.
Proof.
  intros Hpre Hv. destruct (matchHere_declaration v post Hv) as (m & Hm & Himp).
  exists m. split; [|done]. rewrite exec_skips by done. by apply exec_here.
Qed.

End RegexFacts.

(** ** The inline style preserver *)

Section Preserver.
Context `{HostEngine}.

Lemma exec_truthy (s : string) (m : Match) :
  fontFamilyRegex_exec s = Some m -> truthy (Some s) = true.
Proof. by destruct s. Qed.

Lemma preserveCustomFonts_rewrites (e : Element) (inlineStyle : string) (m : Match) :
  style_attr e = Some inlineStyle ->
  fontFamilyRegex_exec inlineStyle = Some m ->
  hasIsImportant m = false ->
  preserveCustomFonts (Some e)
  = Some (mkElement (Some (setFontFamilyImportant inlineStyle (trim (group1 m))))).
Proof.
  intros Hattr Hm Himp. unfold preserveCustomFonts.
  rewrite Hattr, (exec_truthy _ _ Hm), (exec_includes _ _ Hm), Hm, Himp. done.
Qed.

Lemma preserveCustomFonts_important (e : Element) (inlineStyle : string) (m : Match) :
  style_attr e = Some inlineStyle ->
  fontFamilyRegex_exec inlineStyle = Some m ->
  hasIsImportant m = true ->
  preserveCustomFonts (Some e) = Some e.
Proof.
  intros Hattr Hm Himp. unfold preserveCustomFonts.
  rewrite Hattr, (exec_truthy _ _ Hm), (exec_includes _ _ Hm), Hm, Himp. done.
Qed.

(** C10, as amended.  Take an element whose style attribute the pattern
    of line 198 matches (its first match, lower case) without the marker.
    One application calls [setProperty] with the trimmed value and the
    important priority.  When the browser then writes the declaration as
    [font-family: v !important;], with nothing before it that reads
    [font-family], the pattern finds the marker in the new attribute: a
    second application takes the no-op branch, and applying the preserver
    twice leaves the element as applying it once. *)
Theorem preserveCustomFonts_idempotent (e : Element) (inlineStyle : string)
    (m : Match) (pre v post : string) :
  style_attr e = Some inlineStyle ->
  fontFamilyRegex_exec inlineStyle = Some m ->
  hasIsImportant m = false ->
  setFontFamilyImportant inlineStyle (trim (group1 m))
    = pre +:+ "font-family: " +:+ v +:+ " !important;" +:+ post ->
  noEarlierOccurrence pre ("font-family: " +:+ v +:+ " !important;" +:+ post) = true ->
  plainValue v = true ->
  preserveCustomFonts (Some e)
    = Some (mkElement (Some (setFontFamilyImportant inlineStyle (trim (group1 m)))))
  /\ (exists m',
        fontFamilyRegex_exec (setFontFamilyImportant inlineStyle (trim (group1 m)))
          = Some m'
        /\ hasIsImportant m' = true)
  /\ preserveCustomFonts (preserveCustomFonts (Some e)) = preserveCustomFonts (Some e).
Proof.
  intros Hattr Hm Himp Hwrite Hpre Hv.
  pose proof (preserveCustomFonts_rewrites e inlineStyle m Hattr Hm Himp) as Hone.
  destruct (exec_declaration pre v post Hpre Hv) as (m' & Hm' & Himp').
  rewrite <- Hwrite in Hm'.
  split; [exact Hone|]. split; [by exists m'|].
  rewrite Hone.
  by apply (preserveCustomFonts_important _
              (setFontFamilyImportant inlineStyle (trim (group1 m))) m').
Qed.

End Preserver.

(** C10, as the claim states it, fails twice.  An inline style that
    declares the font family in upper case has no [font-family] in its
    text: line 194 returns and the element is never rewritten, whatever the
    browser.  And the pattern takes its first match: with a custom property
    whose name ends in [font-family] before the declaration, the value of
    the custom property is what is set, and in the attribute the browser
    then writes (the declarations in order) the first match is still the
    custom property, without marker: the second application does not take
    the no-op branch. *)
Lemma preserveCustomFonts_misses_upper_case :
  (declaresFontFamily "FONT-FAMILY: Arial" = true
   /\ fontFamilyRegex_exec "FONT-FAMILY: Arial" = None
   /\ (forall engine : HostEngine,
         @preserveCustomFonts engine (Some (mkElement (Some "FONT-FAMILY: Arial")))
         = Some (mkElement (Some "FONT-FAMILY: Arial"))))
  /\ (declaresFontFamily "--font-family: A; font-family: B" = true
      /\ @preserveCustomFonts literalEngine
           (Some (mkElement (Some "--font-family: A; font-family: B")))
         = Some (mkElement (Some "--font-family: A; font-family: A !important;"))
      /\ fontFamilyRegex_exec "--font-family: A; font-family: A !important;"
         = Some (mkMatch "A" None)).
Proof.
  split.
  - split; [reflexivity|]. split; [reflexivity|]. intros engine. reflexivity.
  - split; [reflexivity|]. split; reflexivity.
Qed.

Lemma preserveCustomFonts_idempotent_witness :
  @preserveCustomFonts literalEngine
    (Some (mkElement (Some "color: red; font-family: Arial")))
  = Some (mkElement (Some "color: red; font-family: Arial !important;"))
  /\ @preserveCustomFonts literalEngine
       (@preserveCustomFonts literalEngine
          (Some (mkElement (Some "color: red; font-family: Arial"))))
     = @preserveCustomFonts literalEngine
         (Some (mkElement (Some "color: red; font-family: Arial"))).
Proof.
  pose proof (@preserveCustomFonts_idempotent literalEngine
                (mkElement (Some "color: red; font-family: Arial"))
                "color: red; font-family: Arial" (mkMatch "Arial" None)
                "color: red; " "Arial" ""
                eq_refl eq_refl eq_refl eq_refl eq_refl eq_refl)
    as (Hone & _ & Htwice).
  split; [exact Hone|exact Htwice].
Defined.

(** ** The examples of the specification, evaluated *)

(** The end-to-end example, with an engine that serialises literally: one
    style element after the first pass, the same one after the second. *)
Example end_to_end_literal :
  overrideTag (finalState (@updateFontFamilyRules literalEngine flagPage initialState))
  = Some (mkStyle
            (".flag-name { font-family: 'Twemoji Country Flags', Roboto !important; }"
               +:+ LF)
            [mkRule (Some "'Twemoji Country Flags', Roboto") (Some ".flag-name")
               ".flag-name { font-family: 'Twemoji Country Flags', Roboto !important; }"])
  /\ overrideTag
       (finalState
          (@updateFontFamilyRules literalEngine flagPageOverridden
             (finalState (@updateFontFamilyRules literalEngine flagPage initialState))))
     = overrideTag
         (finalState (@updateFontFamilyRules literalEngine flagPage initialState)).
Proof. split; reflexivity. Qed.

(** First seen wins: [.a] collected as [Foo] in the first pass and as
    [Bar] in the second keeps the rule of the first pass. *)
Example first_seen_wins_across_passes :
  selectors
    (from_option sheet_cssRules []
       (overrideTag
          (@runPasses literalEngine
             [pageOf [inlineSheet [pageRule ".a" "Foo"]];
              pageOf [inlineSheet [pageRule ".a" "Bar"]]] initialState)))
  = [Some ".a"]
  /\ List.map cssText
       (from_option sheet_cssRules []
          (overrideTag
             (@runPasses literalEngine
                [pageOf [inlineSheet [pageRule ".a" "Foo"]];
                 pageOf [inlineSheet [pageRule ".a" "Bar"]]] initialState)))
     = [".a { font-family: 'Twemoji Country Flags', Foo !important; }"].
Proof. split; reflexivity. Qed.

(** Inherit, already overridden and print sheets give no entry. *)
Example exclusions :
  candidate (pageRule "h1" "inherit") = None
  /\ candidate (pageRule "h1" "'TWEMOJI country FLAGS', Arial") = None
  /\ builderCalls
       (trace (finalState
                 (@updateFontFamilyRules literalEngine
                    (pageOf [mkSheet (Some styleNode) (Some (mkMedia "print")) None
                                     (Ok [pageRule "h1" "Arial"])])
                    initialState)))
     = [].
Proof. split; [reflexivity|]. split; reflexivity. Qed.

(** The inline precedence example: [font-family: Arial] is rewritten,
    [font-family: Arial !important] is left as it is. *)
Example inline_precedence :
  @preserveCustomFonts literalEngine (Some (mkElement (Some "font-family: Arial")))
  = Some (mkElement (Some "font-family: Arial !important;"))
  /\ @preserveCustomFonts literalEngine
       (Some (mkElement (Some "font-family: Arial !important")))
     = Some (mkElement (Some "font-family: Arial !important")).
Proof. split; reflexivity. Qed.

(** ** What holds besides *)

(** X3.  Once an href is recorded, no pass, overlapping or not, sends a
    request for it. *)
Theorem recorded_href_never_fetched `{HostEngine} (turns : list Turn)
    (tasks : list Task) (st : State) (h : string) :
  h ∈ requestedCssFiles st ->
  h ∈ requestedCssFiles (snd (runTurns turns (tasks, st)))
  /\ exists sent,
       fetches (trace (snd (runTurns turns (tasks, st)))) = fetches (trace st) ++ sent
       /\ h ∉ sent.
Proof. apply Grows_not_sent, Grows_runTurns. Qed.

Lemma recorded_href_never_fetched_witness :
  exists sent,
    fetches
      (trace (snd (@runTurns literalEngine
                     [MutationBatch (crossOriginPage "https://cdn.example/a.css")]
                     ([], add_requested "https://cdn.example/a.css" initialState))))
    = fetches (trace (add_requested "https://cdn.example/a.css" initialState)) ++ sent
    /\ "https://cdn.example/a.css" ∉ sent.
Proof.
  refine (proj2 (@recorded_href_never_fetched literalEngine
            [MutationBatch (crossOriginPage "https://cdn.example/a.css")] []
            (add_requested "https://cdn.example/a.css" initialState)
            "https://cdn.example/a.css" _)).
  apply elem_of_union_l. by apply elem_of_singleton.
Defined.

Lemma createNewStyleTag_NoDup_witness :
  NoDup (selectors
           (sheet_cssRules
              (@createNewStyleTag literalEngine
                 [mkFFR ".a" "Bar"; mkFFR ".b" "Foo"]
                 (Some (mkStyle "" [@parsedRule literalEngine (mkFFR ".a" "Foo")]))))).
Proof.
  apply (@createNewStyleTag_NoDup literalEngine
           [mkFFR ".a" "Bar"; mkFFR ".b" "Foo"]
           (Some (mkStyle "" [@parsedRule literalEngine (mkFFR ".a" "Foo")]))).
  - apply NoDup_singleton.
  - apply NoDup_cons. split; [|apply NoDup_singleton].
    intros Hin. apply list_elem_of_singleton in Hin. discriminate Hin.
Defined.

(** * More on the scan pass *)

(** ** When a pass ends early *)

Lemma escapes_checksRaise (doc : Document) (sheet : StyleSheet) :
  escapes doc sheet = checksRaise sheet.
Proof.
  unfold escapes, checksRaise, fate.
  destruct (ownerNode sheet) as [owner|]; [|done].
  destruct (String.eqb (node_id owner) extentionStyleTagId); [done|].
  destruct (media sheet) as [m|]; [|done].
  destruct (includesString sheetMediaBlacklist (mediaText m)); [done|].
  destruct (cssRules sheet); [done|].
  destruct (href sheet) as [h|]; [|done].
  destruct (negb (truthy (Some h)) || negb (String.eqb (rel owner) "stylesheet")
            || bool_decide (h ∈ (∅ : gset string))); [done|].
  by destruct (querySelectorLink doc h).
Qed.

Lemma reached_all (doc : Document) (sheets : list StyleSheet) :
  (forall sheet, sheet ∈ sheets -> checksRaise sheet = false) ->
  reached doc sheets = sheets.
Proof.
  induction sheets as [|sheet rest IH]; intros Hall; [done|].
  simpl. rewrite escapes_checksRaise, (Hall sheet) by apply list_elem_of_here.
  f_equal. apply IH. intros s Hs. apply Hall. by apply list_elem_of_further.
Qed.

Section Completion.
Context `{HostEngine}.



End Completion.

(** ** What a pass leaves alone *)

Lemma Untouched_refl (st : State) : Untouched st st.
Proof. by repeat split. Qed.

Lemma Untouched_trans (st1 st2 st3 : State) :
  Untouched st1 st2 -> Untouched st2 st3 -> Untouched st1 st3.
Proof.
  intros (Hl1 & Hr1 & He1 & Ht1) (Hl2 & Hr2 & He2 & Ht2).
  repeat split; [congruence..|]. by etrans.
Qed.

Lemma Untouched_add_events (es : list Event) (st : State) :
  Untouched st (add_events es st).
Proof. repeat split. simpl. by apply prefix_app_r. Qed.

Lemma Untouched_add_requested (h : string) (st : State) :
  Untouched st (add_requested h st).
Proof. by repeat split. Qed.

Section Frame.
Context `{HostEngine}.

Lemma Untouched_updateStyleTag (doc : Document) (batch : list FontFamilyRule)
    (st : State) :
  Untouched st (updateStyleTag doc batch st).
Proof.
  unfold updateStyleTag.
  destruct (head_present doc); repeat split; simpl;
    rewrite <- app_assoc; by apply prefix_app_r.
Qed.

Lemma Untouched_scanAndUpdate (doc : Document) (rules : list CSSRule) (st : State) :
  Untouched st (scanAndUpdate doc rules st).
Proof.
  destruct (scanAndUpdate_spec doc rules st) as (logs & -> & _).
  eapply Untouched_trans; [apply (Untouched_add_events logs)|].
  apply Untouched_updateStyleTag.
Qed.

Lemma Untouched_processSheet (doc : Document) (sheetCount total : nat)
    (sheet : StyleSheet) (st : State) :
  Untouched st (finalState (processSheet doc sheetCount total sheet st)).
Proof.
  rewrite processSheet_fate.
  destruct (fate doc (requestedCssFiles st) sheet) as [| |rules|h linked|h];
    cbn [finalState].
  - apply Untouched_add_events.
  - apply Untouched_add_events.
  - eapply Untouched_trans; [apply Untouched_add_events|].
    apply Untouched_scanAndUpdate.
  - eapply Untouched_trans; [apply Untouched_add_events|].
    eapply Untouched_trans; [apply Untouched_add_requested|].
    eapply Untouched_trans; [apply Untouched_add_events|].
    apply Untouched_scanAndUpdate.
  - apply Untouched_add_events.
Qed.

Lemma Untouched_sheetsLoop (doc : Document) (total sheetCount : nat)
    (sheets : list StyleSheet) (st : State) :
  Untouched st (finalState (sheetsLoop doc total sheetCount sheets st)).
Proof.
  revert sheetCount st.
  induction sheets as [|sheet rest IH]; intros sheetCount st.
  - apply (Untouched_add_events [LogFinished total]).
  - cbn [sheetsLoop].
    pose proof (Untouched_processSheet doc (S sheetCount) total sheet st) as Hp.
    destruct (processSheet doc (S sheetCount) total sheet st) as [st1|st1];
      [|exact Hp].
    eapply Untouched_trans; [exact Hp|apply IH].
Qed.

(** X6.  The run counter counts the passes that ran to their end: the
    observer callback increments it once when the batch brought a new
    stylesheet and the pass completed, and leaves it alone when the gate
    found nothing new or when the pass ended with an exception.  The pass
    itself touches neither the counter, nor the known identifiers, nor the
    elements: the preserver works on the elements as they were before the
    callback, and after a pass that raised it has not run at all.  The
    trace is only appended to. *)
Theorem observer_runCount (doc : Document) (mutations : list MutationRecord)
    (st : State) :
  let changed := fst (styleSheetsChanged mutations (lastStyleSheets st)) in
  let result := observer doc mutations st in
  runCount (finalState result)
    = (if changed
       then match result with
            | Completed _ => S (runCount st)
            | Aborted _ => runCount st
            end
       else runCount st)
  /\ lastStyleSheets (finalState result)
     = snd (styleSheetsChanged mutations (lastStyleSheets st))
  /\ elements (finalState result)
     = match result with
       | Completed _ =>
           List.map (fun e => default e (preserveCustomFonts (Some e))) (elements st)
       | Aborted _ => elements st
       end
  /\ trace st `prefix_of` trace (finalState result).
Proof.
  intros changed result. unfold result, changed, observer.
  destruct (styleSheetsChanged mutations (lastStyleSheets st)) as [[|] known];
    cbn [fst snd].
  - pose proof (Untouched_sheetsLoop doc (List.length (styleSheets doc)) 0
                  (styleSheets doc) (log LogRunning (set_lastStyleSheets known st)))
      as (Hl & Hr & He & Ht).
    fold (updateFontFamilyRules doc (log LogRunning (set_lastStyleSheets known st)))
      in Hl, Hr, He, Ht.
    assert (Hpre : trace st `prefix_of`
                   trace (log LogRunning (set_lastStyleSheets known st)))
      by by apply prefix_app_r.
    destruct (updateFontFamilyRules doc (log LogRunning (set_lastStyleSheets known st)))
      as [st1|st1]; cbn [finalState] in *.
    + simpl. rewrite Hr, Hl, He. repeat split; try done. by etrans.
    + rewrite Hr, Hl, He. repeat split; try done. by etrans.
  - by repeat split.
Qed.

End Frame.
(** ** The override element after a pass *)

Lemma find_app {A} (f : A -> bool) (a b : list A) :
  find f (a ++ b) = match find f a with
                    | Some x => Some x
                    | None => find f b
                    end.
Proof. induction a as [|x a IH]; [done|]. simpl. by destruct (f x). Qed.

Lemma find_map {A B} (f : B -> bool) (g : A -> B) (l : list A) :
  find f (List.map g l) = g <$> find (fun x => f (g x)) l.
Proof. induction l as [|x l IH]; [done|]. simpl. by destruct (f (g x)). Qed.

Lemma find_filter {A} (f q : A -> bool) (l : list A) :
  (forall x, f x = true -> q x = true) ->
  find f (List.filter q l) = find f l.
Proof.
  intros Himp. induction l as [|x l IH]; [done|]. simpl.
  destruct (f x) eqn:Hf.
  - rewrite (Himp x Hf). simpl. by rewrite Hf.
  - destruct (q x); [|done]. simpl. by rewrite Hf.
Qed.

Lemma find_ext {A} (f g : A -> bool) (l : list A) :
  (forall x, f x = g x) -> find f l = find g l.
Proof.
  intros Hfg. induction l as [|x l IH]; [done|]. simpl. by rewrite Hfg, IH.
Qed.

Lemma firstFor_app (sel : string) (a b : list FontFamilyRule) :
  firstFor sel (a ++ b) = match firstFor sel a with
                          | Some rule => Some rule
                          | None => firstFor sel b
                          end.
Proof. apply find_app. Qed.

Section PassResult.
Context `{HostEngine}.

Lemma entryFor_none (sel : string) (rules : list CSSRule) (rule : FontFamilyRule) :
  entryFor sel rules = None -> selectorText rule = sel ->
  hasOld rules rule = false.
Proof.
  intros Hnone Hsel. apply hasOld_false. intros old Hin Hold.
  apply list_elem_of_In in Hin.
  pose proof (find_none _ _ Hnone old Hin) as Hf. simpl in Hf.
  rewrite Hold, Hsel in Hf. by rewrite bool_decide_eq_false in Hf.
Qed.

Lemma entryFor_createNewStyleTag (sel : string) (batch : list FontFamilyRule)
    (tag : option StyleElement) :
  entryFor sel (sheet_cssRules (createNewStyleTag batch tag))
  = match entryFor sel (overrideRules tag) with
    | Some old => Some old
    | None => parsedRule <$> firstFor sel batch
    end.
Proof.
  rewrite createNewStyleTag_rules. fold (overrideRules tag).
  unfold entryFor at 1. rewrite find_app. fold (entryFor sel (overrideRules tag)).
  destruct (entryFor sel (overrideRules tag)) as [old|] eqn:Hold; [done|].
  rewrite find_map. f_equal. unfold keptRules, firstFor.
  rewrite (find_ext _ (fun rule => String.eqb (selectorText rule) sel)).
  - apply find_filter. intros rule Hrule. apply String.eqb_eq in Hrule.
    by rewrite (entryFor_none sel (overrideRules tag) rule Hold Hrule).
  - intros rule. simpl. destruct (String.eqb (selectorText rule) sel) eqn:Heq.
    + apply String.eqb_eq in Heq. rewrite Heq. by apply bool_decide_eq_true.
    + apply String.eqb_neq in Heq. apply bool_decide_eq_false. congruence.
Qed.

Lemma corePass_tag (doc : Document) (sheets : list StyleSheet) (c : Core) :
  c_tag (corePass doc sheets c)
  = fold_left (fun tag batch => newTag doc batch tag)
              (passBatches doc (c_requested c) sheets) (c_tag c).
Proof.
  revert c. induction sheets as [|sheet rest IH]; intros c; [done|].
  cbn [corePass passBatches]. unfold coreStep.
  destruct (fate doc (c_requested c) sheet) as [| |rules|h linked|h];
    first [done | apply IH | by rewrite IH].
Qed.

End PassResult.

(** ** Nothing is taken out of the override stylesheet *)

Lemma Keeps_refl (st : State) : Keeps st st.
Proof. intros e He. by exists e. Qed.

Lemma Keeps_trans (st1 st2 st3 : State) :
  Keeps st1 st2 -> Keeps st2 st3 -> Keeps st1 st3.
Proof.
  intros H12 H23 e He. destruct (H12 e He) as (e2 & He2 & Hp2).
  destruct (H23 e2 He2) as (e3 & He3 & Hp3). exists e3. split; [done|]. by etrans.
Qed.

Lemma Keeps_same (st st' : State) :
  overrideTag st' = overrideTag st -> Keeps st st'.
Proof. intros Heq e He. exists e. by rewrite Heq. Qed.

Lemma entryFor_prefix (sel : string) (rules rules' : list CSSRule) (old : CSSRule) :
  rules `prefix_of` rules' -> entryFor sel rules = Some old ->
  entryFor sel rules' = Some old.
Proof.
  intros [more ->] Hold. unfold entryFor in *. by rewrite find_app, Hold.
Qed.

Section Kept.
Context `{HostEngine}.

Lemma Keeps_updateStyleTag (doc : Document) (batch : list FontFamilyRule)
    (st : State) :
  head_present doc = true -> Keeps st (updateStyleTag doc batch st).
Proof.
  intros Hhead e He. rewrite (updateStyleTag_with_head doc batch st Hhead).
  eexists. split; [done|]. rewrite createNewStyleTag_rules, He. simpl.
  by apply prefix_app_r.
Qed.

Lemma Keeps_scanAndUpdate (doc : Document) (rules : list CSSRule) (st : State) :
  head_present doc = true -> Keeps st (scanAndUpdate doc rules st).
Proof.
  intros Hhead. destruct (scanAndUpdate_spec doc rules st) as (logs & -> & _).
  eapply Keeps_trans; [apply (Keeps_same st (add_events logs st)); done|].
  by apply Keeps_updateStyleTag.
Qed.

Lemma Keeps_beginSheet (doc : Document) (sheetCount total : nat)
    (sheet : StyleSheet) (st : State) :
  head_present doc = true ->
  match beginSheet doc sheetCount total sheet st with
  | StepNext st' | StepAbort st' | StepAwait _ _ st' => Keeps st st'
  end.
Proof.
  intros Hhead. rewrite beginSheet_fate.
  destruct (fate doc (requestedCssFiles st) sheet) as [| |rules|h linked|h];
    try (by apply Keeps_same).
  eapply Keeps_trans; [|by apply Keeps_scanAndUpdate]. by apply Keeps_same.
Qed.

Lemma Keeps_resumeSheet (doc : Document) (sheetCount total : nat)
    (h : string) (p : Pending) (st : State) :
  head_present doc = true ->
  Keeps st (resumeSheet doc sheetCount total h p st).
Proof.
  intros Hhead. unfold resumeSheet.
  assert (Hend : overrideTag (snd (fetchCSSRulesFromUrl_end doc p st)) = overrideTag st).
  { unfold fetchCSSRulesFromUrl_end. destruct p as [| |url]; try done.
    destruct (fetch doc url); [|done]. by destruct (head_present doc). }
  destruct (fetchCSSRulesFromUrl_end doc p st) as [[rules|] st1]; cbn [snd] in Hend.
  - eapply Keeps_trans; [|by apply Keeps_scanAndUpdate]. by apply Keeps_same.
  - by apply Keeps_same.
Qed.

Lemma Keeps_runLoop (doc : Document) (total sheetCount : nat)
    (sheets : list StyleSheet) (st : State) :
  head_present doc = true ->
  Keeps st (snd (runLoop doc total sheetCount sheets st))
  /\ taskHasHead (fst (runLoop doc total sheetCount sheets st)).
Proof.
  intros Hhead. revert sheetCount st.
  induction sheets as [|sheet rest IH]; intros sheetCount st.
  - split; [by apply Keeps_same|done].
  - cbn [runLoop].
    pose proof (Keeps_beginSheet doc (S sheetCount) total sheet st Hhead) as Hb.
    destruct (beginSheet doc (S sheetCount) total sheet st) as [st1|st1|h p st1].
    + destruct (IH (S sheetCount) st1) as [Hk Ht]. split; [|done].
      by eapply Keeps_trans.
    + by split.
    + by split.
Qed.

Lemma Keeps_resumePass (t : Task) (st : State) :
  taskHasHead t ->
  Keeps st (snd (resumePass t st)) /\ taskHasHead (fst (resumePass t st)).
Proof.
  intros Ht. destruct t as [doc n h p rest| |]; cbn [resumePass].
  - simpl in Ht.
    destruct (Keeps_runLoop doc (List.length (styleSheets doc)) n rest
                (resumeSheet doc n (List.length (styleSheets doc)) h p st) Ht)
      as [Hk Hh].
    split; [|done]. eapply Keeps_trans; [|exact Hk]. by apply Keeps_resumeSheet.
  - split; [apply Keeps_refl|done].
  - split; [apply Keeps_refl|done].
Qed.

Lemma Keeps_turn (a : Turn) (tasks : list Task) (st : State) :
  turnHasHead a -> Forall taskHasHead tasks ->
  Keeps st (snd (turn a (tasks, st)))
  /\ Forall taskHasHead (fst (turn a (tasks, st))).
Proof.
  intros Ha Htasks. destruct a as [doc|i]; cbn [turn].
  - simpl in Ha. unfold startPass.
    destruct (Keeps_runLoop doc (List.length (styleSheets doc)) 0 (styleSheets doc)
                st Ha) as [Hk Hh].
    destruct (runLoop doc (List.length (styleSheets doc)) 0 (styleSheets doc) st)
      as [t st1]. cbn [fst snd] in *. split; [done|].
    apply Forall_app. split; [done|]. by apply Forall_singleton.
  - destruct (tasks !! i) as [t|] eqn:Hi.
    + assert (Ht : taskHasHead t)
        by exact (Forall_lookup_1 _ _ _ _ Htasks Hi).
      destruct (Keeps_resumePass t st Ht) as [Hk Hh].
      destruct (resumePass t st) as [t1 st1]. cbn [fst snd] in *.
      split; [done|]. by apply Forall_insert.
    + split; [apply Keeps_refl|done].
Qed.

Lemma Keeps_runTurns (turns : list Turn) (tasks : list Task) (st : State) :
  Forall turnHasHead turns -> Forall taskHasHead tasks ->
  Keeps st (snd (runTurns turns (tasks, st))).
Proof.
  revert tasks st. induction turns as [|a turns IH]; intros tasks st Hturns Htasks.
  - apply Keeps_refl.
  - rewrite runTurns_cons. apply Forall_cons in Hturns as [Ha Hturns].
    destruct (Keeps_turn a tasks st Ha Htasks) as [Hk Hh].
    destruct (turn a (tasks, st)) as [tasks1 st1]. cbn [fst snd] in *.
    eapply Keeps_trans; [exact Hk|]. by apply IH.
Qed.

(** X10.  As long as the document has a head, nothing is ever taken out of
    the override stylesheet or changed in it, with passes that overlap or
    not: the rule list only grows at its end, so the entry found for a
    selector stays the entry found for it. *)
Theorem override_rules_only_grow (turns : list Turn) (tasks : list Task)
    (st : State) (tag : StyleElement) :
  Forall turnHasHead turns ->
  Forall taskHasHead tasks ->
  overrideTag st = Some tag ->
  exists tag',
    overrideTag (snd (runTurns turns (tasks, st))) = Some tag'
    /\ sheet_cssRules tag `prefix_of` sheet_cssRules tag'
    /\ (forall sel old,
          entryFor sel (sheet_cssRules tag) = Some old ->
          entryFor sel (sheet_cssRules tag') = Some old).
Proof.
  intros Hturns Htasks Htag.
  destruct (Keeps_runTurns turns tasks st Hturns Htasks tag Htag) as (tag' & Ht & Hp).
  exists tag'. split; [done|]. split; [done|].
  intros sel old. by apply entryFor_prefix.
Qed.

End Kept.

Lemma override_rules_only_grow_witness :
  exists tag',
    overrideTag
      (snd (@runTurns literalEngine
              [MutationBatch (crossOriginPage "https://cdn.example/a.css");
               MutationBatch twoSheets; Response 0]
              ([], withOverride (mkStyle "" [pageRule ".a" "Kept"]))))
    = Some tag'
    /\ [pageRule ".a" "Kept"] `prefix_of` sheet_cssRules tag'
    /\ (forall sel old,
          entryFor sel [pageRule ".a" "Kept"] = Some old ->
          entryFor sel (sheet_cssRules tag') = Some old).
Proof.
  apply (@override_rules_only_grow literalEngine
           [MutationBatch (crossOriginPage "https://cdn.example/a.css");
            MutationBatch twoSheets; Response 0]
           [] (withOverride (mkStyle "" [pageRule ".a" "Kept"]))
           (mkStyle "" [pageRule ".a" "Kept"])).
  - repeat constructor.
  - constructor.
  - reflexivity.
Defined.

(** * More on the mutation gate *)

Lemma newStylesheet_relevant (known : gset string) (node : Node) :
  newStylesheet known node
  = relevantNode node && negb (bool_decide (newStylesheetIdentifier node ∈ known)).
Proof. reflexivity. Qed.

Lemma elem_of_identifiers (nodes : list Node) (i : string) :
  i ∈ List.map newStylesheetIdentifier (List.filter relevantNode nodes)
  <-> exists node, node ∈ nodes /\ relevantNode node = true
                   /\ newStylesheetIdentifier node = i.
Proof.
  rewrite list_elem_of_In, in_map_iff. split.
  - intros (node & Hid & Hin). apply filter_In in Hin as [Hin Hrel].
    exists node. by rewrite list_elem_of_In.
  - intros (node & Hin & Hrel & Hid). exists node. split; [done|].
    apply filter_In. by rewrite <- list_elem_of_In.
Qed.

Lemma fold_examineNode_known (nodes : list Node) (changed : bool) (known : gset string) :
  snd (fold_left examineNode nodes (changed, known))
  = known ∪ list_to_set
              (List.map newStylesheetIdentifier (List.filter relevantNode nodes)).
Proof.
  revert changed known. induction nodes as [|node rest IH]; intros changed known.
  - change (known = known ∪ ∅). by rewrite (right_id_L ∅ (∪)).
  - cbn [fold_left List.filter]. rewrite examineNode_cases, newStylesheet_relevant.
    destruct (relevantNode node) eqn:Hrel; cbn [andb].
    + cbn [List.map list_to_set]. case_bool_decide as Hin; cbn [negb].
      * rewrite IH. apply set_eq. intros x.
        rewrite !elem_of_union, elem_of_singleton. split; [tauto|].
        intros [Hx|[->|Hx]]; tauto.
      * rewrite IH. apply set_eq. intros x.
        rewrite !elem_of_union, elem_of_singleton. tauto.
    + apply IH.
Qed.

Lemma styleSheetsChanged_known (mutations : list MutationRecord) (known : gset string) :
  snd (styleSheetsChanged mutations known)
  = known ∪ list_to_set (addedIdentifiers mutations).
Proof. rewrite styleSheetsChanged_concat. apply fold_examineNode_known. Qed.

Lemma styleSheetsChanged_flag (mutations : list MutationRecord) (known : gset string) :
  fst (styleSheetsChanged mutations known) = true
  <-> exists i, i ∈ addedIdentifiers mutations /\ i ∉ known.
Proof.
  rewrite styleSheetsChanged_concat.
  pose proof (fold_examineNode (flat_map addedNodes mutations) false known) as Hf.
  cbv zeta in Hf. destruct Hf as (_ & Hiff & _). rewrite Hiff. split.
  - intros [Hc|(node & Hin & Hnew)]; [discriminate|].
    rewrite newStylesheet_relevant in Hnew. apply andb_true_iff in Hnew as [Hrel Hk].
    apply negb_true_iff, bool_decide_eq_false in Hk.
    exists (newStylesheetIdentifier node). split; [|done].
    apply elem_of_identifiers. by exists node.
  - intros (i & Hi & Hk). right.
    apply elem_of_identifiers in Hi as (node & Hin & Hrel & <-).
    exists node. split; [done|]. rewrite newStylesheet_relevant, Hrel. simpl.
    by apply negb_true_iff, bool_decide_eq_false.
Qed.

Lemma styleSheetsChanged_nothing_new (mutations : list MutationRecord)
    (known : gset string) :
  (forall i, i ∈ addedIdentifiers mutations -> i ∈ known) ->
  styleSheetsChanged mutations known = (false, known).
Proof.
  intros Hall.
  assert (Hflag : fst (styleSheetsChanged mutations known) = false).
  { destruct (fst (styleSheetsChanged mutations known)) eqn:Hf; [|done].
    apply styleSheetsChanged_flag in Hf as (i & Hi & Hk). destruct Hk. by apply Hall. }
  pose proof (styleSheetsChanged_known mutations known) as Hk.
  destruct (styleSheetsChanged mutations known) as [changed known1].
  cbn [fst snd] in *. subst changed. f_equal. rewrite Hk.
  apply set_eq. intros x. rewrite elem_of_union, elem_of_list_to_set.
  split; [|tauto]. intros [Hx|Hx]; [done|by apply Hall].
Qed.

(** X11.  What the gate computes depends on the added nodes only through
    the identifiers of the relevant ones (not the override element; a
    stylesheet link, a preload-as-style link or a style element): the set of
    known identifiers after the batch is the set before it with these
    identifiers added, and the batch counts as a change exactly when one of
    them was not known.  Neither the order of the records and nodes nor
    their grouping into records matters, and the set never loses an
    identifier. *)
Theorem styleSheetsChanged_identifiers (mutations : list MutationRecord)
    (known : gset string) :
  snd (styleSheetsChanged mutations known)
    = known ∪ list_to_set (addedIdentifiers mutations)
  /\ (fst (styleSheetsChanged mutations known) = true
      <-> exists i, i ∈ addedIdentifiers mutations /\ i ∉ known)
  /\ known ⊆ snd (styleSheetsChanged mutations known).
Proof.
  split; [apply styleSheetsChanged_known|]. split; [apply styleSheetsChanged_flag|].
  rewrite styleSheetsChanged_known. apply union_subseteq_l.
Qed.

Section Replay.
Context `{HostEngine}.

Lemma observer_known (doc : Document) (mutations : list MutationRecord) (st : State) :
  lastStyleSheets (finalState (observer doc mutations st))
  = snd (styleSheetsChanged mutations (lastStyleSheets st)).
Proof.
  unfold observer.
  destruct (styleSheetsChanged mutations (lastStyleSheets st)) as [[|] known];
    cbn [snd]; [|done].
  pose proof (Untouched_sheetsLoop doc (List.length (styleSheets doc)) 0
                (styleSheets doc) (log LogRunning (set_lastStyleSheets known st)))
    as (Hl & _).
  fold (updateFontFamilyRules doc (log LogRunning (set_lastStyleSheets known st)))
    in Hl.
  by destruct (updateFontFamilyRules doc (log LogRunning (set_lastStyleSheets known st))).
Qed.

Lemma observer_nothing_new (doc : Document) (mutations : list MutationRecord)
    (st : State) :
  (forall i, i ∈ addedIdentifiers mutations -> i ∈ lastStyleSheets st) ->
  observer doc mutations st = Completed (preserveAll st).
Proof.
  intros Hall. unfold observer.
  rewrite (styleSheetsChanged_nothing_new mutations (lastStyleSheets st) Hall).
  by destruct st.
Qed.

(** X12.  A batch delivered again starts no pass.  After the callback has
    handled a batch, whether its pass completed, ended with an exception or
    did not run, the same added nodes, at once or after any other batches,
    count as known: the callback only runs the preserver. *)
Theorem observer_replay (doc doc' : Document)
    (mutations : list MutationRecord) (between : list (Document * list MutationRecord))
    (st : State) :
  let st1 := finalState (observer doc mutations st) in
  let st2 :=
    fold_left (fun st batch => finalState (observer (fst batch) (snd batch) st))
              between st1 in
  observer doc' mutations st2 = Completed (preserveAll st2).
Proof.
  intros st1 st2. apply observer_nothing_new.
  assert (Hmono : forall bs s, lastStyleSheets s ⊆
            lastStyleSheets
              (fold_left (fun st batch =>
                            finalState (observer (fst batch) (snd batch) st)) bs s)).
  { induction bs as [|b bs IH]; intros s; [done|]. cbn [fold_left].
    etrans; [|apply IH]. rewrite observer_known, styleSheetsChanged_known.
    apply union_subseteq_l. }
  intros i Hi. apply (Hmono between st1). unfold st1.
  rewrite observer_known, styleSheetsChanged_known.
  apply elem_of_union_r. by apply elem_of_list_to_set.
Qed.

End Replay.

(** ** The stylesheets known at load *)

Lemma styleSheetIdentifiers_elem (sheets : list StyleSheet) (ids : list string)
    (sheet : StyleSheet) :
  styleSheetIdentifiers sheets = Ok ids -> sheet ∈ sheets ->
  exists i, styleSheetIdentifier sheet = Ok i /\ i ∈ ids.
Proof.
  revert ids. induction sheets as [|s rest IH]; intros ids Hids Hin.
  - by apply elem_of_nil in Hin.
  - cbn [styleSheetIdentifiers] in Hids.
    destruct (styleSheetIdentifier s) as [i|] eqn:Hs; [|discriminate].
    destruct (styleSheetIdentifiers rest) as [others|] eqn:Hrest; [|discriminate].
    injection Hids as <-.
    apply elem_of_cons in Hin as [->|Hin].
    + exists i. split; [done|apply list_elem_of_here].
    + destruct (IH others eq_refl Hin) as (j & Hj & Hjin).
      exists j. split; [done|]. by apply list_elem_of_further.
Qed.

Lemma styleSheetIdentifier_raises (sheet : StyleSheet) :
  styleSheetIdentifier sheet = Throw
  <-> truthy (href sheet) = false /\ ownerNode sheet = None.
Proof.
  unfold styleSheetIdentifier.
  destruct (href sheet) as [h|]; [destruct (truthy (Some h)) eqn:Ht|];
    destruct (ownerNode sheet); split; try done; by intros [? ?].
Qed.

Lemma ownerOf_identifier (sheet : StyleSheet) (node : Node) :
  ownerOf sheet node ->
  styleSheetIdentifier sheet = Ok (newStylesheetIdentifier node).
Proof.
  intros (Howner & Hlink & Hstyle).
  unfold styleSheetIdentifier, newStylesheetIdentifier. rewrite Howner.
  destruct (isStylesheet node).
  - destruct (Hlink eq_refl) as [-> Hne]. unfold truthy.
    apply String.eqb_neq in Hne. by rewrite Hne.
  - specialize (Hstyle eq_refl). destruct (href sheet) as [h|]; [|done].
    by rewrite Hstyle.
Qed.

(** X13.  Line 213 raises, and the script ends before the observer is
    created, exactly when the document as loaded has a sheet with neither a
    usable href (none, or the empty string) nor an owner node. *)
Theorem lastStyleSheets_init_raises (doc : Document) :
  lastStyleSheets_init doc = Throw
  <-> exists sheet, sheet ∈ styleSheets doc
                    /\ truthy (href sheet) = false /\ ownerNode sheet = None.
Proof.
  unfold lastStyleSheets_init.
  assert (Hids : forall sheets,
            styleSheetIdentifiers sheets = Throw
            <-> exists sheet, sheet ∈ sheets /\ styleSheetIdentifier sheet = Throw).
  { induction sheets as [|s rest IH].
    - split; [done|]. intros (sheet & Hin & _). by apply elem_of_nil in Hin.
    - cbn [styleSheetIdentifiers].
      destruct (styleSheetIdentifier s) as [i|] eqn:Hs.
      + destruct (styleSheetIdentifiers rest) as [others|].
        * split; [done|]. intros (sheet & Hin & Hraise).
          apply elem_of_cons in Hin as [->|Hin]; [congruence|].
          assert (Hex : exists sheet, sheet ∈ rest /\ styleSheetIdentifier sheet = Throw)
            by by exists sheet.
          apply IH in Hex. discriminate.
        * split; [|done]. intros _.
          destruct (proj1 IH eq_refl) as (sheet & Hin & Hraise).
          exists sheet. split; [by apply list_elem_of_further|done].
      + split; [|done]. intros _. exists s. split; [apply list_elem_of_here|done]. }
  destruct (styleSheetIdentifiers (styleSheets doc)) as [ids|] eqn:Hdoc.
  - split; [done|]. intros (sheet & Hin & Hraise).
    assert (Hex : exists sheet, sheet ∈ styleSheets doc
                                /\ styleSheetIdentifier sheet = Throw).
    { exists sheet. split; [done|]. by apply styleSheetIdentifier_raises. }
    apply Hids in Hex. congruence.
  - split; [|done]. intros _. destruct (proj1 (Hids _) Hdoc) as (sheet & Hin & Hraise).
    exists sheet. split; [done|]. by apply styleSheetIdentifier_raises.
Qed.

(** X14.  The stylesheets the document had at load are known to the gate.
    When line 213 did not raise, a batch whose relevant added nodes are all
    owners of sheets the document had at load (a link with the href of its
    sheet, a style element with its text) is no change, at any later time:
    the known identifiers are left as they are and no pass starts. *)
Theorem known_at_load_is_no_change (doc : Document) (known known' : gset string)
    (mutations : list MutationRecord) :
  lastStyleSheets_init doc = Ok known ->
  known ⊆ known' ->
  (forall node, node ∈ flat_map addedNodes mutations -> relevantNode node = true ->
                exists sheet, sheet ∈ styleSheets doc /\ ownerOf sheet node) ->
  styleSheetsChanged mutations known' = (false, known').
Proof.
  intros Hinit Hsub Hnodes. apply styleSheetsChanged_nothing_new.
  intros i Hi. apply Hsub.
  apply elem_of_identifiers in Hi as (node & Hin & Hrel & <-).
  destruct (Hnodes node Hin Hrel) as (sheet & Hsheet & Hown).
  unfold lastStyleSheets_init in Hinit.
  destruct (styleSheetIdentifiers (styleSheets doc)) as [ids|] eqn:Hids;
    [|discriminate].
  injection Hinit as <-.
  destruct (styleSheetIdentifiers_elem _ _ _ Hids Hsheet) as (j & Hj & Hjin).
  rewrite (ownerOf_identifier sheet node Hown) in Hj. injection Hj as <-.
  by apply elem_of_list_to_set.
Qed.

Lemma known_at_load_is_no_change_witness :
  styleSheetsChanged
    [mkMutation [linkNode "https://cdn.example/a.css"];
     mkMutation [mkNode "DIV" "" "" "" "" "text"; styleNode]]
    ({["https://cdn.example/a.css"]} ∪ ({[""]} ∪ ∅))
  = (false, {["https://cdn.example/a.css"]} ∪ ({[""]} ∪ ∅)).
Proof.
  apply (known_at_load_is_no_change
           (pageOf [crossOriginSheet "https://cdn.example/a.css"; inlineSheet []])
           ({["https://cdn.example/a.css"]} ∪ ({[""]} ∪ ∅))).
  - reflexivity.
  - done.
  - intros node Hin Hrel. cbn in Hin.
    apply elem_of_cons in Hin as [->|Hin].
    { exists (crossOriginSheet "https://cdn.example/a.css").
      split; [apply list_elem_of_here|]. by repeat split. }
    apply elem_of_cons in Hin as [->|Hin]; [discriminate Hrel|].
    apply list_elem_of_singleton in Hin as ->.
    exists (inlineSheet []).
    split; [apply list_elem_of_further, list_elem_of_here|]. by repeat split.
Defined.

(** * More on the rule extractor and the collector *)

(** X15.  How [fetchCSSRulesFromUrl] can end.  It raises in one case only,
    when [querySelector] rejects the selector made from the href; a missing
    link element, a failed request and a missing head all give the empty
    list.  The fetched rules are returned only when the link element is
    there, the request succeeded and the document has a head.  One request
    is sent when the link element is there, none otherwise.  The function
    neither touches the override element, nor records the href, nor calls
    the builder. *)
Theorem fetchCSSRulesFromUrl_outcome (doc : Document) (styleHref : string)
    (st : State) :
  let result := fetchCSSRulesFromUrl doc styleHref st in
  (fst result = Throw <-> querySelectorLink doc styleHref = Throw)
  /\ (forall rules,
        fst result = Ok rules ->
        rules = []
        \/ (querySelectorLink doc styleHref = Ok true
            /\ fetch doc styleHref = Ok rules /\ head_present doc = true))
  /\ (forall rules,
        querySelectorLink doc styleHref = Ok true ->
        fetch doc styleHref = Ok rules -> head_present doc = true ->
        fst result = Ok rules)
  /\ fetches (trace (snd result))
     = fetches (trace st)
         ++ match querySelectorLink doc styleHref with
            | Ok true => [styleHref]
            | _ => []
            end
  /\ builderCalls (trace (snd result)) = builderCalls (trace st)
  /\ overrideTag (snd result) = overrideTag st
  /\ requestedCssFiles (snd result) = requestedCssFiles st.
Proof.
  intros result. unfold result, fetchCSSRulesFromUrl, fetchCSSRulesFromUrl_begin.
  destruct (querySelectorLink doc styleHref) as [[|]|];
    cbn [fetchCSSRulesFromUrl_end].
  - destruct (fetch doc styleHref) as [fetched|]; [destruct (head_present doc)|];
      cbn [fst snd]; simpl; rewrite ?fetches_app, ?builderCalls_app; simpl;
      rewrite ?app_nil_r.
    + split; [split; discriminate|]. split; [intros rules [= <-]; by right|].
      split; [by intros rules _ [= ->]|]. done.
    + split; [split; discriminate|]. split; [intros rules [= <-]; by left|].
      split; [discriminate|]. done.
    + split; [split; discriminate|]. split; [intros rules [= <-]; by left|].
      split; [discriminate|]. done.
  - cbn [fst snd]; simpl; rewrite ?fetches_app, ?builderCalls_app; simpl;
      rewrite ?app_nil_r.
    split; [split; discriminate|]. split; [intros rules [= <-]; by left|].
    split; [discriminate|]. done.
  - cbn [fst snd]; simpl; rewrite ?fetches_app, ?builderCalls_app; simpl;
      rewrite ?app_nil_r.
    split; [done|]. split; [discriminate|]. split; [discriminate|]. done.
Qed.

Section FailedFetch.
Context `{HostEngine}.

Lemma fate_requested_skip (doc : Document) (requested : gset string)
    (owner : Node) (m : MediaList) (h : string) :
  node_id owner <> extentionStyleTagId ->
  includesString sheetMediaBlacklist (mediaText m) = false ->
  h ∈ requested ->
  fate doc requested (mkSheet (Some owner) (Some m) (Some h) Throw) = FateSkip.
Proof.
  intros Hid Hm Hreq. unfold fate. cbn [ownerNode media cssRules href].
  apply String.eqb_neq in Hid. rewrite Hid, Hm.
  rewrite (bool_decide_eq_true_2 _ Hreq). by rewrite orb_true_r.
Qed.

(** X16.  A fallback fetch that fails is not tried again.  When the rules
    of a linked sheet cannot be read, its link element is found and the
    request is sent, but the request fails (or the document has no head to
    parse the text in), the function returns the empty list, the href is
    recorded all the same and the builder is called with the empty batch.
    From then on the sheet is skipped by every pass, on any state of the
    document: its rules are never collected. *)
Theorem failed_fetch_is_recorded (doc : Document) (owner : Node) (m : MediaList)
    (h : string) (sheetCount total : nat) (st : State) :
  node_id owner <> extentionStyleTagId ->
  includesString sheetMediaBlacklist (mediaText m) = false ->
  h <> "" ->
  rel owner = "stylesheet" ->
  h ∉ requestedCssFiles st ->
  querySelectorLink doc h = Ok true ->
  fetch doc h = Throw \/ head_present doc = false ->
  fetchCSSRulesFromUrl doc h st
    = (Ok [], add_events [LogFetching h; NetworkFetch h; LogErrFetching] st)
  /\ exists st',
       processSheet doc sheetCount total
         (mkSheet (Some owner) (Some m) (Some h) Throw) st = Completed st'
       /\ h ∈ requestedCssFiles st'
       /\ fetches (trace st') = fetches (trace st) ++ [h]
       /\ builderCalls (trace st') = builderCalls (trace st) ++ [[]]
       /\ (forall doc' sheetCount' total' st'',
             h ∈ requestedCssFiles st'' ->
             processSheet doc' sheetCount' total'
               (mkSheet (Some owner) (Some m) (Some h) Throw) st''
             = Completed (add_events [LogProcessingSheet sheetCount' total'] st'')).
Proof.
  intros Hid Hm Hh Hrel Hreq Hlink Hfail.
  assert (Hrules : fetchedRules doc h true = []).
  { unfold fetchedRules. destruct Hfail as [->| ->]; [done|].
    by destruct (fetch doc h). }
  split.
  { unfold fetchCSSRulesFromUrl, fetchCSSRulesFromUrl_begin. rewrite Hlink.
    cbn [fetchCSSRulesFromUrl_end].
    destruct Hfail as [->|Hhead].
    - unfold add_events, log, emit. simpl. by rewrite <- !app_assoc.
    - rewrite Hhead. destruct (fetch doc h);
        unfold add_events, log, emit; simpl; by rewrite <- !app_assoc. }
  pose proof (fate_fallback doc (requestedCssFiles st) owner m h Hid Hm Hh Hrel Hreq)
    as Hfate. rewrite Hlink in Hfate.
  pose proof (processSheet_fate doc sheetCount total
                (mkSheet (Some owner) (Some m) (Some h) Throw) st) as Hproc.
  rewrite Hfate, Hrules in Hproc. eexists. split; [exact Hproc|].
  pose proof (core_processSheet doc sheetCount total
                (mkSheet (Some owner) (Some m) (Some h) Throw) st) as Hcore.
  rewrite Hproc in Hcore. simpl finalState in Hcore.
  unfold coreStep in Hcore.
  change (c_requested (core st)) with (requestedCssFiles st) in Hcore.
  rewrite Hfate, Hrules in Hcore.
  match type of Hcore with core ?s = _ => set (st' := s) in * end.
  assert (Hin : h ∈ requestedCssFiles st').
  { pose proof (f_equal c_requested Hcore) as Hreq'. simpl in Hreq'.
    change (c_requested (core st')) with (requestedCssFiles st') in Hreq'.
    rewrite Hreq'. apply elem_of_union_l. by apply elem_of_singleton. }
  split; [exact Hin|]. split.
  { apply (f_equal c_fetches) in Hcore. exact Hcore. }
  split.
  { apply (f_equal c_calls) in Hcore. exact Hcore. }
  intros doc' sheetCount' total' st'' Hin'.
  rewrite processSheet_fate.
  by rewrite (fate_requested_skip doc' (requestedCssFiles st'') owner m h Hid Hm Hin').
Qed.

End FailedFetch.

Lemma failed_fetch_is_recorded_witness :
  exists st',
    @processSheet literalEngine
      (mkDoc [crossOriginSheet "https://cdn.example/a.css"] true
             (fun _ => Ok true) (fun _ => Throw))
      1 1 (crossOriginSheet "https://cdn.example/a.css") initialState
    = Completed st'
    /\ "https://cdn.example/a.css" ∈ requestedCssFiles st'
    /\ fetches (trace st') = fetches (trace initialState) ++ ["https://cdn.example/a.css"]
    /\ builderCalls (trace st') = builderCalls (trace initialState) ++ [[]]
    /\ (forall doc' sheetCount' total' st'',
          "https://cdn.example/a.css" ∈ requestedCssFiles st'' ->
          @processSheet literalEngine doc' sheetCount' total'
            (crossOriginSheet "https://cdn.example/a.css") st''
          = Completed (add_events [LogProcessingSheet sheetCount' total'] st'')).
Proof.
  refine (proj2 (@failed_fetch_is_recorded literalEngine
            (mkDoc [crossOriginSheet "https://cdn.example/a.css"] true
                   (fun _ => Ok true) (fun _ => Throw))
            (linkNode "https://cdn.example/a.css") (mkMedia "")
            "https://cdn.example/a.css" 1 1 initialState _ _ _ _ _ _ _)).
  - discriminate.
  - reflexivity.
  - discriminate.
  - reflexivity.
  - apply not_elem_of_empty.
  - reflexivity.
  - by left.
Defined.

(** ** What the collector leaves out *)

Lemma toLowerCase_append (a b : string) :
  toLowerCase (a +:+ b) = toLowerCase a +:+ toLowerCase b.
Proof.
  induction a as [|c a IH]; [done|].
  rewrite append_cons. cbn [toLowerCase]. by rewrite append_cons, IH.
Qed.

Lemma includes_append_mid (a b c : string) : includes (a +:+ b +:+ c) b = true.
Proof.
  assert (Hb : includes (b +:+ c) b = true).
  { pose proof (startsWith_append b c) as Hs.
    destruct (b +:+ c); simpl; by rewrite Hs. }
  induction a as [|x a IH]; [exact Hb|].
  rewrite append_cons. simpl.
  destruct (startsWith b (String x (a +:+ b +:+ c))); [done|exact IH].
Qed.

Lemma candidate_replacement (rule : CSSRule) (pre name post : string) :
  style_fontFamily rule = Some (pre +:+ name +:+ post) ->
  toLowerCase name = toLowerCase replacementFontName ->
  candidate rule = None.
Proof.
  intros Hff Hname. unfold candidate. rewrite Hff.
  destruct (negb (truthy (Some (pre +:+ name +:+ post)))
            || negb (truthy (css_selectorText rule))); [done|].
  destruct (String.eqb (pre +:+ name +:+ post) "inherit"); [done|].
  by rewrite !toLowerCase_append, Hname, includes_append_mid.
Qed.

(** X17.  A rule whose font-family value holds the replacement font name,
    in whatever mix of upper and lower case and wherever in the value, is
    never collected. *)
Theorem candidate_excludes_replacement (rule : CSSRule) (pre name post : string) :
  style_fontFamily rule = Some (pre +:+ name +:+ post) ->
  toLowerCase name = toLowerCase replacementFontName ->
  candidate rule = None.
Proof. apply candidate_replacement. Qed.

Lemma candidate_excludes_replacement_witness :
  candidate (pageRule "h1" "serif, 'TWEMOJI country FLAGS', Arial") = None.
Proof.
  apply (candidate_excludes_replacement
           (pageRule "h1" "serif, 'TWEMOJI country FLAGS', Arial")
           "serif, '" "TWEMOJI country FLAGS" "', Arial"); reflexivity.
Defined.

(** X18.  What the builder writes is never collected, with an engine that
    reads a written declaration back with the replacement font still named
    in it or drops it: the collector lets through no rule of the override
    stylesheet, so a sheet made of such rules, wherever it is found and
    whatever id its owner carries, gives the empty batch. *)
Theorem parsedRule_never_collected `{HostEngine} (written : list FontFamilyRule) :
  KeepsFontName ->
  omap candidate (List.map parsedRule written) = []
  /\ forall rule, candidate (parsedRule rule) = None.
Proof.
  intros Hkeeps.
  assert (Hone : forall rule, candidate (parsedRule rule) = None).
  { intros rule. unfold candidate, parsedRule. cbn [style_fontFamily css_selectorText].
    destruct (Hkeeps rule) as [Hempty|Hname].
    - by rewrite Hempty.
    - destruct (negb (truthy (Some (readFontFamily (declaredValue rule))))
                || negb (truthy (Some (selectorText rule)))); [done|].
      destruct (String.eqb (readFontFamily (declaredValue rule)) "inherit"); [done|].
      by rewrite Hname. }
  split; [|exact Hone].
  induction written as [|rule rest IH]; [done|].
  change (omap candidate (List.map parsedRule (rule :: rest)))
    with (match candidate (parsedRule rule) with
          | Some collected => collected :: omap candidate (List.map parsedRule rest)
          | None => omap candidate (List.map parsedRule rest)
          end).
  by rewrite Hone.
Qed.

Lemma requote_append (a b : string) : requote (a +:+ b) = requote a +:+ requote b.
Proof.
  induction a as [|c a IH]; [done|].
  rewrite append_cons. cbn [requote]. by rewrite append_cons, IH.
Qed.

Lemma quotingEngine_KeepsFontName : @KeepsFontName quotingEngine.
Proof.
  intros rule. right. unfold declaredValue. cbn [readFontFamily quotingEngine].
  rewrite !requote_append, !toLowerCase_append.
  change (requote replacementFontName) with replacementFontName.
  apply includes_append_mid.
Qed.

Lemma parsedRule_never_collected_witness :
  omap candidate
    (List.map (@parsedRule quotingEngine) [mkFFR ".a" "Foo"; mkFFR ".b" "Bar, serif"])
  = []
  /\ forall rule, candidate (@parsedRule quotingEngine rule) = None.
Proof.
  exact (@parsedRule_never_collected quotingEngine
           [mkFFR ".a" "Foo"; mkFFR ".b" "Bar, serif"] quotingEngine_KeepsFontName).
Defined.

(** * More on the inline style preserver *)

(** ** What a match of the pattern is *)

Lemma starGreedy_spaces {R} (k : string -> string -> option R)
    (s taken : string) (r : R) :
  starGreedy isSpace k taken s = Some r ->
  exists sp rest,
    s = sp +:+ rest /\ allSpaces sp = true /\ k (taken +:+ sp) rest = Some r.
Proof.
  revert taken. induction s as [|c s IH]; intros taken Hr.
  - cbn [starGreedy] in Hr. exists "", "". by rewrite (append_nil_r taken).
  - cbn [starGreedy] in Hr. destruct (isSpace c) eqn:Hc.
    + destruct (starGreedy isSpace k (taken +:+ String c "") s) as [r'|] eqn:Hs.
      * injection Hr as ->. destruct (IH _ Hs) as (sp & rest & -> & Hsp & Hk).
        exists (String c sp), rest. rewrite append_cons. split; [done|].
        split; [by simpl; rewrite Hc|]. by rewrite append_assoc in Hk.
      * exists "", (String c s). by rewrite (append_nil_r taken).
    + exists "", (String c s). by rewrite (append_nil_r taken).
Qed.

Lemma plusLazy_chars {R} (k : string -> string -> option R)
    (s taken : string) (r : R) :
  plusLazy notSemicolon k taken s = Some r ->
  exists v rest,
    s = v +:+ rest /\ v <> "" /\ noSemicolon v = true
    /\ k (taken +:+ v) rest = Some r.
Proof.
  revert taken. induction s as [|c s IH]; intros taken Hr; [discriminate|].
  cbn [plusLazy] in Hr. destruct (notSemicolon c) eqn:Hc; [|discriminate].
  cbv zeta in Hr.
  destruct (k (taken +:+ String c "") s) as [r'|] eqn:Hk.
  - injection Hr as ->. exists (String c ""), s. split; [done|]. split; [done|].
    split; [by simpl; rewrite Hc|done].
  - destruct (IH _ Hr) as (v & rest & -> & _ & Hv & Hk').
    exists (String c v), rest. rewrite append_cons. split; [done|]. split; [done|].
    split; [by simpl; rewrite Hc|]. by rewrite append_assoc in Hk'.
Qed.

Lemma startsWith_split (w s : string) :
  startsWith w s = true -> s = w +:+ dropChars (String.length w) s.
Proof.
  revert s. induction w as [|a w IH]; intros s Hs; [done|].
  destruct s as [|b s]; [discriminate|]. simpl in Hs.
  destruct (Ascii.eqb a b) eqn:Hab; [|discriminate].
  apply Ascii.eqb_eq in Hab as ->. rewrite append_cons. simpl. f_equal. by apply IH.
Qed.

Lemma lit_split {R} (w : string) (k : string -> option R) (s : string) (r : R) :
  lit w k s = Some r -> exists rest, s = w +:+ rest /\ k rest = Some r.
Proof.
  unfold lit. destruct (startsWith w s) eqn:Hw; [|discriminate]. intros Hk.
  exists (dropChars (String.length w) s). split; [by apply startsWith_split|done].
Qed.

Lemma reTail_split (g1 : string) (g2 : option string) (s : string) (m : Match) :
  reTail g1 g2 s = Some m ->
  m = mkMatch g1 g2
  /\ exists sp rest,
       s = sp +:+ rest /\ allSpaces sp = true
       /\ (rest = "" \/ startsWith ";" rest = true).
Proof.
  intros Hm. split; [by apply (reTail_result g1 g2 s)|].
  apply starGreedy_spaces in Hm as (sp & rest & -> & Hsp & Hk).
  exists sp, rest. split; [done|]. split; [done|].
  destruct rest as [|c rest]; [by left|]. right.
  destruct (Ascii.eqb c ";") eqn:Hc; [|discriminate].
  apply Ascii.eqb_eq in Hc as ->. reflexivity.
Qed.

Lemma reImportant_split (g1 s : string) (m : Match) :
  reImportant g1 s = Some m ->
  group1 m = g1
  /\ exists mark sp rest,
       s = mark +:+ sp +:+ rest /\ allSpaces sp = true
       /\ (rest = "" \/ startsWith ";" rest = true)
       /\ match group2 m with
          | None => mark = ""
          | Some g =>
              g = mark
              /\ exists sp0, allSpaces sp0 = true /\ mark = sp0 +:+ "!important"
          end.
Proof.
  unfold reImportant.
  destruct (starGreedy isSpace
              (fun sp s => lit "!important" (reTail g1 (Some (sp +:+ "!important"))) s)
              "" s) as [m'|] eqn:Hfirst.
  - intros [= ->].
    apply starGreedy_spaces in Hfirst as (sp0 & rest0 & -> & Hsp0 & Hk).
    apply lit_split in Hk as (rest1 & -> & Hk).
    apply reTail_split in Hk as (-> & sp & rest & -> & Hsp & Hrest).
    split; [done|]. exists (sp0 +:+ "!important"), sp, rest.
    split; [by rewrite !append_assoc|]. split; [done|]. split; [done|].
    cbn [group2]. split; [done|]. by exists sp0.
  - intros Hm. apply reTail_split in Hm as (-> & sp & rest & -> & Hsp & Hrest).
    split; [done|]. exists "", sp, rest. by repeat split.
Qed.

Lemma matchHere_split (s : string) (m : Match) :
  matchHere s = Some m ->
  exists ws1 ws2 mark ws3 rest,
    s = "font-family" +:+ ws1 +:+ ":" +:+ ws2 +:+ group1 m +:+ mark +:+ ws3 +:+ rest
    /\ allSpaces ws1 = true /\ allSpaces ws2 = true /\ allSpaces ws3 = true
    /\ group1 m <> "" /\ noSemicolon (group1 m) = true
    /\ (rest = "" \/ startsWith ";" rest = true)
    /\ match group2 m with
       | None => mark = ""
       | Some g =>
           g = mark
           /\ exists sp0, allSpaces sp0 = true /\ mark = sp0 +:+ "!important"
       end.
Proof.
  unfold matchHere. intros Hm.
  apply lit_split in Hm as (s1 & -> & Hm).
  apply starGreedy_spaces in Hm as (ws1 & s2 & -> & Hws1 & Hm).
  apply lit_split in Hm as (s3 & -> & Hm).
  apply starGreedy_spaces in Hm as (ws2 & s4 & -> & Hws2 & Hm).
  apply plusLazy_chars in Hm as (v & s5 & -> & Hne & Hv & Hm).
  apply reImportant_split in Hm as (Hg1 & mark & ws3 & rest & -> & Hws3 & Hrest & Hg2).
  change ("" +:+ v) with v in Hg1. subst v.
  exists ws1, ws2, mark, ws3, rest. by repeat split.
Qed.

Lemma exec_split (s : string) (m : Match) :
  fontFamilyRegex_exec s = Some m ->
  exists pre s', s = pre +:+ s' /\ matchHere s' = Some m.
Proof.
  induction s as [|c s IH]; cbn [fontFamilyRegex_exec].
  - destruct (matchHere "") as [m'|] eqn:Hm; [|discriminate].
    intros [= ->]. by exists "", "".
  - destruct (matchHere (String c s)) as [m'|] eqn:Hm.
    + intros [= ->]. by exists "", (String c s).
    + intros Hs. destruct (IH Hs) as (pre & s' & -> & Hm').
      by exists (String c pre), s'.
Qed.

Lemma exec_sound (s : string) (m : Match) :
  fontFamilyRegex_exec s = Some m ->
  exists pre ws1 ws2 mark ws3 rest,
    s = pre +:+ "font-family" +:+ ws1 +:+ ":" +:+ ws2 +:+ group1 m
          +:+ mark +:+ ws3 +:+ rest
    /\ allSpaces ws1 = true /\ allSpaces ws2 = true /\ allSpaces ws3 = true
    /\ group1 m <> "" /\ noSemicolon (group1 m) = true
    /\ (rest = "" \/ startsWith ";" rest = true)
    /\ match group2 m with
       | None => mark = ""
       | Some g =>
           g = mark
           /\ exists sp0, allSpaces sp0 = true /\ mark = sp0 +:+ "!important"
       end.
Proof.
  intros Hs. apply exec_split in Hs as (pre & s' & -> & Hm).
  apply matchHere_split in Hm
    as (ws1 & ws2 & mark & ws3 & rest & -> & H1 & H2 & H3 & Hne & Hv & Hrest & Hg2).
  by exists pre, ws1, ws2, mark, ws3, rest.
Qed.

Lemma exec_marked (s : string) (m : Match) :
  fontFamilyRegex_exec s = Some m ->
  hasIsImportant m = match group2 m with Some _ => true | None => false end.
Proof.
  intros Hs.
  destruct (exec_sound s m Hs) as (_ & _ & _ & mark & _ & _ & _ & _ & _ & _ & _ & _ & _ & Hg2).
  unfold hasIsImportant. destruct (group2 m) as [g|]; [|done].
  destruct Hg2 as (-> & sp0 & _ & ->). apply includes_append_r.
Qed.

(** X19.  What a match of the pattern of line 198 is.  When [exec] finds a
    match, the text is: anything, then [font-family], spaces, a colon,
    spaces, group 1, the part group 2 stands for, spaces, and then the end
    of the text or a semicolon.  Group 1 is not empty and holds no
    semicolon.  Group 2, when it took part, is spaces followed by
    [!important]; so the test of line 205 is true exactly when group 2 took
    part in the match. *)
Theorem fontFamilyRegex_exec_sound (inlineStyle : string) (m : Match) :
  fontFamilyRegex_exec inlineStyle = Some m ->
  (exists pre ws1 ws2 mark ws3 rest,
     inlineStyle = pre +:+ "font-family" +:+ ws1 +:+ ":" +:+ ws2 +:+ group1 m
                     +:+ mark +:+ ws3 +:+ rest
     /\ allSpaces ws1 = true /\ allSpaces ws2 = true /\ allSpaces ws3 = true
     /\ group1 m <> "" /\ noSemicolon (group1 m) = true
     /\ (rest = "" \/ startsWith ";" rest = true)
     /\ match group2 m with
        | None => mark = ""
        | Some g =>
            g = mark
            /\ exists sp0, allSpaces sp0 = true /\ mark = sp0 +:+ "!important"
        end)
  /\ hasIsImportant m = match group2 m with Some _ => true | None => false end.
Proof. intros Hs. split; [by apply exec_sound|by apply (exec_marked inlineStyle)]. Qed.

Lemma fontFamilyRegex_exec_sound_witness :
  (exists pre ws1 ws2 mark ws3 rest,
     "color: red; font-family : Arial , sans-serif  !important ; margin: 0"
     = pre +:+ "font-family" +:+ ws1 +:+ ":" +:+ ws2 +:+ "Arial , sans-serif"
         +:+ mark +:+ ws3 +:+ rest
     /\ allSpaces ws1 = true /\ allSpaces ws2 = true /\ allSpaces ws3 = true
     /\ "Arial , sans-serif" <> "" /\ noSemicolon "Arial , sans-serif" = true
     /\ (rest = "" \/ startsWith ";" rest = true)
     /\ ("  !important" = mark
         /\ exists sp0, allSpaces sp0 = true /\ mark = sp0 +:+ "!important"))
  /\ hasIsImportant (mkMatch "Arial , sans-serif" (Some "  !important")) = true.
Proof.
  exact (fontFamilyRegex_exec_sound
           "color: red; font-family : Arial , sans-serif  !important ; margin: 0"
           (mkMatch "Arial , sans-serif" (Some "  !important")) eq_refl).
Defined.

Section PreserverByMatch.
Context `{HostEngine}.

(** X20.  The preserver is decided by the match alone.  An element without
    [style] attribute, or whose attribute the pattern does not match, or
    whose match has group 2, is left as it is; an element whose match has no
    group 2 gets the trimmed group 1 set with priority [important].  The
    tests of line 194 (attribute not empty, [font-family] in it) and the
    [includes] of line 205 never decide otherwise. *)
Theorem preserveCustomFonts_by_match (e : Element) :
  preserveCustomFonts (Some e)
  = match style_attr e with
    | None => Some e
    | Some inlineStyle =>
        match fontFamilyRegex_exec inlineStyle with
        | None => Some e
        | Some m =>
            match group2 m with
            | Some _ => Some e
            | None =>
                Some (mkElement
                        (Some (setFontFamilyImportant inlineStyle (trim (group1 m)))))
            end
        end
    end.
Proof.
  destruct (style_attr e) as [inlineStyle|] eqn:Hattr;
    [|by unfold preserveCustomFonts; rewrite Hattr].
  destruct (fontFamilyRegex_exec inlineStyle) as [m|] eqn:Hm.
  - pose proof (exec_marked inlineStyle m Hm) as Hmark.
    destruct (group2 m) as [g|].
    + by apply (preserveCustomFonts_important e inlineStyle m).
    + by apply (preserveCustomFonts_rewrites e inlineStyle m).
  - unfold preserveCustomFonts. rewrite Hattr, Hm.
    by destruct (negb (truthy (Some inlineStyle))
                 || negb (includes inlineStyle "font-family")).
Qed.

End PreserverByMatch.

(** ** Which texts the pattern matches *)

Lemma is_Some_orelse {A} (o : option A) (o' : option A) :
  is_Some o' -> is_Some (match o with Some r => Some r | None => o' end).
Proof. intros Ho'. by destruct o. Qed.

Lemma starGreedy_complete {R} (k : string -> string -> option R)
    (sp rest taken taken' : string) :
  (forall t t' s, is_Some (k t s) -> is_Some (k t' s)) ->
  allSpaces sp = true -> is_Some (k taken' rest) ->
  is_Some (starGreedy isSpace k taken (sp +:+ rest)).
Proof.
  intros Hindep Hsp Hk. revert taken Hsp.
  induction sp as [|c sp IH]; intros taken Hsp.
  - change ("" +:+ rest) with rest.
    assert (Hhere : is_Some (k taken rest)) by by apply (Hindep taken').
    destruct rest as [|c rest]; [exact Hhere|]. cbn [starGreedy].
    destruct (isSpace c); [|exact Hhere]. by apply is_Some_orelse.
  - rewrite append_cons. cbn [starGreedy]. simpl in Hsp.
    apply andb_true_iff in Hsp as [Hc Hsp]. rewrite Hc.
    destruct (IH (taken +:+ String c "") Hsp) as [r Hr]. by rewrite Hr.
Qed.

Lemma plusLazy_complete {R} (k : string -> string -> option R)
    (v rest taken taken' : string) :
  (forall t t' s, is_Some (k t s) -> is_Some (k t' s)) ->
  v <> "" -> noSemicolon v = true -> is_Some (k taken' rest) ->
  is_Some (plusLazy notSemicolon k taken (v +:+ rest)).
Proof.
  intros Hindep Hne Hv Hk. revert taken Hne Hv.
  induction v as [|c v IH]; intros taken Hne Hv; [done|].
  rewrite append_cons. cbn [plusLazy]. simpl in Hv.
  apply andb_true_iff in Hv as [Hc Hv]. rewrite Hc. cbv zeta.
  destruct (k (taken +:+ String c "") (v +:+ rest)) as [r|] eqn:Hhere; [done|].
  destruct v as [|c' v].
  - change ("" +:+ rest) with rest in Hhere.
    destruct (Hindep taken' (taken +:+ String c "") rest Hk) as [r Hr]. congruence.
  - by apply IH.
Qed.

Lemma reTail_complete (g1 : string) (g2 : option string) (sp rest : string) :
  allSpaces sp = true -> rest = "" \/ startsWith ";" rest = true ->
  is_Some (reTail g1 g2 (sp +:+ rest)).
Proof.
  intros Hsp Hrest. unfold reTail.
  apply (starGreedy_complete _ sp rest "" ""); [|done|].
  - intros _ _ s Hs. exact Hs.
  - destruct Hrest as [->|Hrest]; [done|]. destruct rest as [|c rest]; [done|].
    cbn [startsWith] in Hrest. destruct (Ascii.eqb ";" c) eqn:Hc; [|discriminate].
    apply Ascii.eqb_eq in Hc as <-. done.
Qed.

Lemma reTail_independent (g1 g1' : string) (g2 g2' : option string) (s : string) :
  is_Some (reTail g1 g2 s) -> is_Some (reTail g1' g2' s).
Proof.
  intros [m Hm]. apply reTail_split in Hm as (_ & sp & rest & -> & Hsp & Hrest).
  by apply reTail_complete.
Qed.

Lemma reImportant_complete (g1 mark sp rest : string) :
  allSpaces sp = true -> rest = "" \/ startsWith ";" rest = true ->
  (mark = "" \/ exists sp0, allSpaces sp0 = true /\ mark = sp0 +:+ "!important") ->
  is_Some (reImportant g1 (mark +:+ sp +:+ rest)).
Proof.
  intros Hsp Hrest Hmark. unfold reImportant.
  destruct Hmark as [->|(sp0 & Hsp0 & ->)].
  - apply is_Some_orelse. change ("" +:+ sp +:+ rest) with (sp +:+ rest).
    by apply reTail_complete.
  - rewrite append_assoc.
    assert (Hfirst : is_Some
              (starGreedy isSpace
                 (fun sp1 s => lit "!important"
                                 (reTail g1 (Some (sp1 +:+ "!important"))) s)
                 "" (sp0 +:+ "!important" +:+ sp +:+ rest))).
    { apply (starGreedy_complete _ sp0 _ "" ""); [|done|].
      - intros t t' s. unfold lit. destruct (startsWith "!important" s); [|done].
        apply reTail_independent.
      - rewrite lit_append. by apply reTail_complete. }
    destruct Hfirst as [m Hm]. by rewrite Hm.
Qed.

Lemma reImportant_independent (g1 g1' s : string) :
  is_Some (reImportant g1 s) -> is_Some (reImportant g1' s).
Proof.
  intros [m Hm].
  apply reImportant_split in Hm as (_ & mark & sp & rest & -> & Hsp & Hrest & Hg2).
  apply reImportant_complete; [done..|].
  destruct (group2 m) as [g|]; [|by left]. right. by destruct Hg2 as [_ ?].
Qed.

Lemma matchHere_complete (s : string) :
  patternShape s -> is_Some (matchHere s).
Proof.
  intros (ws1 & ws2 & v & mark & ws3 & rest & -> & H1 & H2 & H3 & Hne & Hv
          & Hrest & Hmark).
  unfold matchHere. rewrite lit_append.
  apply (starGreedy_complete _ ws1 _ "" ""); [|done|].
  { intros _ _ s Hs. exact Hs. }
  rewrite lit_append.
  apply (starGreedy_complete _ ws2 _ "" ""); [|done|].
  { intros _ _ s Hs. exact Hs. }
  apply (plusLazy_complete _ v _ "" ""); [|done..|].
  { intros t t' s. apply reImportant_independent. }
  by apply reImportant_complete.
Qed.

Lemma exec_complete (pre s : string) :
  is_Some (matchHere s) -> is_Some (fontFamilyRegex_exec (pre +:+ s)).
Proof.
  intros [m Hm]. induction pre as [|c pre IH].
  - exists m. by apply exec_here.
  - rewrite append_cons. cbn [fontFamilyRegex_exec].
    by apply is_Some_orelse.
Qed.

(** X21.  The texts the pattern of line 198 matches.  [exec] finds a match
    in an inline style exactly when the style holds, somewhere,
    [font-family], spaces, a colon, spaces, one or more characters other
    than a semicolon, perhaps spaces and [!important], spaces, and then ends
    or goes on with a semicolon (spaces being optional everywhere).  The
    name is looked for in lower case only, and anywhere in the text, also
    at the end of a longer property name. *)
Theorem fontFamilyRegex_exec_matches (inlineStyle : string) :
  is_Some (fontFamilyRegex_exec inlineStyle)
  <-> exists pre s, inlineStyle = pre +:+ s /\ patternShape s.
Proof.
  split.
  - intros [m Hm]. apply exec_split in Hm as (pre & s & -> & Hm).
    exists pre, s. split; [done|].
    apply matchHere_split in Hm
      as (ws1 & ws2 & mark & ws3 & rest & -> & H1 & H2 & H3 & Hne & Hv & Hrest & Hg2).
    exists ws1, ws2, (group1 m), mark, ws3, rest. repeat split; try done.
    destruct (group2 m) as [g|]; [|by left]. right. by destruct Hg2 as [_ ?].
  - intros (pre & s & -> & Hshape). by apply exec_complete, matchHere_complete.
Qed.

(** * What a pass can request and what it can write *)

Lemma fate_fetch_sheet (doc : Document) (requested : gset string)
    (sheet : StyleSheet) (h : string) (linked : bool) :
  fate doc requested sheet = FateFetch h linked ->
  fallbackSheet sheet h /\ (h ∉ requested) /\ querySelectorLink doc h = Ok linked.
Proof.
  unfold fate, fallbackSheet.
  destruct (ownerNode sheet) as [owner|]; [|done].
  destruct (String.eqb (node_id owner) extentionStyleTagId) eqn:Hid; [done|].
  destruct (media sheet) as [m|]; [|done].
  destruct (includesString sheetMediaBlacklist (mediaText m)) eqn:Hm; [done|].
  destruct (cssRules sheet) as [rules|]; [done|].
  destruct (href sheet) as [h'|]; [|done].
  destruct (truthy (Some h')) eqn:Ht; [|done].
  destruct (String.eqb (rel owner) "stylesheet") eqn:Hrel; [|done].
  case_bool_decide as Hreq; [done|]. simpl.
  destruct (querySelectorLink doc h') as [linked'|] eqn:Hq; [|done].
  intros [= -> ->]. repeat split; try done.
  - intros ->. discriminate Ht.
  - exists owner, m. repeat split; try done.
    + by apply String.eqb_neq.
    + by apply String.eqb_eq.
Qed.

Lemma fate_read_sheet (doc : Document) (requested : gset string)
    (sheet : StyleSheet) (rules : list CSSRule) :
  fate doc requested sheet = FateRead rules -> cssRules sheet = Ok rules.
Proof.
  unfold fate.
  destruct (ownerNode sheet) as [owner|]; [|done].
  destruct (String.eqb (node_id owner) extentionStyleTagId); [done|].
  destruct (media sheet) as [m|]; [|done].
  destruct (includesString sheetMediaBlacklist (mediaText m)); [done|].
  destruct (cssRules sheet) as [rules'|]; [by intros [= ->]|].
  destruct (href sheet) as [h|]; [|done].
  destruct (negb (truthy (Some h)) || negb (String.eqb (rel owner) "stylesheet")
            || bool_decide (h ∈ requested)); [done|].
  by destruct (querySelectorLink doc h).
Qed.

Lemma candidate_facts (rule : CSSRule) (collected : FontFamilyRule) :
  candidate rule = Some collected ->
  css_selectorText rule = Some (selectorText collected)
  /\ style_fontFamily rule = Some (fontFamily collected)
  /\ selectorText collected <> ""
  /\ fontFamily collected <> ""
  /\ fontFamily collected <> "inherit"
  /\ includes (toLowerCase (fontFamily collected)) (toLowerCase replacementFontName)
     = false.
Proof.
  unfold candidate. destruct (style_fontFamily rule) as [ff|]; [|done].
  destruct (truthy (Some ff)) eqn:Hff; [|done].
  destruct (truthy (css_selectorText rule)) eqn:Hsel; [|done]. cbn [negb orb].
  destruct (String.eqb ff "inherit") eqn:Hinh; [done|].
  destruct (includes (toLowerCase ff) (toLowerCase replacementFontName)) eqn:Hrep;
    [done|].
  destruct (css_selectorText rule) as [sel|]; [|done].
  intros [= <-]. cbn [selectorText fontFamily]. repeat split; try done.
  - intros ->. discriminate Hsel.
  - intros ->. discriminate Hff.
  - by apply String.eqb_neq.
Qed.

Section Provenance.
Context `{HostEngine}.

Lemma corePass_requests (doc : Document) (sheets : list StyleSheet) (c : Core) :
  exists sent,
    c_fetches (corePass doc sheets c) = c_fetches c ++ sent
    /\ (forall u, u ∈ sent ->
          (u ∉ c_requested c) /\ querySelectorLink doc u = Ok true
          /\ exists sheet, sheet ∈ sheets /\ fallbackSheet sheet u)
    /\ (forall u, u ∈ c_requested (corePass doc sheets c) ->
          u ∈ c_requested c \/ exists sheet, sheet ∈ sheets /\ fallbackSheet sheet u).
Proof.
  revert c. induction sheets as [|sheet rest IH]; intros c.
  - exists []. rewrite app_nil_r. split; [done|]. split; [|by left].
    intros u Hu. by apply elem_of_nil in Hu.
  - assert (Hlater : forall c',
              c_fetches c' = c_fetches c -> c_requested c' = c_requested c ->
              exists sent,
                c_fetches (corePass doc rest c') = c_fetches c ++ sent
                /\ (forall u, u ∈ sent ->
                      (u ∉ c_requested c) /\ querySelectorLink doc u = Ok true
                      /\ exists s, s ∈ sheet :: rest /\ fallbackSheet s u)
                /\ (forall u, u ∈ c_requested (corePass doc rest c') ->
                      u ∈ c_requested c
                      \/ exists s, s ∈ sheet :: rest /\ fallbackSheet s u)).
    { intros c' Hf Hr. destruct (IH c') as (sent & Hsent & Hs & Hq).
      exists sent. rewrite <- Hf, <- Hr. split; [done|]. split.
      - intros u Hu. destruct (Hs u Hu) as (Hn & Hl & s & Hin & Hfb).
        split; [done|]. split; [done|]. exists s. split; [|done].
        by apply list_elem_of_further.
      - intros u Hu. destruct (Hq u Hu) as [Hold|(s & Hin & Hfb)]; [by left|].
        right. exists s. split; [|done]. by apply list_elem_of_further. }
    cbn [corePass]. unfold coreStep.
    destruct (fate doc (c_requested c) sheet) as [| |rules|h linked|h] eqn:Hfate.
    + by apply Hlater.
    + exists []. rewrite app_nil_r. split; [done|]. split; [|by left].
      intros u Hu. by apply elem_of_nil in Hu.
    + by apply Hlater.
    + apply fate_fetch_sheet in Hfate as (Hfb & Hfresh & Hlink).
      destruct (IH (coreUpdate doc (fetchedRules doc h linked)
                      (mkCore (c_tag c) ({[h]} ∪ c_requested c) (c_calls c)
                              (c_fetches c ++ (if linked then [h] else [])))))
        as (sent & Hsent & Hs & Hq).
      cbn [coreUpdate c_fetches c_requested] in Hsent, Hs, Hq.
      exists ((if linked then [h] else []) ++ sent).
      split; [by rewrite app_assoc|]. split.
      * intros u Hu. apply elem_of_app in Hu as [Hu|Hu].
        -- destruct linked; [|by apply elem_of_nil in Hu].
           apply list_elem_of_singleton in Hu as ->.
           split; [done|]. split; [done|]. exists sheet.
           split; [apply list_elem_of_here|done].
        -- destruct (Hs u Hu) as (Hn & Hl & s & Hin & Hfbs).
           split; [by intros Hold; apply Hn, elem_of_union_r|].
           split; [done|]. exists s. split; [|done]. by apply list_elem_of_further.
      * intros u Hu. destruct (Hq u Hu) as [Hold|(s & Hin & Hfbs)].
        -- apply elem_of_union in Hold as [Hh|Hold]; [|by left].
           apply elem_of_singleton in Hh as ->. right. exists sheet.
           split; [apply list_elem_of_here|done].
        -- right. exists s. split; [|done]. by apply list_elem_of_further.
    + by apply Hlater.
Qed.

(** X22.  What a pass asks the network for.  Every request a pass sends
    is for the href of a sheet of the document whose rules could not be
    read, that is not the sheet of the override element, whose media is not
    on the blacklist and whose owner is a [rel="stylesheet"] link; the href
    was not recorded when the pass started and a link element with that
    href is in the document.  Every href a pass records is the href of such
    a sheet.  So a pass never fetches a sheet it can read, a sheet for
    print, or a sheet of another document. *)
Theorem updateFontFamilyRules_requests (doc : Document) (st : State) :
  let st' := finalState (updateFontFamilyRules doc st) in
  exists sent,
    fetches (trace st') = fetches (trace st) ++ sent
    /\ (forall u, u ∈ sent ->
          (u ∉ requestedCssFiles st) /\ querySelectorLink doc u = Ok true
          /\ exists sheet, sheet ∈ styleSheets doc /\ fallbackSheet sheet u)
    /\ (forall u, u ∈ requestedCssFiles st' ->
          u ∈ requestedCssFiles st
          \/ exists sheet, sheet ∈ styleSheets doc /\ fallbackSheet sheet u).
Proof.
  intros st'.
  destruct (corePass_requests doc (styleSheets doc) (core st)) as (sent & Hsent & Hs & Hq).
  rewrite <- core_updateFontFamilyRules in Hsent, Hq. by exists sent.
Qed.

Lemma passBatches_source (doc : Document) (requested : gset string)
    (sheets : list StyleSheet) (collected : FontFamilyRule) :
  collected ∈ List.concat (passBatches doc requested sheets) ->
  exists rule,
    candidate rule = Some collected
    /\ exists sheet, sheet ∈ sheets
         /\ ((exists rules, cssRules sheet = Ok rules /\ rule ∈ rules)
             \/ (exists h rules, href sheet = Some h /\ fetch doc h = Ok rules
                                 /\ rule ∈ rules)).
Proof.
  revert requested. induction sheets as [|sheet rest IH]; intros requested Hin.
  - by apply elem_of_nil in Hin.
  - assert (Hlater : forall requested',
              collected ∈ List.concat (passBatches doc requested' rest) ->
              exists rule,
                candidate rule = Some collected
                /\ exists s, s ∈ sheet :: rest
                     /\ ((exists rules, cssRules s = Ok rules /\ rule ∈ rules)
                         \/ (exists h rules, href s = Some h /\ fetch doc h = Ok rules
                                             /\ rule ∈ rules))).
    { intros requested' Hin'. destruct (IH requested' Hin') as (rule & Hc & s & Hs & Hsrc).
      exists rule. split; [done|]. exists s. split; [|done].
      by apply list_elem_of_further. }
    cbn [passBatches] in Hin.
    destruct (fate doc requested sheet) as [| |rules|h linked|h] eqn:Hfate.
    + by apply (Hlater requested).
    + by apply elem_of_nil in Hin.
    + cbn [List.concat] in Hin. apply elem_of_app in Hin as [Hin|Hin];
        [|by apply (Hlater requested)].
      apply list_elem_of_omap in Hin as (rule & Hrule & Hc).
      exists rule. split; [done|]. exists sheet. split; [apply list_elem_of_here|].
      left. exists rules. split; [|done]. by apply (fate_read_sheet doc requested).
    + cbn [List.concat] in Hin. apply elem_of_app in Hin as [Hin|Hin];
        [|by apply (Hlater ({[h]} ∪ requested))].
      apply list_elem_of_omap in Hin as (rule & Hrule & Hc).
      apply fate_fetch_sheet in Hfate as ((_ & Hhref & _) & _ & _).
      exists rule. split; [done|]. exists sheet. split; [apply list_elem_of_here|].
      right. unfold fetchedRules in Hrule.
      destruct linked; [|by apply elem_of_nil in Hrule].
      destruct (fetch doc h) as [rules|] eqn:Hfetch; [|by apply elem_of_nil in Hrule].
      destruct (head_present doc); [|by apply elem_of_nil in Hrule].
      by exists h, rules.
    + by apply (Hlater requested).
Qed.

Lemma fold_newTag_rules (doc : Document) (batches : list (list FontFamilyRule))
    (tag : option StyleElement) (entry : CSSRule) :
  entry ∈ overrideRules (fold_left (fun tag batch => newTag doc batch tag) batches tag) ->
  entry ∈ overrideRules tag
  \/ exists collected,
       collected ∈ List.concat batches /\ entry = parsedRule collected.
Proof.
  revert tag. induction batches as [|batch rest IH]; intros tag Hin; [by left|].
  cbn [fold_left] in Hin. apply IH in Hin as [Hin|(collected & Hc & ->)].
  - unfold newTag in Hin. destruct (head_present doc);
      [|by apply elem_of_nil in Hin].
    cbn [overrideRules from_option] in Hin. rewrite createNewStyleTag_rules in Hin.
    apply elem_of_app in Hin as [Hin|Hin]; [by left|]. right.
    apply list_elem_of_In, in_map_iff in Hin as (collected & <- & Hk).
    apply list_elem_of_In, elem_of_keptRules in Hk as [Hk _].
    exists collected. split; [|done]. cbn [List.concat]. apply elem_of_app. by left.
  - right. exists collected. split; [|done]. cbn [List.concat].
    apply elem_of_app. by right.
Qed.

(** X23.  Where the entries of the override stylesheet come from.  After
    a pass, every entry of the override stylesheet was there before the
    pass, or was written for a rule of the page: a rule of a readable sheet
    of the document or of the text fetched for one of its sheets, with a
    selector and a font family, the font family being neither [inherit] nor
    one that names the replacement font.  The entry has the selector of
    that rule; it is what the browser made of the line written for that
    selector with the replacement font followed by the font family of that
    rule as declared value: its rule text and its font family are the
    engine's reading of that line. *)
Theorem updateFontFamilyRules_entries (doc : Document) (st : State) (entry : CSSRule) :
  entry ∈ overrideRules (overrideTag (finalState (updateFontFamilyRules doc st))) ->
  entry ∈ overrideRules (overrideTag st)
  \/ exists rule sel ff,
       sourceRule doc rule
       /\ css_selectorText rule = Some sel /\ style_fontFamily rule = Some ff
       /\ sel <> "" /\ ff <> "" /\ ff <> "inherit"
       /\ includes (toLowerCase ff) (toLowerCase replacementFontName) = false
       /\ css_selectorText entry = Some sel
       /\ style_fontFamily entry
          = Some (readFontFamily ("'" +:+ replacementFontName +:+ "', " +:+ ff))
       /\ cssText entry
          = serializeRule sel ("'" +:+ replacementFontName +:+ "', " +:+ ff).
Proof.
  change (overrideTag (finalState (updateFontFamilyRules doc st)))
    with (c_tag (core (finalState (updateFontFamilyRules doc st)))).
  rewrite core_updateFontFamilyRules, corePass_tag. intros Hin.
  apply fold_newTag_rules in Hin as [Hin|(collected & Hc & ->)]; [by left|]. right.
  apply passBatches_source in Hc as (rule & Hcand & sheet & Hsheet & Hsrc).
  apply candidate_facts in Hcand as (Hsel & Hff & Hs & Hf & Hi & Hr).
  exists rule, (selectorText collected), (fontFamily collected).
  split; [by exists sheet|]. by repeat split.
Qed.

Lemma corePass_withSheets (doc : Document) (other sheets : list StyleSheet) (c : Core) :
  corePass (withSheets doc other) sheets c = corePass doc sheets c.
Proof.
  revert c. induction sheets as [|sheet rest IH]; intros c; [done|].
  cbn [corePass]. unfold coreStep.
  change (fate (withSheets doc other) (c_requested c) sheet)
    with (fate doc (c_requested c) sheet).
  destruct (fate doc (c_requested c) sheet); try done; apply IH.
Qed.

End Provenance.

Lemma updateFontFamilyRules_entries_witness :
  @parsedRule literalEngine (mkFFR ".flag-name" "Roboto")
    ∈ overrideRules (overrideTag initialState)
  \/ exists rule sel ff,
       sourceRule flagPage rule
       /\ css_selectorText rule = Some sel /\ style_fontFamily rule = Some ff
       /\ sel <> "" /\ ff <> "" /\ ff <> "inherit"
       /\ includes (toLowerCase ff) (toLowerCase replacementFontName) = false
       /\ css_selectorText (@parsedRule literalEngine (mkFFR ".flag-name" "Roboto"))
          = Some sel
       /\ style_fontFamily (@parsedRule literalEngine (mkFFR ".flag-name" "Roboto"))
          = Some (@readFontFamily literalEngine
                    ("'" +:+ replacementFontName +:+ "', " +:+ ff))
       /\ cssText (@parsedRule literalEngine (mkFFR ".flag-name" "Roboto"))
          = @serializeRule literalEngine sel
              ("'" +:+ replacementFontName +:+ "', " +:+ ff).
Proof.
  apply (@updateFontFamilyRules_entries literalEngine flagPage initialState
           (@parsedRule literalEngine (mkFFR ".flag-name" "Roboto"))).
  apply list_elem_of_here.
Defined.

Section WithoutHead.
Context `{HostEngine}.

Lemma fold_newTag_without_head (doc : Document)
    (batches : list (list FontFamilyRule)) (tag : option StyleElement) :
  head_present doc = false ->
  fold_left (fun tag batch => newTag doc batch tag) batches tag
  = match batches with
    | [] => tag
    | _ :: _ => None
    end.
Proof.
  intros Hhead. revert tag. induction batches as [|batch rest IH]; intros tag; [done|].
  cbn [fold_left]. rewrite IH. unfold newTag. rewrite Hhead. by destruct rest.
Qed.

(** X25.  A pass over a document without head.  If the pass obtains the
    rules of at least one sheet (read or fetched), no override element is
    attached when it ends, whatever was attached before: each update
    detaches the element and cannot append the new one.  If it obtains the
    rules of no sheet, the override element is left as it was. *)
Theorem updateFontFamilyRules_without_head (doc : Document) (st : State) :
  head_present doc = false ->
  overrideTag (finalState (updateFontFamilyRules doc st))
  = match passBatches doc (requestedCssFiles st) (styleSheets doc) with
    | [] => overrideTag st
    | _ :: _ => None
    end.
Proof.
  intros Hhead.
  change (overrideTag (finalState (updateFontFamilyRules doc st)))
    with (c_tag (core (finalState (updateFontFamilyRules doc st)))).
  rewrite core_updateFontFamilyRules, corePass_tag.
  by apply fold_newTag_without_head.
Qed.

End WithoutHead.

Lemma updateFontFamilyRules_without_head_witness :
  overrideTag
    (finalState (@updateFontFamilyRules literalEngine headless
                   (withOverride (mkStyle "" [pageRule ".z" "Kept"]))))
  = None.
Proof.
  exact (@updateFontFamilyRules_without_head literalEngine headless
           (withOverride (mkStyle "" [pageRule ".z" "Kept"])) eq_refl).
Defined.

(** * Passes that never wait *)

Lemma fate_reject_sheet (doc : Document) (requested : gset string)
    (sheet : StyleSheet) (h : string) :
  fate doc requested sheet = FateReject h -> cssRules sheet = Throw.
Proof.
  unfold fate.
  destruct (ownerNode sheet) as [owner|]; [|done].
  destruct (String.eqb (node_id owner) extentionStyleTagId); [done|].
  destruct (media sheet) as [m|]; [|done].
  destruct (includesString sheetMediaBlacklist (mediaText m)); [done|].
  by destruct (cssRules sheet).
Qed.

Section Readable.
Context `{HostEngine}.

Lemma runLoop_readable (doc : Document) (total sheetCount : nat)
    (sheets : list StyleSheet) (st : State) :
  (forall sheet, sheet ∈ sheets -> cssRules sheet <> Throw) ->
  match fst (runLoop doc total sheetCount sheets st) with
  | TaskAwait _ _ _ _ _ => False
  | _ => True
  end.
Proof.
  revert sheetCount st. induction sheets as [|sheet rest IH];
    intros sheetCount st Hall; [done|].
  cbn [runLoop]. rewrite beginSheet_fate.
  assert (Hrest : forall s, s ∈ rest -> cssRules s <> Throw).
  { intros s Hs. apply Hall. by apply list_elem_of_further. }
  destruct (fate doc (requestedCssFiles st) sheet) as [| |rules|h linked|h] eqn:Hfate.
  - by apply IH.
  - done.
  - by apply IH.
  - apply fate_fetch_sheet in Hfate as ((Hthrow & _) & _).
    by destruct (Hall sheet (list_elem_of_here _ _)).
  - apply fate_reject_sheet in Hfate.
    by destruct (Hall sheet (list_elem_of_here _ _)).
Qed.

(** X26.  A pass over sheets that can all be read never waits.  When no
    sheet of the document refuses its rules, the pass reaches line 107 for
    no sheet: it runs from its start to its end, or to the exception of a
    check, without giving way to another mutation batch; it sends no
    request and records no href. *)
Theorem readable_pass_never_suspends (doc : Document) (st : State) :
  (forall sheet, sheet ∈ styleSheets doc -> cssRules sheet <> Throw) ->
  let st' := finalState (updateFontFamilyRules doc st) in
  (startPass doc st = (TaskDone, st') /\ updateFontFamilyRules doc st = Completed st'
   \/ startPass doc st = (TaskFailed, st') /\ updateFontFamilyRules doc st = Aborted st')
  /\ fetches (trace st') = fetches (trace st)
  /\ requestedCssFiles st' = requestedCssFiles st.
Proof.
  intros Hall st'. split; [|split].
  - unfold st', startPass, updateFontFamilyRules.
    pose proof (runLoop_readable doc (List.length (styleSheets doc)) 0
                  (styleSheets doc) st Hall) as Hnever.
    pose proof (runLoop_sheetsLoop doc (List.length (styleSheets doc)) 0
                  (styleSheets doc) st) as Hloop.
    destruct (runLoop doc (List.length (styleSheets doc)) 0 (styleSheets doc) st)
      as [[d n h p rest| |] st1]; cbn [fst] in Hnever; [done| |].
    + left. by rewrite Hloop.
    + right. by rewrite Hloop.
  - destruct (corePass_requests doc (styleSheets doc) (core st))
      as (sent & Hsent & Hs & _).
    rewrite <- core_updateFontFamilyRules in Hsent. fold st' in Hsent.
    change (c_fetches (core st')) with (fetches (trace st')) in Hsent.
    change (c_fetches (core st)) with (fetches (trace st)) in Hsent.
    destruct sent as [|u sent]; [by rewrite app_nil_r in Hsent|].
    destruct (Hs u (list_elem_of_here _ _))
      as (_ & _ & sheet & Hin & Hthrow & _).
    by destruct (Hall sheet Hin).
  - destruct (corePass_requests doc (styleSheets doc) (core st))
      as (sent & _ & _ & Hq).
    rewrite <- core_updateFontFamilyRules in Hq. fold st' in Hq.
    change (c_requested (core st')) with (requestedCssFiles st') in Hq.
    change (c_requested (core st)) with (requestedCssFiles st) in Hq.
    apply set_eq. intros u. split.
    + intros Hu. destruct (Hq u Hu) as [Hold|(sheet & Hin & Hthrow & _)]; [done|].
      by destruct (Hall sheet Hin).
    + apply (Grows_sheetsLoop doc (List.length (styleSheets doc)) 0
               (styleSheets doc) st).
Qed.

End Readable.

Lemma readable_pass_never_suspends_witness :
  (@startPass literalEngine twoSheets initialState
     = (TaskDone, finalState (@updateFontFamilyRules literalEngine twoSheets initialState))
   /\ @updateFontFamilyRules literalEngine twoSheets initialState
      = Completed (finalState (@updateFontFamilyRules literalEngine twoSheets initialState))
   \/ @startPass literalEngine twoSheets initialState
      = (TaskFailed, finalState (@updateFontFamilyRules literalEngine twoSheets initialState))
      /\ @updateFontFamilyRules literalEngine twoSheets initialState
         = Aborted (finalState (@updateFontFamilyRules literalEngine twoSheets initialState)))
  /\ fetches (trace (finalState (@updateFontFamilyRules literalEngine twoSheets initialState)))
     = fetches (trace initialState)
  /\ requestedCssFiles
       (finalState (@updateFontFamilyRules literalEngine twoSheets initialState))
     = requestedCssFiles initialState.
Proof.
  apply (@readable_pass_never_suspends literalEngine twoSheets initialState).
  intros sheet Hin. cbn in Hin.
  apply elem_of_cons in Hin as [->|Hin]; [discriminate|].
  apply list_elem_of_singleton in Hin as ->. discriminate.
Defined.

(** * The pass over the live list

    Line 84 walks [document.styleSheets] itself, and the builder of lines
    168-185 takes the override element out of that list and puts it back at
    the end of the head while the loop runs.  The statements of this part
    are about [updateFontFamilyRules_live], the pass that reads the list
    anew at every step. *)

Section LiveStep.
Context `{HostEngine}.

Lemma scanAndUpdate_live_styled (doc : Document) (rules : list CSSRule)
    (sheetCount total : nat) (d : Dom) (st : State) :
  dom_unstyled d = false ->
  scanAndUpdate_live doc rules sheetCount total d st
  = LiveNext (relist doc (overrideTag st)
                     (createNewStyleTag (omap candidate rules) (overrideTag st)) d)
             (scanAndUpdate doc rules st).
Proof.
  intros Hd. unfold scanAndUpdate_live, scanAndUpdate.
  destruct (collect_spec rules [] st) as (logs & Hc & _). rewrite Hc.
  unfold updateStyleTag_live. by rewrite Hd.
Qed.

Lemma scanAndUpdate_live_unstyled (doc : Document) (rules : list CSSRule)
    (sheetCount total : nat) (d : Dom) (st : State) :
  dom_unstyled d = true ->
  exists logs,
    scanAndUpdate_live doc rules sheetCount total d st
    = LiveNext d (add_events (logs ++ [BuilderCall (omap candidate rules);
                                       LogErrRetrieving sheetCount total]) st)
    /\ builderCalls logs = [] /\ fetches logs = [].
Proof.
  intros Hd. unfold scanAndUpdate_live.
  destruct (collect_spec rules [] st) as (logs & Hc & Hb & Hf). rewrite Hc.
  unfold updateStyleTag_live. rewrite Hd. exists logs. split; [|done].
  unfold add_events, log, emit. simpl. by rewrite <- !app_assoc.
Qed.

Lemma processSheet_live_fate (doc : Document) (sheetCount : nat)
    (sheet : StyleSheet) (d : Dom) (st : State) :
  let total := List.length (dom_sheets d) in
  processSheet_live doc sheetCount sheet d st =
  match fate doc (requestedCssFiles st) sheet with
  | FateSkip => LiveNext d (add_events [LogProcessingSheet sheetCount total] st)
  | FateEscape => LiveAbort d (add_events [LogProcessingSheet sheetCount total] st)
  | FateRead rules =>
      scanAndUpdate_live doc rules sheetCount total d
        (add_events [LogProcessingSheet sheetCount total] st)
  | FateFetch h linked =>
      scanAndUpdate_live doc (fetchedRules doc h linked) sheetCount total d
        (add_events
           [LogFetched (List.length (fetchedRules doc h linked)) sheetCount total]
           (add_requested h
              (add_events (LogProcessingSheet sheetCount total
                             :: fetchEvents doc h linked) st)))
  | FateReject h =>
      LiveNext d (add_events [LogProcessingSheet sheetCount total; LogFetching h;
                              LogErrRetrieving sheetCount total] st)
  end.
Proof.
  intros total. unfold processSheet_live, fate. cbv zeta. fold total.
  sheet_checks sheet.
  destruct (cssRules sheet) as [rules|]; [reflexivity|].
  destruct (href sheet) as [h|]; [|reflexivity].
  change (requestedCssFiles (log (LogProcessingSheet sheetCount total) st))
    with (requestedCssFiles st).
  destruct (negb (truthy (Some h)) || negb (String.eqb (rel owner) "stylesheet")
            || bool_decide (h ∈ requestedCssFiles st)); [reflexivity|].
  unfold fetchCSSRulesFromUrl, fetchCSSRulesFromUrl_begin, fetchCSSRulesFromUrl_end,
    fetchedRules, fetchEvents, add_events, add_requested, log, emit. simpl.
  destruct (querySelectorLink doc h) as [[|]|]; simpl.
  - destruct (fetch doc h) as [rules|]; simpl;
      [destruct (head_present doc); simpl|];
      unfold log; simpl; rewrite <- ?app_assoc; reflexivity.
  - unfold log; simpl; rewrite <- ?app_assoc; reflexivity.
  - unfold log; simpl; rewrite <- ?app_assoc; reflexivity.
Qed.

Lemma processSheet_live_styled (doc : Document) (sheetCount : nat)
    (sheet : StyleSheet) (d : Dom) (st : State) :
  dom_unstyled d = false ->
  processSheet_live doc sheetCount sheet d st
  = match processSheet doc sheetCount (List.length (dom_sheets d)) sheet st with
    | Completed st' => LiveNext (domStep doc sheet st d) st'
    | Aborted st' => LiveAbort d st'
    end.
Proof.
  intros Hd. pose proof (processSheet_live_fate doc sheetCount sheet d st) as Hlive.
  cbv zeta in Hlive. rewrite Hlive, processSheet_fate. unfold domStep, stepBatch.
  destruct (fate doc (requestedCssFiles st) sheet) as [| |rules|h linked|h];
    try reflexivity.
  - by rewrite scanAndUpdate_live_styled.
  - by rewrite scanAndUpdate_live_styled.
Qed.

End LiveStep.

(** ** The list during a pass *)

Lemma firstOwn_split (sheets : list StyleSheet) (i : nat) :
  firstOwn sheets = Some i ->
  exists pre own post,
    sheets = pre ++ own :: post /\ List.length pre = i /\ isOwn own = true
    /\ List.filter isOwn pre = [] /\ delete i sheets = pre ++ post.
Proof.
  revert i. induction sheets as [|sheet rest IH]; intros i Hi; [discriminate|].
  cbn [firstOwn] in Hi. destruct (isOwn sheet) eqn:Hown.
  - injection Hi as <-. by exists [], sheet, rest.
  - destruct (firstOwn rest) as [j|]; [|discriminate]. injection Hi as <-.
    destruct (IH j eq_refl) as (pre & own & post & -> & Hlen & Ho & Hpre & Hdel).
    exists (sheet :: pre), own, post. cbn [List.filter]. rewrite Hown.
    repeat split; try done.
    + simpl. by rewrite Hlen.
    + simpl. by rewrite Hdel.
Qed.

Lemma firstOwn_none (sheets : list StyleSheet) :
  firstOwn sheets = None <-> List.filter isOwn sheets = [].
Proof.
  induction sheets as [|sheet rest IH]; [done|].
  cbn [firstOwn List.filter]. destruct (isOwn sheet); [done|].
  destruct (firstOwn rest); simpl; [|tauto].
  split; [done|]. intros Hnil. by apply IH in Hnil.
Qed.

Lemma filter_isOwn_app (a b : list StyleSheet) :
  List.filter isOwn (a ++ b) = List.filter isOwn a ++ List.filter isOwn b.
Proof. apply List.filter_app. Qed.

Lemma isOwn_sheetOf (e : StyleElement) : isOwn (sheetOf e) = true.
Proof. reflexivity. Qed.

Lemma owns_appendToHead (sheet : StyleSheet) (d : Dom) :
  isOwn sheet = true ->
  List.length (List.filter isOwn (dom_sheets (appendToHead sheet d)))
  = S (List.length (List.filter isOwn (dom_sheets d)))
  /\ List.length (dom_sheets (appendToHead sheet d)) = S (List.length (dom_sheets d)).
Proof.
  intros Hown. unfold appendToHead. cbn [dom_sheets].
  rewrite <- (take_drop (dom_head d) (dom_sheets d)) at 3 6.
  rewrite !filter_isOwn_app. cbn [List.filter]. rewrite Hown.
  rewrite !length_app. simpl. lia.
Qed.

Lemma owns_removeOwn (d : Dom) :
  List.length (List.filter isOwn (dom_sheets d)) = 1 ->
  List.filter isOwn (dom_sheets (removeOwn d)) = []
  /\ S (List.length (dom_sheets (removeOwn d))) = List.length (dom_sheets d).
Proof.
  intros Hone. unfold removeOwn.
  destruct (firstOwn (dom_sheets d)) as [i|] eqn:Hfirst.
  - destruct (firstOwn_split _ _ Hfirst) as (pre & own & post & Heq & Hlen & Ho & Hpre & Hdel).
    cbn [dom_sheets]. rewrite Hdel. rewrite Heq in Hone |- *.
    rewrite filter_isOwn_app in Hone. cbn [List.filter] in Hone.
    rewrite Ho, Hpre in Hone. simpl in Hone.
    rewrite filter_isOwn_app, Hpre. simpl.
    split; [|rewrite !length_app; simpl; lia].
    destruct (List.filter isOwn post); [done|discriminate].
  - apply firstOwn_none in Hfirst. rewrite Hfirst in Hone. discriminate.
Qed.

Section LiveInvariant.
Context `{HostEngine}.

Lemma relist_unstyled (doc : Document) (tag : option StyleElement)
    (new : StyleElement) (d : Dom) :
  dom_unstyled (relist doc tag new d) = dom_unstyled d.
Proof.
  unfold relist, removeOwn, appendToHead.
  destruct tag; [destruct (firstOwn (dom_sheets d))|]; by destruct (head_present doc).
Qed.

Lemma Coherent_relist (doc : Document) (batch : list FontFamilyRule)
    (d : Dom) (st st' : State) :
  Coherent d st ->
  overrideTag st' = newTag doc batch (overrideTag st) ->
  let d' := relist doc (overrideTag st) (createNewStyleTag batch (overrideTag st)) d in
  Coherent d' st' /\ reach d' st' = reach d st.
Proof.
  intros [Hun Hcount] Htag d'. unfold Coherent, reach. rewrite Htag. unfold d'.
  rewrite relist_unstyled. unfold relist, newTag.
  destruct (overrideTag st) as [e|].
  - destruct (owns_removeOwn d Hcount) as [Hnone Hlen].
    destruct (head_present doc).
    + destruct (owns_appendToHead (sheetOf (createNewStyleTag batch (Some e)))
                  (removeOwn d) eq_refl) as [Hc Hl].
      rewrite Hc, Hl, Hnone. simpl. split; [done|]. lia.
    + rewrite Hnone. simpl. split; [done|]. lia.
  - destruct (head_present doc).
    + destruct (owns_appendToHead (sheetOf (createNewStyleTag batch None)) d eq_refl)
        as [Hc Hl].
      rewrite Hc, Hl, Hcount. split; [done|]. lia.
    + split; [done|]. lia.
Qed.

Lemma overrideTag_processSheet (doc : Document) (sheetCount total : nat)
    (sheet : StyleSheet) (st : State) :
  overrideTag (finalState (processSheet doc sheetCount total sheet st))
  = match stepBatch doc (requestedCssFiles st) sheet with
    | Some batch => newTag doc batch (overrideTag st)
    | None => overrideTag st
    end.
Proof.
  change (overrideTag (finalState (processSheet doc sheetCount total sheet st)))
    with (c_tag (core (finalState (processSheet doc sheetCount total sheet st)))).
  rewrite core_processSheet. unfold coreStep, stepBatch.
  change (c_requested (core st)) with (requestedCssFiles st).
  by destruct (fate doc (requestedCssFiles st) sheet).
Qed.

(** A step keeps the list coherent and within reach. *)
Lemma processSheet_live_keeps (doc : Document) (sheetCount : nat)
    (sheet : StyleSheet) (d d' : Dom) (st st' : State) :
  dom_unstyled d = true \/ Coherent d st ->
  processSheet_live doc sheetCount sheet d st = LiveNext d' st' ->
  (dom_unstyled d' = true \/ Coherent d' st') /\ reach d' st' = reach d st.
Proof.
  intros [Hun|Hco] Hstep.
  - pose proof (processSheet_live_fate doc sheetCount sheet d st) as Hlive.
    cbv zeta in Hlive. rewrite Hlive in Hstep.
    destruct (fate doc (requestedCssFiles st) sheet) as [| |rules|h linked|h].
    + injection Hstep as <- <-. by split; [left|].
    + discriminate.
    + destruct (scanAndUpdate_live_unstyled doc rules sheetCount
                  (List.length (dom_sheets d)) d
                  (add_events [LogProcessingSheet sheetCount
                                 (List.length (dom_sheets d))] st) Hun)
        as (logs & Heq & _).
      rewrite Heq in Hstep. injection Hstep as <- <-. by split; [left|].
    + match type of Hstep with
      | scanAndUpdate_live _ ?r ?n ?t _ ?s = _ =>
          destruct (scanAndUpdate_live_unstyled doc r n t d s Hun) as (logs & Heq & _)
      end.
      rewrite Heq in Hstep. injection Hstep as <- <-. by split; [left|].
    + injection Hstep as <- <-. by split; [left|].
  - pose proof Hco as [Hun _].
    rewrite (processSheet_live_styled doc sheetCount sheet d st Hun) in Hstep.
    pose proof (overrideTag_processSheet doc sheetCount (List.length (dom_sheets d))
                  sheet st) as Htag.
    destruct (processSheet doc sheetCount (List.length (dom_sheets d)) sheet st)
      as [st1|st1]; [|discriminate].
    injection Hstep as <- <-. cbn [finalState] in Htag. unfold domStep.
    destruct (stepBatch doc (requestedCssFiles st) sheet) as [batch|].
    + destruct (Coherent_relist doc batch d st st1 Hco Htag) as [Hc Hr].
      split; [by right|done].
    + split; [right|].
      * destruct Hco as [? Hcount]. split; [done|]. by rewrite Htag.
      * unfold reach. by rewrite Htag.
Qed.

Lemma sheetsLoop_live_returns (doc : Document) (fuel index : nat) (d : Dom) (st : State) :
  dom_unstyled d = true \/ Coherent d st ->
  index <= reach d st -> reach d st < fuel + index ->
  exists result, sheetsLoop_live doc fuel index d st = Some result.
Proof.
  revert index d st. induction fuel as [|fuel IH]; intros index d st Hinv Hle Hfuel;
    [lia|].
  cbn [sheetsLoop_live].
  destruct (dom_sheets d !! index) as [sheet|] eqn:Hsheet; [|by eexists].
  destruct (processSheet_live doc (S index) sheet d st) as [d' st'|d' st'] eqn:Hstep;
    [|by eexists].
  destruct (processSheet_live_keeps doc (S index) sheet d d' st st' Hinv Hstep)
    as [Hinv' Hreach].
  apply lookup_lt_Some in Hsheet.
  apply IH; [done| |]; rewrite Hreach; [|lia].
  unfold reach. destruct (overrideTag st); lia.
Qed.

Lemma updateFontFamilyRules_live_returns (doc : Document) (d : Dom) (st : State) :
  dom_unstyled d = true \/ Coherent d st ->
  exists result, updateFontFamilyRules_live doc d st = Some result.
Proof.
  intros Hinv. apply sheetsLoop_live_returns; [done|lia|].
  unfold reach. destruct (overrideTag st); lia.
Qed.

End LiveInvariant.

(** ** The batches of a pass over the live list *)

Section LiveBatches.
Context `{HostEngine}.

Lemma scanAndUpdate_live_calls (doc : Document) (rules : list CSSRule)
    (sheetCount total : nat) (d : Dom) (st : State) :
  exists d' st',
    scanAndUpdate_live doc rules sheetCount total d st = LiveNext d' st'
    /\ builderCalls (trace st') = builderCalls (trace st) ++ [omap candidate rules]
    /\ fetches (trace st') = fetches (trace st)
    /\ requestedCssFiles st' = requestedCssFiles st
    /\ (forall sheet, sheet ∈ dom_sheets d' ->
          sheet ∈ dom_sheets d \/ exists e, sheet = sheetOf e).
Proof.
  destruct (dom_unstyled d) eqn:Hun.
  - destruct (scanAndUpdate_live_unstyled doc rules sheetCount total d st Hun)
      as (logs & -> & Hb & Hf).
    eexists _, _. split; [done|]. simpl.
    rewrite !builderCalls_app, !fetches_app, Hb, Hf. simpl.
    rewrite app_nil_r. repeat split; try done. by left.
  - rewrite (scanAndUpdate_live_styled doc rules sheetCount total d st Hun).
    eexists _, _. split; [done|].
    pose proof (core_scanAndUpdate doc rules st) as Hcore.
    split; [exact (f_equal c_calls Hcore)|].
    split; [exact (f_equal c_fetches Hcore)|].
    split; [exact (f_equal c_requested Hcore)|].
    intros sheet. unfold relist.
    assert (Hrem : forall s, s ∈ dom_sheets (removeOwn d) -> s ∈ dom_sheets d).
    { intros s. unfold removeOwn. destruct (firstOwn (dom_sheets d)) as [i|]; [|done].
      cbn [dom_sheets]. intros Hs. exact (elem_of_sublist _ _ _ Hs (sublist_delete _ _)). }
    set (d1 := match overrideTag st with Some _ => removeOwn d | None => d end).
    assert (H1 : forall s, s ∈ dom_sheets d1 -> s ∈ dom_sheets d).
    { unfold d1. destruct (overrideTag st); [exact Hrem|done]. }
    destruct (head_present doc); [|by left; apply H1].
    unfold appendToHead. cbn [dom_sheets]. intros Hin.
    apply elem_of_app in Hin as [Hin|Hin].
    + left. apply H1. exact (elem_of_sublist _ _ _ Hin (sublist_take _ _)).
    + apply elem_of_cons in Hin as [->|Hin]; [right; by eexists|].
      left. apply H1. exact (elem_of_sublist _ _ _ Hin (sublist_drop _ _)).
Qed.

(** One step: what it adds to the builder calls and to the requested
    files. *)
Lemma processSheet_live_calls (doc : Document) (sheetCount : nat)
    (sheet : StyleSheet) (d : Dom) (st : State) :
  exists d' st',
    (processSheet_live doc sheetCount sheet d st = LiveNext d' st'
     \/ processSheet_live doc sheetCount sheet d st = LiveAbort d' st'
        /\ fate doc (requestedCssFiles st) sheet = FateEscape)
    /\ (forall rest,
          builderCalls (trace st) ++ passBatches doc (requestedCssFiles st) (sheet :: rest)
          = match fate doc (requestedCssFiles st) sheet with
            | FateEscape => builderCalls (trace st')
            | _ => builderCalls (trace st') ++ passBatches doc (requestedCssFiles st') rest
            end)
    /\ (forall s, s ∈ dom_sheets d' -> s ∈ dom_sheets d \/ exists e, s = sheetOf e).
Proof.
  pose proof (processSheet_live_fate doc sheetCount sheet d st) as Hlive.
  cbv zeta in Hlive. rewrite Hlive. cbn [passBatches].
  destruct (fate doc (requestedCssFiles st) sheet) as [| |rules|h linked|h].
  - eexists _, _. split; [by left|]. simpl. rewrite builderCalls_app. simpl.
    rewrite !app_nil_r. repeat split; try done. by left.
  - eexists _, _. split; [by right|]. simpl. rewrite builderCalls_app. simpl.
    rewrite !app_nil_r. repeat split; try done. by left.
  - match goal with
    | |- context [scanAndUpdate_live _ ?r ?n ?t _ ?s] =>
        destruct (scanAndUpdate_live_calls doc r n t d s)
          as (d' & st' & -> & Hc & _ & Hr & Hin)
    end.
    exists d', st'. split; [by left|].
    split; [|done]. intros rest. rewrite Hc, Hr. simpl.
    rewrite builderCalls_app. simpl. rewrite app_nil_r. by rewrite <- app_assoc.
  - match goal with
    | |- context [scanAndUpdate_live _ ?r ?n ?t _ ?s] =>
        destruct (scanAndUpdate_live_calls doc r n t d s)
          as (d' & st' & -> & Hc & _ & Hr & Hin)
    end.
    exists d', st'. split; [by left|].
    split; [|done]. intros rest. rewrite Hc, Hr. simpl.
    rewrite !builderCalls_app. simpl.
    rewrite builderCalls_fetchEvents, !app_nil_r. by rewrite <- app_assoc.
  - eexists _, _. split; [by left|]. simpl. rewrite builderCalls_app. simpl.
    rewrite !app_nil_r. repeat split; try done. by left.
Qed.


End LiveBatches.

(** ** Exceptions during a pass over the live list *)

Lemma fate_read (doc : Document) (requested : gset string) (sheet : StyleSheet)
    (owner : Node) (m : MediaList) (rules : list CSSRule) :
  ownerNode sheet = Some owner -> node_id owner <> extentionStyleTagId ->
  media sheet = Some m -> includesString sheetMediaBlacklist (mediaText m) = false ->
  cssRules sheet = Ok rules ->
  fate doc requested sheet = FateRead rules.
Proof.
  intros Ho Hid Hm Hb Hr. unfold fate. rewrite Ho, Hm, Hb, Hr.
  apply String.eqb_neq in Hid. by rewrite Hid.
Qed.


Lemma fate_no_escape (doc : Document) (requested : gset string) (sheet : StyleSheet) :
  is_Some (ownerNode sheet) -> is_Some (media sheet) ->
  fate doc requested sheet <> FateEscape.
Proof.
  intros [owner Ho] [m Hm]. unfold fate. rewrite Ho, Hm.
  destruct (String.eqb (node_id owner) extentionStyleTagId); [done|].
  destruct (includesString sheetMediaBlacklist (mediaText m)); [done|].
  destruct (cssRules sheet); [done|]. destruct (href sheet) as [h|]; [|done].
  destruct (negb (truthy (Some h)) || negb (String.eqb (rel owner) "stylesheet")
            || bool_decide (h ∈ requested)); [done|].
  by destruct (querySelectorLink doc h).
Qed.

Section LiveExceptions.
Context `{HostEngine}.

(** Every iteration on a sheet with owner node and media list hands over
    to the next index. *)
Lemma processSheet_live_next (doc : Document) (sheetCount : nat)
    (sheet : StyleSheet) (d : Dom) (st : State) :
  is_Some (ownerNode sheet) -> is_Some (media sheet) ->
  exists d' st',
    processSheet_live doc sheetCount sheet d st = LiveNext d' st'
    /\ (forall s, s ∈ dom_sheets d' -> s ∈ dom_sheets d \/ exists e, s = sheetOf e).
Proof.
  intros Ho Hm.
  destruct (processSheet_live_calls doc sheetCount sheet d st)
    as (d' & st' & [Hstep|[_ Hfate]] & _ & Hin).
  - by exists d', st'.
  - by destruct (fate_no_escape doc (requestedCssFiles st) sheet Ho Hm).
Qed.



End LiveExceptions.


(** Both sheets are read, the builder raises twice, and the pass ends as
    usual. *)
Example idTaken_trace :
  trace (passState (@updateFontFamilyRules_live literalEngine (pageOf []) idTaken
                      initialState) initialState)
  = [LogProcessingSheet 1 2; LogAddedRule ".a" 0; BuilderCall [mkFFR ".a" "Foo"];
     LogErrRetrieving 1 2;
     LogProcessingSheet 2 2; LogAddedRule ".b" 0; BuilderCall [mkFFR ".b" "Bar"];
     LogErrRetrieving 2 2; LogFinished 2].
Proof. reflexivity. Qed.

Section LiveBatchTheorem.
Context `{HostEngine}.


End LiveBatchTheorem.



(** ** Where the override element stands *)

Lemma firstOwn_app (pre post : list StyleSheet) (own : StyleSheet) :
  List.filter isOwn pre = [] -> isOwn own = true ->
  firstOwn (pre ++ own :: post) = Some (List.length pre).
Proof.
  intros Hpre Hown. induction pre as [|p pre IH]; simpl.
  - by rewrite Hown.
  - cbn [List.filter] in Hpre. destruct (isOwn p); [discriminate|].
    by rewrite (IH Hpre).
Qed.

Lemma delete_middle {A} (pre post : list A) (x : A) :
  delete (List.length pre) (pre ++ x :: post) = pre ++ post.
Proof. induction pre as [|p pre IH]; [done|]. simpl. by rewrite IH. Qed.

Lemma pageList_app (a b : list StyleSheet) (u : bool) (h h' : nat) :
  pageList (mkDom (a ++ b) h u) = pageList (mkDom a h' u) ++ pageList (mkDom b h' u).
Proof. unfold pageList. cbn [dom_sheets]. apply List.filter_app. Qed.

Lemma filter_page_own (sheets : list StyleSheet) :
  List.filter isOwn sheets = [] ->
  List.filter (fun sheet => negb (isOwn sheet)) sheets = sheets.
Proof.
  induction sheets as [|s rest IH]; [done|]. cbn [List.filter].
  destruct (isOwn s); [discriminate|]. intros Hrest. simpl. by rewrite IH.
Qed.

Lemma filter_page_middle (pre post : list StyleSheet) (own : StyleSheet) :
  isOwn own = true ->
  List.filter (fun sheet => negb (isOwn sheet)) (pre ++ own :: post)
  = List.filter (fun sheet => negb (isOwn sheet)) (pre ++ post).
Proof.
  intros Hown. rewrite !List.filter_app. cbn [List.filter]. by rewrite Hown.
Qed.

Lemma lookup_middle (pre post : list StyleSheet) (own own' sheet : StyleSheet) (j : nat) :
  isOwn own' = true ->
  (pre ++ own' :: post) !! j = Some sheet -> isOwn sheet = false ->
  (pre ++ own :: post) !! j = Some sheet.
Proof.
  intros Hown Hj Hpage.
  destruct (decide (j < List.length pre)) as [Hlt|Hge].
  - rewrite lookup_app_l in Hj |- * by done. done.
  - rewrite lookup_app_r in Hj |- * by lia.
    destruct (j - List.length pre) as [|k]; [|done].
    simpl in Hj. injection Hj as ->. congruence.
Qed.

Lemma lookup_inserted (sheets : list StyleSheet) (h j : nat) (own sheet : StyleSheet) :
  isOwn own = true ->
  (take h sheets ++ own :: drop h sheets) !! j = Some sheet -> isOwn sheet = false ->
  exists j', j' <= j /\ sheets !! j' = Some sheet.
Proof.
  intros Hown Hj Hpage.
  destruct (decide (j < List.length (take h sheets))) as [Hlt|Hge].
  - rewrite lookup_app_l in Hj by done. exists j. split; [lia|].
    rewrite lookup_take_Some in Hj. by destruct Hj.
  - rewrite lookup_app_r in Hj by lia.
    destruct (j - List.length (take h sheets)) as [|k] eqn:Hk.
    + simpl in Hj. injection Hj as ->. congruence.
    + simpl in Hj. rewrite lookup_drop in Hj. exists (h + k). split; [|done].
      pose proof (lookup_lt_Some _ _ _ Hj) as Hlt.
      rewrite length_take in Hk, Hge. lia.
Qed.

Section LivePlacement.
Context `{HostEngine}.

(** An update leaves a stable list stable, every sheet of the page at its
    index. *)
Lemma Stable_relist (doc : Document) (batch : list FontFamilyRule)
    (d : Dom) (st st' : State) :
  Stable doc d st ->
  overrideTag st' = newTag doc batch (overrideTag st) ->
  let d' := relist doc (overrideTag st) (createNewStyleTag batch (overrideTag st)) d in
  Stable doc d' st'
  /\ pageList d' = pageList d
  /\ (forall j sheet, dom_sheets d' !! j = Some sheet -> isOwn sheet = false ->
                      exists j', j' <= j /\ dom_sheets d !! j' = Some sheet).
Proof.
  intros [Hun Hst] Htag d'. unfold Stable. rewrite Htag. unfold d'.
  rewrite relist_unstyled. unfold relist, newTag.
  destruct (head_present doc).
  - destruct Hst as (pre & own & post & Hl & Hown & Hpre & Hpost & Hh & [e He]).
    rewrite He. unfold removeOwn. rewrite Hl, (firstOwn_app pre post own Hpre Hown).
    rewrite delete_middle, Hh.
    rewrite bool_decide_eq_true_2 by lia. cbn [pred].
    unfold appendToHead, pageList. cbn [dom_sheets dom_head].
    rewrite take_app_length, drop_app_length.
    split; [|split].
    + split; [done|]. exists pre, (sheetOf (createNewStyleTag batch (Some e))), post.
      by repeat split.
    + rewrite Hl. by rewrite !filter_page_middle.
    + intros j sheet Hj Hpage. exists j. split; [lia|].
      by apply (lookup_middle pre post own (sheetOf (createNewStyleTag batch (Some e)))).
  - destruct Hst as [Hnone Hnot]. rewrite Hnot. repeat split; try done.
    intros j sheet Hj _. exists j. split; [lia|done].
Qed.

(** The first update of a page without override element puts the element
    in its place; no sheet of the page moves to a lower index. *)
Lemma Fresh_relist (doc : Document) (batch : list FontFamilyRule)
    (d : Dom) (st st' : State) :
  Fresh d st ->
  overrideTag st' = newTag doc batch (overrideTag st) ->
  let d' := relist doc (overrideTag st) (createNewStyleTag batch (overrideTag st)) d in
  Stable doc d' st'
  /\ pageList d' = pageList d
  /\ (forall j sheet, dom_sheets d' !! j = Some sheet -> isOwn sheet = false ->
                      exists j', j' <= j /\ dom_sheets d !! j' = Some sheet).
Proof.
  intros (Hun & Hnone & Htag0 & Hh) Htag d'. unfold Stable. rewrite Htag. unfold d'.
  rewrite relist_unstyled. unfold relist, newTag. rewrite Htag0.
  destruct (head_present doc).
  - unfold appendToHead, pageList. cbn [dom_sheets dom_head].
    assert (Hsplit : List.filter isOwn (take (dom_head d) (dom_sheets d)) = []
                     /\ List.filter isOwn (drop (dom_head d) (dom_sheets d)) = []).
    { rewrite <- (take_drop (dom_head d) (dom_sheets d)) in Hnone.
      rewrite List.filter_app in Hnone. by apply app_eq_nil in Hnone. }
    destruct Hsplit as [Hpre Hpost].
    split; [|split].
    + split; [done|].
      exists (take (dom_head d) (dom_sheets d)), (sheetOf (createNewStyleTag batch None)),
             (drop (dom_head d) (dom_sheets d)).
      repeat split; try done.
      by rewrite length_take, Nat.min_l.
    + rewrite filter_page_middle by done. by rewrite take_drop.
    + intros j sheet Hj Hpage.
      by apply (lookup_inserted _ (dom_head d) j (sheetOf (createNewStyleTag batch None))).
  - repeat split; try done. intros j sheet Hj _. exists j. split; [lia|done].
Qed.

(** One iteration from a placed list: the list stays placed, the sheets
    of the page stay, and every sheet before the next index is settled. *)
Lemma processSheet_live_settles (doc : Document) (index : nat) (sheet : StyleSheet)
    (d d' : Dom) (st st' : State) :
  Placed doc d st ->
  dom_sheets d !! index = Some sheet ->
  processSheet_live doc (S index) sheet d st = LiveNext d' st' ->
  SettledBefore doc index d (core st) ->
  Placed doc d' st' /\ SettledBefore doc (S index) d' (core st')
  /\ pageList d' = pageList d
  /\ core st' = coreStep doc sheet (core st)
  /\ (forall j s, dom_sheets d' !! j = Some s -> isOwn s = false ->
                  exists j', j' <= j /\ dom_sheets d !! j' = Some s).
Proof.
  intros Hplaced Hsheet Hstep Hbefore.
  assert (Hun : dom_unstyled d = false).
  { destruct Hplaced as [[? _]|[? _]]; done. }
  rewrite (processSheet_live_styled doc (S index) sheet d st Hun) in Hstep.
  pose proof (overrideTag_processSheet doc (S index) (List.length (dom_sheets d))
                sheet st) as Htag.
  pose proof (core_processSheet doc (S index) (List.length (dom_sheets d)) sheet st)
    as Hcore.
  destruct (processSheet doc (S index) (List.length (dom_sheets d)) sheet st)
    as [st1|st1]; [|discriminate].
  injection Hstep as <- <-. cbn [finalState] in Htag, Hcore.
  assert (Hmoved : forall d1,
            (forall j s, dom_sheets d1 !! j = Some s -> isOwn s = false ->
                         exists j', j' <= j /\ dom_sheets d !! j' = Some s) ->
            SettledBefore doc (S index) d1 (core st1)).
  { intros d1 Hpos j s Hj Hs. rewrite Hcore.
    destruct (isOwn s) eqn:Hown.
    - unfold Settled. by rewrite (fate_ownSheet doc _ s Hown).
    - destruct (Hpos j s Hs Hown) as (j' & Hle & Hs').
      destruct (decide (j' = index)) as [->|Hne].
      + rewrite Hsheet in Hs'. injection Hs' as <-. apply Settled_step_self.
      + apply Settled_step_other. apply (Hbefore j'); [lia|done]. }
  unfold domStep.
  destruct (stepBatch doc (requestedCssFiles st) sheet) as [batch|].
  - destruct Hplaced as [Hstable|Hfresh].
    + destruct (Stable_relist doc batch d st st1 Hstable Htag) as (Hs & Hp & Hpos).
      split; [by left|]. split; [by apply Hmoved|]. by repeat split.
    + destruct (Fresh_relist doc batch d st st1 Hfresh Htag) as (Hs & Hp & Hpos).
      split; [by left|]. split; [by apply Hmoved|]. by repeat split.
  - assert (Hpos : forall j s, dom_sheets d !! j = Some s -> isOwn s = false ->
                               exists j', j' <= j /\ dom_sheets d !! j' = Some s).
    { intros j s Hj _. exists j. split; [lia|done]. }
    split; [|split; [by apply Hmoved|by repeat split]].
    destruct Hplaced as [[? Hst]|(? & ? & Hnone & ?)].
    + left. split; [done|]. rewrite Htag. exact Hst.
    + right. repeat split; try done. by rewrite Htag.
Qed.

End LivePlacement.

(** ** A pass from a placed list reaches every sheet of the page *)

Lemma reads_own (doc : Document) (sheet : StyleSheet) :
  isOwn sheet = true -> reads doc sheet = false.
Proof. intros Hown. unfold reads. by rewrite (fate_ownSheet doc ∅ sheet Hown). Qed.

Section LiveSettles.
Context `{HostEngine}.

Lemma Canonical_step (doc : Document) (sheet : StyleSheet) (c : Core) :
  Literal -> reads doc sheet = true -> Canonical (c_tag (coreStep doc sheet c)).
Proof.
  intros Hlit Hreads.
  apply (fate_reads doc (c_requested c)) in Hreads as [rules Hfate].
  unfold coreStep. rewrite Hfate. by apply Canonical_newTag.
Qed.

Lemma sheetsLoop_live_settles (doc : Document) (fuel index : nat) (d d' : Dom)
    (st : State) (result : PassResult) :
  Placed doc d st -> Owned d ->
  SettledBefore doc index d (core st) ->
  (Literal ->
   (exists j s, j < index /\ dom_sheets d !! j = Some s /\ reads doc s = true) ->
   Canonical (overrideTag st)) ->
  sheetsLoop_live doc fuel index d st = Some (result, d') ->
  exists st',
    result = Completed st'
    /\ Placed doc d' st' /\ Owned d' /\ pageList d' = pageList d
    /\ (forall sheet, sheet ∈ dom_sheets d' -> Settled doc (core st') sheet)
    /\ (Literal -> existsb (reads doc) (dom_sheets d') = true ->
        Canonical (overrideTag st')).
Proof.
  revert index d st. induction fuel as [|fuel IH];
    intros index d st Hplaced Howned Hbefore Hcanon Hrun; [discriminate|].
  cbn [sheetsLoop_live] in Hrun.
  destruct (dom_sheets d !! index) as [sheet|] eqn:Hsheet.
  - destruct (Howned sheet (list_elem_of_lookup_2 _ _ _ Hsheet)) as [Ho Hm].
    destruct (processSheet_live_next doc (S index) sheet d st Ho Hm)
      as (d1 & st1 & Hstep & Hin).
    rewrite Hstep in Hrun.
    destruct (processSheet_live_settles doc index sheet d d1 st st1 Hplaced Hsheet
                Hstep Hbefore) as (Hplaced1 & Hbefore1 & Hpage1 & Hcore1 & Hpos).
    assert (Howned1 : Owned d1).
    { intros s Hs. destruct (Hin s Hs) as [Hs'|[e ->]]; [by apply Howned|].
      split; by eexists. }
    assert (Hcanon1 : Literal ->
              (exists j s, j < S index /\ dom_sheets d1 !! j = Some s
                           /\ reads doc s = true) ->
              Canonical (overrideTag st1)).
    { intros Hlit (j & s & Hj & Hs & Hreads).
      change (overrideTag st1) with (c_tag (core st1)). rewrite Hcore1.
      assert (Hpage : isOwn s = false).
      { destruct (isOwn s) eqn:Hown; [|done].
        by rewrite (reads_own doc s Hown) in Hreads. }
      destruct (Hpos j s Hs Hpage) as (j' & Hle & Hs').
      destruct (decide (j' = index)) as [->|Hne].
      - rewrite Hsheet in Hs'. injection Hs' as <-. by apply Canonical_step.
      - apply Canonical_coreStep; [done|]. apply Hcanon; [done|].
        exists j', s. split; [lia|done]. }
    destruct (IH (S index) d1 st1 Hplaced1 Howned1 Hbefore1 Hcanon1 Hrun)
      as (st' & Hres & Hp & Ho' & Hpage & Hall & Hc).
    exists st'. split; [done|]. split; [done|]. split; [done|].
    split; [by rewrite Hpage|]. by split.
  - injection Hrun as <- <-. eexists. split; [done|].
    apply lookup_ge_None in Hsheet.
    assert (Hcore : core (log (LogFinished (List.length (dom_sheets d))) st) = core st).
    { apply (core_add_events [LogFinished (List.length (dom_sheets d))]); done. }
    split; [|split; [done|split; [done|split]]].
    + destruct Hplaced as [[? Hst]|(? & ? & ? & ?)]; [left|right]; by repeat split.
    + intros sheet Hin. rewrite Hcore.
      apply list_elem_of_lookup_1 in Hin as [j Hj].
      apply (Hbefore j); [|done]. apply lookup_lt_Some in Hj. lia.
    + intros Hlit Hex. apply Hcanon; [done|].
      apply existsb_exists in Hex as (s & Hin & Hreads).
      apply list_elem_of_In, list_elem_of_lookup_1 in Hin as [j Hj].
      exists j, s. split; [|done]. apply lookup_lt_Some in Hj. lia.
Qed.

End LiveSettles.

(** ** A pass over a list that does not move *)

Lemma SameButOwn_refl (sheets : list StyleSheet) : SameButOwn sheets sheets.
Proof. induction sheets as [|s rest IH]; constructor; [by left|exact IH]. Qed.

Lemma SameButOwn_trans (a b c : list StyleSheet) :
  SameButOwn a b -> SameButOwn b c -> SameButOwn a c.
Proof.
  unfold SameButOwn. intros Hab. revert c.
  induction Hab as [|x y a b Hxy Hab IH]; intros c Hbc.
  - inversion Hbc. constructor.
  - inversion Hbc as [|y' z b' c' Hyz Hbc']; subst. constructor; [|by apply IH].
    destruct Hxy as [->|[Hx Hy]]; [done|].
    destruct Hyz as [<-|[_ Hz]]; right; done.
Qed.

Lemma SameButOwn_drop (n : nat) (a b : list StyleSheet) :
  SameButOwn a b -> SameButOwn (drop n a) (drop n b).
Proof.
  unfold SameButOwn. intros Hab. revert n.
  induction Hab as [|x y a b Hxy Hab IH]; intros [|n]; simpl;
    first [constructor; done | apply IH | done].
Qed.

Lemma SameButOwn_middle (pre post : list StyleSheet) (own own' : StyleSheet) :
  isOwn own = true -> isOwn own' = true ->
  SameButOwn (pre ++ own :: post) (pre ++ own' :: post).
Proof.
  intros Ho Ho'. apply Forall2_app; [apply SameButOwn_refl|].
  constructor; [by right|apply SameButOwn_refl].
Qed.

Section LiveStable.
Context `{HostEngine}.

Lemma corePass_SameButOwn (doc : Document) (sheets sheets' : list StyleSheet)
    (c : Core) :
  SameButOwn sheets sheets' -> corePass doc sheets c = corePass doc sheets' c.
Proof.
  intros Hsame. revert c. induction Hsame as [|a b l l' Hab Hsame IH]; intros c;
    [done|].
  destruct Hab as [->|[Ha Hb]].
  - cbn [corePass]. by rewrite IH.
  - cbn [corePass]. unfold coreStep.
    rewrite (fate_ownSheet doc (c_requested c) a Ha),
            (fate_ownSheet doc (c_requested c) b Hb).
    apply IH.
Qed.

Lemma Stable_relist_same (doc : Document) (batch : list FontFamilyRule)
    (d : Dom) (st : State) :
  Stable doc d st ->
  SameButOwn (dom_sheets d)
    (dom_sheets (relist doc (overrideTag st)
                   (createNewStyleTag batch (overrideTag st)) d)).
Proof.
  intros [Hun Hst]. unfold relist.
  destruct (head_present doc).
  - destruct Hst as (pre & own & post & Hl & Hown & Hpre & Hpost & Hh & [e He]).
    rewrite He. unfold removeOwn. rewrite Hl, (firstOwn_app pre post own Hpre Hown).
    rewrite delete_middle, Hh.
    rewrite bool_decide_eq_true_2 by lia. cbn [pred].
    unfold appendToHead. cbn [dom_sheets dom_head].
    rewrite take_app_length, drop_app_length.
    by apply SameButOwn_middle.
  - destruct Hst as [_ ->]. apply SameButOwn_refl.
Qed.

Lemma sheetsLoop_live_stable (doc : Document) (fuel index : nat) (d d' : Dom)
    (st : State) (result : PassResult) :
  Stable doc d st ->
  sheetsLoop_live doc fuel index d st = Some (result, d') ->
  core (finalState result) = corePass doc (drop index (dom_sheets d)) (core st)
  /\ Stable doc d' (finalState result)
  /\ SameButOwn (dom_sheets d) (dom_sheets d').
Proof.
  revert index d st. induction fuel as [|fuel IH]; intros index d st Hstable Hrun;
    [discriminate|].
  cbn [sheetsLoop_live] in Hrun.
  destruct (dom_sheets d !! index) as [sheet|] eqn:Hsheet.
  - rewrite (drop_S _ _ _ Hsheet). cbn [corePass].
    pose proof Hstable as [Hun _].
    rewrite (processSheet_live_styled doc (S index) sheet d st Hun) in Hrun.
    pose proof (overrideTag_processSheet doc (S index) (List.length (dom_sheets d))
                  sheet st) as Htag.
    pose proof (core_processSheet doc (S index) (List.length (dom_sheets d)) sheet st)
      as Hcore.
    pose proof (processSheet_aborts doc (S index) (List.length (dom_sheets d)) sheet st)
      as Habort.
    destruct (processSheet doc (S index) (List.length (dom_sheets d)) sheet st)
      as [st1|st1]; cbn [finalState] in Htag, Hcore.
    + assert (Hfate : fate doc (c_requested (core st)) sheet <> FateEscape).
      { intros Hesc. apply Habort in Hesc as [st2 Hst2]. discriminate. }
      assert (Hd1 : Stable doc (domStep doc sheet st d) st1
                    /\ SameButOwn (dom_sheets d) (dom_sheets (domStep doc sheet st d))).
      { unfold domStep in *.
        destruct (stepBatch doc (requestedCssFiles st) sheet) as [batch|].
        - split; [|by apply Stable_relist_same].
          by destruct (Stable_relist doc batch d st st1 Hstable Htag).
        - split; [|apply SameButOwn_refl].
          destruct Hstable as [? Hst]. split; [done|]. by rewrite Htag. }
      destruct Hd1 as [Hstable1 Hsame1].
      destruct (IH (S index) _ st1 Hstable1 Hrun) as (Hres & Hst' & Hsame').
      split; [|split; [done|by eapply SameButOwn_trans]].
      rewrite Hres, Hcore.
      rewrite <- (corePass_SameButOwn doc (drop (S index) (dom_sheets d))
                    (drop (S index) (dom_sheets (domStep doc sheet st d))))
        by by apply SameButOwn_drop.
      by destruct (fate doc (c_requested (core st)) sheet).
    + injection Hrun as <- <-. cbn [finalState].
      assert (Hesc : fate doc (c_requested (core st)) sheet = FateEscape).
      { apply Habort. by eexists. }
      rewrite Hesc. unfold coreStep in Hcore. rewrite Hesc in Hcore.
      split; [done|]. split; [|apply SameButOwn_refl].
      unfold stepBatch in Htag.
      change (c_requested (core st)) with (requestedCssFiles st) in Hesc.
      rewrite Hesc in Htag.
      destruct Hstable as [? Hst]. split; [done|]. by rewrite Htag.
  - injection Hrun as <- <-. apply lookup_ge_None in Hsheet.
    rewrite drop_ge by done. cbn [corePass finalState].
    split; [apply (core_add_events [LogFinished (List.length (dom_sheets d))]); done|].
    split; [|apply SameButOwn_refl].
    destruct Hstable as [? Hst]. by split.
Qed.

End LiveStable.

(** ** Passes in succession over the live list *)

Lemma Owned_checksRaise (d : Dom) (sheet : StyleSheet) :
  Owned d -> sheet ∈ dom_sheets d -> checksRaise sheet = false.
Proof.
  intros Howned Hin. destruct (Howned sheet Hin) as [[owner Ho] [m Hm]].
  unfold checksRaise. rewrite Ho, Hm.
  by destruct (String.eqb (node_id owner) extentionStyleTagId).
Qed.

Lemma SameButOwn_pageList (d d' : Dom) :
  SameButOwn (dom_sheets d) (dom_sheets d') -> pageList d' = pageList d.
Proof.
  unfold pageList, SameButOwn.
  induction 1 as [|a b l l' Hab Hsame IH]; [done|].
  cbn [List.filter]. destruct Hab as [->|[Ha Hb]].
  - by rewrite IH.
  - by rewrite Ha, Hb.
Qed.

Lemma Placed_Coherent (doc : Document) (d : Dom) (st : State) :
  Placed doc d st -> Coherent d st.
Proof.
  intros [[Hun Hst]|(Hun & Hnone & Htag & _)].
  - split; [done|]. destruct (head_present doc).
    + destruct Hst as (pre & own & post & -> & Hown & Hpre & Hpost & _ & [e ->]).
      rewrite List.filter_app. cbn [List.filter]. by rewrite Hown, Hpre, Hpost.
    + destruct Hst as [-> ->]. done.
  - split; [done|]. by rewrite Hnone, Htag.
Qed.

Section LiveTwice.
Context `{HostEngine}.

Lemma Settled_quiet (doc : Document) (c : Core) (sheet : StyleSheet) :
  Settled doc c sheet -> c_tag c = None -> head_present doc = true ->
  stepBatch doc (c_requested c) sheet = None /\ coreStep doc sheet c = c.
Proof.
  unfold Settled, stepBatch, coreStep, Covered. intros Hset Htag Hhead.
  destruct (fate doc (c_requested c) sheet) as [| |rules|h linked|h]; try done.
  rewrite Hhead, Htag in Hset. by destruct Hset as (e & He & _).
Qed.

(** A pass over a page without override element on which nothing is left
    to collect changes nothing. *)
Lemma sheetsLoop_live_quiet (doc : Document) (fuel index : nat) (d d' : Dom)
    (st : State) (result : PassResult) :
  Fresh d st -> head_present doc = true ->
  (forall sheet, sheet ∈ dom_sheets d -> Settled doc (core st) sheet) ->
  sheetsLoop_live doc fuel index d st = Some (result, d') ->
  d' = d /\ core (finalState result) = core st.
Proof.
  revert index st. induction fuel as [|fuel IH]; intros index st Hfresh Hhead Hall Hrun;
    [discriminate|].
  cbn [sheetsLoop_live] in Hrun.
  destruct (dom_sheets d !! index) as [sheet|] eqn:Hsheet.
  - pose proof Hfresh as (Hun & Hnone & Htag & Hh).
    destruct (Settled_quiet doc (core st) sheet
                (Hall sheet (list_elem_of_lookup_2 _ _ _ Hsheet)) Htag Hhead)
      as [Hbatch Hstep].
    rewrite (processSheet_live_styled doc (S index) sheet d st Hun) in Hrun.
    pose proof (core_processSheet doc (S index) (List.length (dom_sheets d)) sheet st)
      as Hcore.
    rewrite Hstep in Hcore. unfold domStep in Hrun.
    change (c_requested (core st)) with (requestedCssFiles st) in Hbatch.
    rewrite Hbatch in Hrun.
    destruct (processSheet doc (S index) (List.length (dom_sheets d)) sheet st)
      as [st1|st1]; cbn [finalState] in Hcore.
    + assert (Hfresh1 : Fresh d st1).
      { repeat split; try done.
        change (overrideTag st1) with (c_tag (core st1)). by rewrite Hcore. }
      destruct (IH (S index) st1 Hfresh1 Hhead) as [Hd Hc]; [|done|].
      * intros s Hs. rewrite Hcore. by apply Hall.
      * split; [done|]. by rewrite Hc.
    + injection Hrun as <- <-. by split.
  - injection Hrun as <- <-. split; [done|].
    apply (core_add_events [LogFinished (List.length (dom_sheets d))]); done.
Qed.

(** Passes over a list on which everything is settled: the requested files
    stay, the rules of the override element stay, and after one such pass a
    further one changes nothing at all. *)
Lemma updateFontFamilyRules_live_settled (doc : Document) (d : Dom) (st : State) :
  Placed doc d st -> Owned d ->
  (forall sheet, sheet ∈ dom_sheets d -> Settled doc (core st) sheet) ->
  exists r2 d2 r3 d3,
    updateFontFamilyRules_live doc d st = Some (r2, d2)
    /\ updateFontFamilyRules_live doc d2 (finalState r2) = Some (r3, d3)
    /\ sheet_cssRules <$> overrideTag (finalState r2) = sheet_cssRules <$> overrideTag st
    /\ requestedCssFiles (finalState r2) = requestedCssFiles st
    /\ overrideTag (finalState r3) = overrideTag (finalState r2)
    /\ (Canonical (overrideTag st) -> overrideTag (finalState r2) = overrideTag st)
    /\ (existsb (reads doc) (dom_sheets d) = false ->
        overrideTag (finalState r2) = overrideTag st)
    /\ pageList d2 = pageList d.
Proof.
  intros Hplaced Howned Hall.
  destruct (updateFontFamilyRules_live_returns doc d st
              (or_intror (Placed_Coherent doc d st Hplaced))) as ([r2 d2] & Hrun2).
  assert (Hcase : Stable doc d st \/ (Fresh d st /\ head_present doc = true)).
  { destruct Hplaced as [Hs|Hf]; [by left|].
    destruct (head_present doc) eqn:Hhead; [by right|]. left.
    destruct Hf as (Hun & Hnone & Htag & _). split; [done|]. by rewrite Hhead. }
  destruct Hcase as [Hstable|[Hfresh Hhead]].
  - destruct (sheetsLoop_live_stable doc _ 0 d d2 st r2 Hstable Hrun2)
      as (Hcore2 & Hstable2 & Hsame2).
    rewrite drop_0 in Hcore2.
    assert (Hreached : reached doc (dom_sheets d) = dom_sheets d).
    { apply reached_all. intros s Hs. by apply (Owned_checksRaise d). }
    destruct (corePass_settled doc (dom_sheets d) (core st)) as [Hreq2 Htag2].
    { rewrite Hreached. exact Hall. }
    rewrite Hreached in Htag2. rewrite <- Hcore2 in Hreq2, Htag2.
    change (c_tag (core (finalState r2))) with (overrideTag (finalState r2)) in Htag2.
    change (c_tag (core st)) with (overrideTag st) in Htag2.
    destruct (updateFontFamilyRules_live_returns doc d2 (finalState r2)
                (or_intror (Placed_Coherent doc d2 _ (or_introl Hstable2))))
      as ([r3 d3] & Hrun3).
    destruct (sheetsLoop_live_stable doc _ 0 d2 d3 (finalState r2) r3 Hstable2 Hrun3)
      as (Hcore3 & _ & _).
    rewrite drop_0 in Hcore3.
    rewrite <- (corePass_SameButOwn doc (dom_sheets d) (dom_sheets d2)) in Hcore3
      by done.
    destruct (corePass_settled doc (dom_sheets d) (core (finalState r2)))
      as [_ Htag3].
    { rewrite Hreached. intros s Hs. rewrite Hcore2. by apply Settled_corePass, Hall. }
    rewrite Hreached in Htag3. rewrite <- Hcore3 in Htag3.
    change (c_tag (core (finalState r3))) with (overrideTag (finalState r3)) in Htag3.
    change (c_tag (core (finalState r2))) with (overrideTag (finalState r2)) in Htag3.
    exists r2, d2, r3, d3. split; [done|]. split; [done|].
    split; [|split; [exact Hreq2|split; [|split; [|split]]]].
    + rewrite Htag2. destruct (existsb (reads doc) (dom_sheets d)); [|done].
      apply rebuilt_rules.
    + rewrite Htag3. destruct (existsb (reads doc) (dom_sheets d)); [|done].
      rewrite Htag2. by destruct (overrideTag st).
    + intros Hcanon. rewrite Htag2.
      by destruct (existsb (reads doc) (dom_sheets d)).
    + intros Hno. by rewrite Htag2, Hno.
    + by apply SameButOwn_pageList.
  - destruct (sheetsLoop_live_quiet doc _ 0 d d2 st r2 Hfresh Hhead Hall Hrun2)
      as [-> Hcore2].
    assert (Hfresh2 : Fresh d (finalState r2)).
    { destruct Hfresh as (Hun & Hnone & Htag & Hh). repeat split; try done.
      change (overrideTag (finalState r2)) with (c_tag (core (finalState r2))).
      by rewrite Hcore2. }
    destruct (updateFontFamilyRules_live_returns doc d (finalState r2)
                (or_intror (Placed_Coherent doc d _ (or_intror Hfresh2))))
      as ([r3 d3] & Hrun3).
    destruct (sheetsLoop_live_quiet doc (List.length (dom_sheets d) + 2) 0 d d3
                (finalState r2) r3 Hfresh2 Hhead)
      as [-> Hcore3]; [|exact Hrun3|].
    { intros s Hs. rewrite Hcore2. by apply Hall. }
    exists r2, d, r3, d. split; [done|]. split; [done|].
    pose proof (f_equal c_tag Hcore2) as Ht2. pose proof (f_equal c_tag Hcore3) as Ht3.
    pose proof (f_equal c_requested Hcore2) as Hr2.
    cbn [core c_tag c_requested] in Ht2, Ht3, Hr2.
    rewrite Ht3, Ht2, Hr2. by repeat split.
Qed.

End LiveTwice.

Section LiveIdempotence.
Context `{HostEngine}.

(** C4, as amended.  The override element being where the script leaves
    it (no override element yet, or the override element as last element of
    the head), and nothing but the override element changing between the
    runs: every run returns; the second run leaves the rule entries of the
    override stylesheet (selector text and rule text, in order) and the
    requested files as the first run left them; the third run leaves the
    element, text included, as the second left it; and with an engine that
    gives a rule back as the builder wrote it the second run leaves the
    element, text included, as the first left it. *)
Theorem updateFontFamilyRules_live_idempotent (doc : Document) (d : Dom) (st : State) :
  Placed doc d st -> Owned d ->
  exists r1 d1 r2 d2 r3 d3,
    updateFontFamilyRules_live doc d st = Some (r1, d1)
    /\ updateFontFamilyRules_live doc d1 (finalState r1) = Some (r2, d2)
    /\ updateFontFamilyRules_live doc d2 (finalState r2) = Some (r3, d3)
    /\ sheet_cssRules <$> overrideTag (finalState r2)
       = sheet_cssRules <$> overrideTag (finalState r1)
    /\ requestedCssFiles (finalState r2) = requestedCssFiles (finalState r1)
    /\ overrideTag (finalState r3) = overrideTag (finalState r2)
    /\ (Literal -> overrideTag (finalState r2) = overrideTag (finalState r1))
    /\ pageList d1 = pageList d /\ pageList d2 = pageList d.
Proof.
  intros Hplaced Howned.
  destruct (updateFontFamilyRules_live_returns doc d st
              (or_intror (Placed_Coherent doc d st Hplaced))) as ([r1 d1] & Hrun1).
  destruct (sheetsLoop_live_settles doc (List.length (dom_sheets d) + 2) 0 d d1 st r1
              Hplaced Howned) as (st1 & -> & Hplaced1 & Howned1 & Hpage1 & Hall1 & Hcanon1);
    [intros j s Hj; lia|by intros _ (j & s & Hj & _); lia|exact Hrun1|].
  cbn [finalState].
  destruct (updateFontFamilyRules_live_settled doc d1 st1 Hplaced1 Howned1 Hall1)
    as (r2 & d2 & r3 & d3 & Hrun2 & Hrun3 & Hrules & Hreq & Hthird & Hcanon & Hquiet
        & Hpage2).
  exists (Completed st1), d1, r2, d2, r3, d3. cbn [finalState].
  repeat split; try done.
  - intros Hlit. destruct (existsb (reads doc) (dom_sheets d1)) eqn:Hreads.
    + by apply Hcanon, Hcanon1.
    + by apply Hquiet.
  - by rewrite Hpage2.
Qed.

(** X9.  A pass from a placed list covers what it can read.  With a head,
    the override element being where the script leaves it, after the pass
    every rule that lines 115-127 let through, in every sheet of the page
    whose rules can be read, has an entry with its selector text in the
    override stylesheet. *)
Theorem updateFontFamilyRules_live_covers (doc : Document) (d : Dom) (st : State)
    (sheet : StyleSheet) (owner : Node) (m : MediaList) (rules : list CSSRule)
    (rule : CSSRule) (collected : FontFamilyRule) :
  Placed doc d st -> Owned d ->
  head_present doc = true ->
  sheet ∈ dom_sheets d ->
  ownerNode sheet = Some owner ->
  node_id owner <> extentionStyleTagId ->
  media sheet = Some m ->
  includesString sheetMediaBlacklist (mediaText m) = false ->
  cssRules sheet = Ok rules ->
  rule ∈ rules ->
  candidate rule = Some collected ->
  exists st' d' tag entry,
    updateFontFamilyRules_live doc d st = Some (Completed st', d')
    /\ overrideTag st' = Some tag
    /\ entry ∈ sheet_cssRules tag
    /\ css_selectorText entry = Some (selectorText collected).
Proof.
  intros Hplaced Howned Hhead Hin Howner Hid Hmedia Hblack Hrules Hrule Hcand.
  destruct (updateFontFamilyRules_live_returns doc d st
              (or_intror (Placed_Coherent doc d st Hplaced))) as ([r1 d1] & Hrun1).
  destruct (sheetsLoop_live_settles doc (List.length (dom_sheets d) + 2) 0 d d1 st r1
              Hplaced Howned) as (st1 & -> & _ & _ & Hpage1 & Hall1 & _);
    [intros j s Hj; lia|by intros _ (j & s & Hj & _); lia|exact Hrun1|].
  assert (Hpage : isOwn sheet = false).
  { unfold isOwn. rewrite Howner. by apply String.eqb_neq. }
  assert (Hin1 : sheet ∈ dom_sheets d1).
  { assert (Hp : sheet ∈ pageList d1).
    { rewrite Hpage1. unfold pageList. apply list_elem_of_In, filter_In.
      split; [by apply list_elem_of_In|]. by rewrite Hpage. }
    unfold pageList in Hp. apply list_elem_of_In, filter_In in Hp as [Hp _].
    by apply list_elem_of_In. }
  pose proof (Hall1 sheet Hin1) as Hset. unfold Settled in Hset.
  rewrite (fate_read doc _ sheet owner m rules Howner Hid Hmedia Hblack Hrules) in Hset.
  unfold Covered in Hset. rewrite Hhead in Hset.
  destruct Hset as (tag & Htag & Hcov).
  assert (Hc : collected ∈ omap candidate rules).
  { apply list_elem_of_omap. by exists rule. }
  apply Hcov, hasOld_true in Hc as (entry & Hentry & Hsel).
  by exists st1, d1, tag, entry.
Qed.

(** X27.  When the override element is the last element of the head (or
    there is neither head nor override element), the pass over the live
    list does what the pass over the list as it was found does: the same
    override element, requested files, builder calls and requests. *)
Theorem updateFontFamilyRules_live_stable (doc : Document) (d : Dom) (st : State) :
  Stable doc d st ->
  exists result d',
    updateFontFamilyRules_live doc d st = Some (result, d')
    /\ core (finalState result)
       = core (finalState (updateFontFamilyRules (withSheets doc (dom_sheets d)) st))
    /\ Stable doc d' (finalState result)
    /\ pageList d' = pageList d.
Proof.
  intros Hstable.
  destruct (updateFontFamilyRules_live_returns doc d st
              (or_intror (Placed_Coherent doc d st (or_introl Hstable))))
    as ([result d'] & Hrun).
  destruct (sheetsLoop_live_stable doc (List.length (dom_sheets d) + 2) 0 d d' st result
              Hstable Hrun) as (Hcore & Hstable' & Hsame).
  exists result, d'. split; [done|]. rewrite drop_0 in Hcore.
  split; [|split; [done|by apply SameButOwn_pageList]].
  rewrite Hcore, core_updateFontFamilyRules. cbn [withSheets styleSheets].
  symmetry. apply corePass_withSheets.
Qed.

End LiveIdempotence.

Lemma Owned_headOnly_flagPage : Owned (headOnly (styleSheets flagPage)).
Proof.
  intros sheet Hin. cbn in Hin.
  apply elem_of_cons in Hin as [->|Hin]; [|by apply elem_of_nil in Hin].
  by split; eexists.
Qed.

Lemma Fresh_headOnly_flagPage : Fresh (headOnly (styleSheets flagPage)) initialState.
Proof. repeat split. cbn. lia. Qed.

Lemma updateFontFamilyRules_live_idempotent_witness :
  exists r1 d1 r2 d2 r3 d3,
    @updateFontFamilyRules_live quotingEngine flagPage
      (headOnly (styleSheets flagPage)) initialState = Some (r1, d1)
    /\ @updateFontFamilyRules_live quotingEngine flagPage d1 (finalState r1) = Some (r2, d2)
    /\ @updateFontFamilyRules_live quotingEngine flagPage d2 (finalState r2) = Some (r3, d3)
    /\ sheet_cssRules <$> overrideTag (finalState r2)
       = sheet_cssRules <$> overrideTag (finalState r1)
    /\ requestedCssFiles (finalState r2) = requestedCssFiles (finalState r1)
    /\ overrideTag (finalState r3) = overrideTag (finalState r2)
    /\ (@Literal quotingEngine -> overrideTag (finalState r2) = overrideTag (finalState r1))
    /\ pageList d1 = pageList (headOnly (styleSheets flagPage))
    /\ pageList d2 = pageList (headOnly (styleSheets flagPage)).
Proof.
  apply (@updateFontFamilyRules_live_idempotent quotingEngine flagPage
           (headOnly (styleSheets flagPage)) initialState).
  - right. exact Fresh_headOnly_flagPage.
  - exact Owned_headOnly_flagPage.
Defined.

(** C4, as the claim states it, fails: with an engine that serialises a
    parsed rule with double quotes, the first run writes the text of the
    override element with single quotes and the second run, over the list
    the first run left, writes it with double quotes. *)
Lemma updateFontFamilyRules_live_text_differs_on_second_run :
  let run1 := @updateFontFamilyRules_live quotingEngine flagPage
                (headOnly (styleSheets flagPage)) initialState in
  let run2 := @updateFontFamilyRules_live quotingEngine flagPage
                (passDom run1 (headOnly (styleSheets flagPage)))
                (passState run1 initialState) in
  textContent <$> overrideTag (passState run1 initialState)
  = Some (".flag-name { font-family: 'Twemoji Country Flags', Roboto !important; }"
            +:+ LF)
  /\ textContent <$> overrideTag (passState run2 initialState)
     = Some (".flag-name { font-family: " +:+ String doubleQuote "Twemoji Country Flags"
               +:+ String doubleQuote ", Roboto !important; }" +:+ LF)
  /\ textContent <$> overrideTag (passState run2 initialState)
     <> textContent <$> overrideTag (passState run1 initialState).
Proof.
  split; [reflexivity|]. split; [reflexivity|]. vm_compute. discriminate.
Qed.

Lemma updateFontFamilyRules_live_covers_witness :
  exists st' d' tag entry,
    @updateFontFamilyRules_live literalEngine flagPage
      (headOnly (styleSheets flagPage)) initialState = Some (Completed st', d')
    /\ overrideTag st' = Some tag
    /\ entry ∈ sheet_cssRules tag
    /\ css_selectorText entry = Some (selectorText (mkFFR ".flag-name" "Roboto")).
Proof.
  apply (@updateFontFamilyRules_live_covers literalEngine flagPage
           (headOnly (styleSheets flagPage)) initialState
           (inlineSheet [pageRule ".flag-name" "Roboto"]) styleNode (mkMedia "")
           [pageRule ".flag-name" "Roboto"] (pageRule ".flag-name" "Roboto")
           (mkFFR ".flag-name" "Roboto")).
  - right. exact Fresh_headOnly_flagPage.
  - exact Owned_headOnly_flagPage.
  - reflexivity.
  - cbn. apply elem_of_cons. by left.
  - reflexivity.
  - by vm_compute.
  - reflexivity.
  - reflexivity.
  - reflexivity.
  - apply elem_of_cons. by left.
  - reflexivity.
Defined.

Lemma updateFontFamilyRules_live_stable_witness :
  exists result d',
    @updateFontFamilyRules_live literalEngine flagPage flagPagePlaced
      (withOverride (mkStyle "" [mkRule (Some "'Twemoji Country Flags', Roboto")
                                        (Some ".flag-name") ""]))
    = Some (result, d')
    /\ core (finalState result)
       = core (finalState
                 (@updateFontFamilyRules literalEngine
                    (withSheets flagPage (dom_sheets flagPagePlaced))
                    (withOverride (mkStyle "" [mkRule (Some "'Twemoji Country Flags', Roboto")
                                                      (Some ".flag-name") ""]))))
    /\ @Stable flagPage d' (finalState result)
    /\ pageList d' = pageList flagPagePlaced.
Proof.
  apply (@updateFontFamilyRules_live_stable literalEngine flagPage flagPagePlaced).
  split; [reflexivity|]. cbn [head_present flagPage pageOf].
  exists [inlineSheet [pageRule ".flag-name" "Roboto"]],
         (sheetOf (mkStyle "" [mkRule (Some "'Twemoji Country Flags', Roboto")
                                      (Some ".flag-name") ""])), [].
  repeat split. by eexists.
Defined.

(** Two style elements added to the head after the override element, the
    override element not being moved: the pass reads the first of them, the
    builder puts the override element behind the second, and the loop runs
    past the second without reading it.  The pass after it reads both. *)
Example added_after_override_trace :
  let run1 := @updateFontFamilyRules_live literalEngine
                (pageOf (dom_sheets addedAfterOverride)) addedAfterOverride
                (withOverride earlierOverride) in
  let run2 := @updateFontFamilyRules_live literalEngine
                (pageOf (dom_sheets addedAfterOverride))
                (passDom run1 addedAfterOverride)
                (passState run1 (withOverride earlierOverride)) in
  builderCalls (trace (passState run1 (withOverride earlierOverride)))
  = [[mkFFR ".a" "Foo"]]
  /\ (omap css_selectorText ∘ sheet_cssRules)
       <$> overrideTag (passState run1 (withOverride earlierOverride))
     = Some [".z"; ".a"]
  /\ (omap css_selectorText ∘ sheet_cssRules)
       <$> overrideTag (passState run2 (withOverride earlierOverride))
     = Some [".z"; ".a"; ".b"].
Proof. by vm_compute. Qed.

(** Two style elements in the body and no override element yet: the first
    pass puts the override element in the head, before them, and the loop
    reads the first of the two again. *)
Example body_sheets_trace :
  builderCalls
    (trace (passState (@updateFontFamilyRules_live literalEngine twoSheets
                         (mkDom (styleSheets twoSheets) 0 false) initialState)
                      initialState))
  = [[mkFFR ".a" "Foo"]; [mkFFR ".a" "Foo"]; [mkFFR ".b" "Bar"]].
Proof. by vm_compute. Qed.
